(** * tinyneuron: the sRGB image boundary and the StyleGAN2 synthesis blocks

    A shallow embedding of [utilities/image.py] and
    [stylegan/links/generator.py].  Floating-point samples are read as real
    numbers, array shapes and indices as natural numbers, 8-bit samples as
    integers.  Operations that raise in Python (a rank or size mismatch in a
    reshape, an incompatible broadcast, a bad group count) return [None]. *)

From Stdlib Require Import Reals Lra Lia List Arith ZArith Bool.
Import ListNotations.

(* ================================================================== *)
(** * utilities/image.py *)
(* ================================================================== *)

Module Image.

Local Open Scope R_scope.

(** [u ** e] on a positive base. *)
Definition fpow (u e : R) : R := Rpower u e.

(** [gamma_forward(u)]: linear light to the sRGB encoding. *)
Definition gamma_forward (u : R) : R :=
  if Rle_dec u 0.0031308 then 12.92 * u
  else 1.055 * fpow u (1 / 2.4) - 0.055.

(** [gamma_reverse(u)]: the sRGB encoding to linear light. *)
Definition gamma_reverse (u : R) : R :=
  if Rle_dec u 0.04045 then u / 12.92
  else fpow ((u + 0.055) / 1.055) 2.4.

(** A three-axis numpy array: its shape and its elements by index. *)
Record ndarray (A : Type) : Type := mk_ndarray
  { dim0 : nat; dim1 : nat; dim2 : nat; elt : nat -> nat -> nat -> A }.

Arguments mk_ndarray {A} _ _ _ _.
Arguments dim0 {A} _.
Arguments dim1 {A} _.
Arguments dim2 {A} _.
Arguments elt {A} _ _ _ _.

(** [numpy.vectorize(f)(a)] and the other element-wise operations. *)
Definition vectorize {A B : Type} (f : A -> B) (a : ndarray A) : ndarray B :=
  mk_ndarray (dim0 a) (dim1 a) (dim2 a) (fun i j k => f (elt a i j k)).

(** [a.transpose(2, 0, 1)]: result axis n is source axis (2,0,1)[n]. *)
Definition transpose_201 {A : Type} (a : ndarray A) : ndarray A :=
  mk_ndarray (dim2 a) (dim0 a) (dim1 a) (fun i j k => elt a j k i).

(** [a.transpose(1, 2, 0)]. *)
Definition transpose_120 {A : Type} (a : ndarray A) : ndarray A :=
  mk_ndarray (dim1 a) (dim2 a) (dim0 a) (fun i j k => elt a k i j).

Definition rgb_to_srgb : ndarray R -> ndarray R := vectorize gamma_forward.

Definition srgb_to_rgb : ndarray R -> ndarray R := vectorize gamma_reverse.

(** [numpy.rint]: the nearest integer, ties to the even one. *)
Definition rint (x : R) : Z :=
  let f := Int_part x in
  let r := x - IZR f in
  if Rlt_dec r (1 / 2) then f
  else if Rlt_dec (1 / 2) r then (f + 1)%Z
  else if Z.even f then f else (f + 1)%Z.

(** [numpy.clip(x, lo, hi)]. *)
Definition clip (lo hi x : Z) : Z := Z.min hi (Z.max lo x).

(** [.astype(uint8)] of an integral value: wrap-around modulo 256. *)
Definition to_uint8 (x : Z) : Z := (x mod 256)%Z.

Section Float32.

(** [.astype(float32)]: the rounding of a double to single precision. *)
Variable float32 : R -> R.

(** [load_image] after PIL has decoded the file, converted it to RGB and
    resized it: [img] is [asarray(img, dtype=uint8)], height x width x
    channel.  Resizing an image to its own size returns the samples as they
    are. *)
Definition load_image (img : ndarray Z) : ndarray R :=
  let array := vectorize (fun s => IZR s / 255) (transpose_201 img) in
  vectorize float32 (srgb_to_rgb array).

End Float32.

(** [to_pil_image] up to [Image.fromarray]: the 8-bit height x width x
    channel samples handed to PIL. *)
Definition to_pil_image (array : ndarray R) : ndarray Z :=
  let srgb :=
    vectorize to_uint8
      (vectorize (clip 0 255)
         (vectorize rint (vectorize (fun v => v * 255) (rgb_to_srgb array)))) in
  transpose_120 srgb.

(** Unit roundoff of IEEE binary32. *)
Definition eps32 : R := / 2 ^ 24.

(** The standard model of rounding to nearest: a relative error of at most
    one unit roundoff. *)
Definition rounds_to_nearest (fl : R -> R) : Prop :=
  forall x : R, Rabs (fl x - x) <= eps32 * Rabs x.

(** Every sample of [img] is an 8-bit value. *)
Definition valid_8bit (img : ndarray Z) : Prop :=
  forall i j k, (i < dim0 img)%nat -> (j < dim1 img)%nat -> (k < dim2 img)%nat ->
    (0 <= elt img i j k <= 255)%Z.

End Image.

(* ================================================================== *)
(** * Arrays: shape and row-major data *)
(* ================================================================== *)

Module Tensor.

(** Number of elements of a shape. *)
Definition size (s : list nat) : nat := fold_right Nat.mul 1 s.

(** A chainer variable or numpy array: a shape and the elements in
    row-major (C) order. *)
Record tensor : Type := mk_tensor { shape : list nat; data : list R }.

Definition well_formed (t : tensor) : Prop := length (data t) = size (shape t).

(** Flat position of a multi-index. *)
Fixpoint ravel (s idx : list nat) : nat :=
  match s, idx with
  | _ :: s', i :: idx' => i * size s' + ravel s' idx'
  | _, _ => 0
  end.

(** Multi-index of a flat position. *)
Fixpoint unravel (s : list nat) (p : nat) : list nat :=
  match s with
  | [] => []
  | _ :: s' => p / size s' :: unravel s' (p mod size s')
  end.

(** [idx] is a valid index into an array of shape [s]. *)
Definition in_bounds (s idx : list nat) : Prop := Forall2 lt idx s.

Definition flat (t : tensor) (p : nat) : R := nth p (data t) 0%R.

(** [t[idx]]. *)
Definition get (t : tensor) (idx : list nat) : R := flat t (ravel (shape t) idx).

(** The array of shape [s] whose element at [idx] is [f idx]. *)
Definition build (s : list nat) (f : list nat -> R) : tensor :=
  mk_tensor s (map (fun p => f (unravel s p)) (seq 0 (size s))).

(** Element-wise application. *)
Definition tmap (f : R -> R) (t : tensor) : tensor :=
  mk_tensor (shape t) (map f (data t)).

(** Sum of [f 0 .. f (n-1)]. *)
Definition sum_n (n : nat) (f : nat -> R) : R :=
  fold_right Rplus 0%R (map f (seq 0 n)).

Definition shape_eqb (s1 s2 : list nat) : bool :=
  if list_eq_dec Nat.eq_dec s1 s2 then true else false.

(** [t.reshape(s)]: same data, new shape; the sizes must agree. *)
Definition reshape (t : tensor) (s : list nat) : option tensor :=
  if size s =? size (shape t) then Some (mk_tensor s (data t)) else None.

(** Broadcasting of one pair of dimensions. *)
Definition bdim (a b : nat) : option nat :=
  if a =? b then Some a
  else if a =? 1 then Some b
  else if b =? 1 then Some a
  else None.

(** Broadcasting of two shapes written last axis first. *)
Fixpoint bshape_rev (r1 r2 : list nat) : option (list nat) :=
  match r1, r2 with
  | [], r => Some r
  | r, [] => Some r
  | a :: r1', b :: r2' =>
      match bdim a b, bshape_rev r1' r2' with
      | Some d, Some r => Some (d :: r)
      | _, _ => None
      end
  end.

(** numpy's broadcast shape of two shapes, aligned on the last axis. *)
Definition broadcast_shapes (s1 s2 : list nat) : option (list nat) :=
  option_map (@rev nat) (bshape_rev (rev s1) (rev s2)).

Fixpoint bclamp (s idx : list nat) : list nat :=
  match s, idx with
  | d :: s', i :: idx' => (if d =? 1 then 0 else i) :: bclamp s' idx'
  | _, _ => []
  end.

(** The index into an operand of shape [s] that the broadcast result reads
    at [idx]: leading axes dropped, axes of extent one pinned to zero. *)
Definition bindex (s idx : list nat) : list nat :=
  bclamp s (skipn (length idx - length s) idx).

(** An element-wise binary operation with broadcasting. *)
Definition broadcast2 (f : R -> R -> R) (a b : tensor) : option tensor :=
  match broadcast_shapes (shape a) (shape b) with
  | Some s =>
      Some (build s (fun idx =>
        f (get a (bindex (shape a) idx)) (get b (bindex (shape b) idx))))
  | None => None
  end.

Definition add : tensor -> tensor -> option tensor := broadcast2 Rplus.
Definition mul : tensor -> tensor -> option tensor := broadcast2 Rmult.
Definition div : tensor -> tensor -> option tensor := broadcast2 Rdiv.

(** The array of shape [s] whose row-major elements are [f 0], [f 1], ... *)
Definition of_fun (s : list nat) (f : nat -> R) : tensor :=
  mk_tensor s (map f (seq 0 (size s))).

(** [concat((t1, t2), axis=0)]: the batch made of the samples of [t1]
    followed by those of [t2]. *)
Definition concat0 (t1 t2 : tensor) : option tensor :=
  match shape t1, shape t2 with
  | n1 :: r1, n2 :: r2 =>
      if shape_eqb r1 r2
      then Some (mk_tensor ((n1 + n2) :: r1) (data t1 ++ data t2))
      else None
  | _, _ => None
  end.

(** [t[lo : lo + n]] along the first axis. *)
Definition slice0 (lo n : nat) (t : tensor) : option tensor :=
  match shape t with
  | m :: r =>
      if lo + n <=? m
      then Some (mk_tensor (n :: r)
                   (firstn (n * size r) (skipn (lo * size r) (data t))))
      else None
  | [] => None
  end.

End Tensor.

(* ================================================================== *)
(** * The chainer functions the generator calls *)
(* ================================================================== *)

Module F.

Import Tensor.

Definition sqrt : tensor -> tensor := tmap R_sqrt.sqrt.

(** [t ** 2]. *)
Definition square : tensor -> tensor := tmap (fun v => (v ^ 2)%R).

(** [t + e] for a scalar [e]. *)
Definition add_scalar (e : R) : tensor -> tensor := tmap (fun v => (v + e)%R).

(** [sum(t, axis=(2, 3, 4), keepdims=True)] of a five-axis array. *)
Definition sum (t : tensor) : option tensor :=
  match shape t with
  | [n; o; c; kh; kw] =>
      Some (build [n; o; 1; 1; 1] (fun idx =>
        match idx with
        | i :: j :: _ =>
            sum_n c (fun ci => sum_n kh (fun u => sum_n kw (fun v =>
              get t [i; j; ci; u; v])))
        | _ => 0%R
        end))
  | _ => None
  end.

(** [scale(x, y, axis=1)] for a one-axis [y]: every channel of [x] is
    multiplied by its entry of [y]. *)
Definition scale (x y : tensor) : option tensor :=
  match shape x, shape y with
  | _ :: c :: _, [c'] =>
      if c =? c'
      then Some (build (shape x) (fun idx =>
             Rmult (get x idx) (get y [nth 1 idx 0])))
      else None
  | _, _ => None
  end.

(** [broadcast_to(t, s)]. *)
Definition broadcast_to (t : tensor) (s : list nat) : option tensor :=
  match broadcast_shapes (shape t) s with
  | Some s' =>
      if shape_eqb s' s
      then Some (build s (fun idx => get t (bindex (shape t) idx)))
      else None
  | None => None
  end.

(** [pad(t, widths, mode="edge")]: every axis is extended on both sides by
    repeating its border elements.  numpy refuses to extend an empty axis. *)
Definition pad (t : tensor) (widths : list (nat * nat)) : option tensor :=
  if length widths =? length (shape t) then
    if existsb (fun dw => (fst dw =? 0) && negb (fst (snd dw) + snd (snd dw) =? 0))
         (combine (shape t) widths)
    then None
    else Some (build
           (map (fun dw => fst (snd dw) + fst dw + snd (snd dw))
              (combine (shape t) widths))
           (fun idx => get t
              (map (fun idw => Nat.min (fst idw - fst (snd (snd idw)))
                                       (fst (snd idw) - 1))
                 (combine idx (combine (shape t) widths)))))
  else None.

(** [convolution_2d(x, W, stride=1, pad=0, groups=g)] without a bias: a
    cross-correlation in which output channel [oc] of group
    [oc / (o / g)] reads the [cg] input channels of that group. *)
Definition convolution_2d (x W : tensor) (groups : nat) : option tensor :=
  match shape x, shape W with
  | [n; c; h; w], [o; cg; kh; kw] =>
      if (0 <? groups) && (c =? cg * groups) && (o mod groups =? 0)
         && (kh <=? h) && (kw <=? w)
      then Some (build [n; o; h - kh + 1; w - kw + 1] (fun idx =>
             match idx with
             | [a; oc; i; j] =>
                 let g := oc / (o / groups) in
                 sum_n cg (fun ci => sum_n kh (fun u => sum_n kw (fun v =>
                   Rmult (get x [a; g * cg + ci; i + u; j + v])
                         (get W [oc; ci; u; v]))))
             | _ => 0%R
             end))
      else None
  | _, _ => None
  end.

(** Source row of output row [i] when [n_in] rows are resampled to [n_out]
    without corner alignment: the position
    [max((i + 1/2) * n_in / n_out - 1/2, 0)] split into the row below, the
    row above (kept inside the image) and the weight of the row above. *)
Definition source_position (n_in n_out i : nat) : nat * nat * R :=
  let num := (2 * i + 1) * n_in - n_out in
  let den := 2 * n_out in
  let v0 := num / den in
  (v0, Nat.min (v0 + 1) (n_in - 1), (INR (num mod den) / INR den)%R).

(** [resize_images(x, (oh, ow), align_corners=False)]: bilinear
    resampling of every channel of every sample.  The description is that
    of an array with at least one sample and one channel; the statements
    about the upsampler alone assume both. *)
Definition resize_images (x : tensor) (oh ow : nat) : option tensor :=
  match shape x with
  | [n; c; h; w] =>
      if (oh =? 0) || (ow =? 0) then None
      else Some (build [n; c; oh; ow] (fun idx =>
             match idx with
             | [a; b; i; j] =>
                 let '(v0, v1, vw) := source_position h oh i in
                 let '(u0, u1, uw) := source_position w ow j in
                 ((1 - vw) * (1 - uw) * get x [a; b; v0; u0]
                  + (1 - vw) * uw * get x [a; b; v0; u1]
                  + vw * (1 - uw) * get x [a; b; v1; u0]
                  + vw * uw * get x [a; b; v1; u1])%R
             | _ => 0%R
             end))
  | _ => None
  end.

End F.

(* ================================================================== *)
(** * stylegan/links/common.py *)
(* ================================================================== *)

Declare Scope option_scope.
Delimit Scope option_scope with opt.

Notation "x <- e ;; k" :=
  (match e with Some x => k | None => None end)
  (at level 61, e at next level, right associativity) : option_scope.

Module Common.

Import Tensor.
Local Open Scope option_scope.

(** Modelled from the spec: [GaussianDistribution] is not among the
    sources.  A call returns a fresh tensor of the requested shape with one
    standard normal draw per element; the draw is the explicit argument
    [z]. *)
Definition GaussianDistribution_call (z : nat -> R) (s : list nat) : tensor :=
  of_fun s z.

(** Modelled from the spec: [EqualizedLinear] is not among the sources.
    It is the learned affine map of the style projector: a weight matrix
    of shape (channels, size) and a bias of shape (channels). *)
Record EqualizedLinear : Type := mk_EqualizedLinear
  { linear_W : tensor; linear_b : tensor }.

Definition EqualizedLinear_init (size channels : nat) (Wf bf : nat -> R)
  : EqualizedLinear :=
  mk_EqualizedLinear (of_fun [channels; size] Wf) (of_fun [channels] bf).

Definition EqualizedLinear_call (self : EqualizedLinear) (x : tensor)
  : option tensor :=
  match shape x, shape (linear_W self), shape (linear_b self) with
  | [n; d], [c; d'], [c'] =>
      if (d =? d') && (c =? c')
      then Some (build [n; c] (fun idx =>
             match idx with
             | [i; j] =>
                 Rplus (sum_n d (fun k =>
                          Rmult (get x [i; k]) (get (linear_W self) [j; k])))
                       (get (linear_b self) [j])
             | _ => 0%R
             end))
      else None
  | _, _, _ => None
  end.

(** Modelled from the spec: [LeakyRelu] is not among the sources.  It is
    the leaky rectified linear unit with a fixed slope. *)
Record LeakyRelu : Type := mk_LeakyRelu { slope : R }.

Definition LeakyRelu_call (self : LeakyRelu) (x : tensor) : tensor :=
  tmap (fun v => if Rle_dec 0 v then v else Rmult (slope self) v) x.

End Common.

(* ================================================================== *)
(** * stylegan/links/generator.py *)
(* ================================================================== *)

Module StyleAffineTransform.

Import Tensor Common.

Record t : Type := mk { s : EqualizedLinear }.

(** [__init__(size, channels)], with the values of the parameters. *)
Definition init (size channels : nat) (Wf bf : nat -> R) : t :=
  mk (EqualizedLinear_init size channels Wf bf).

(** [__call__(w)]. *)
Definition call (self : t) (w : tensor) : option tensor :=
  EqualizedLinear_call (s self) w.

End StyleAffineTransform.

Module WeightDemodulatedConvolution2D.

Import Tensor.
Local Open Scope option_scope.

Record t : Type := mk
  { demod : bool; ksize : nat; pad : nat; c : R; w : tensor; b : tensor }.

(** [__init__(in_channels, out_channels, pointwise, demod, gain)], with
    the values of the parameters [w] and [b].  The source divides by
    [in_channels * ksize ** 2], so [in_channels] is positive in every layer
    that exists. *)
Definition init (in_channels out_channels : nat) (pointwise demod : bool)
  (gain : R) (wf bf : nat -> R) : t :=
  let ksize := if pointwise then 1 else 3 in
  let pad := if pointwise then 0 else 1 in
  mk demod ksize pad
     (gain * R_sqrt.sqrt (1 / (INR in_channels * INR ksize ^ 2)))%R
     (of_fun [out_channels; in_channels; ksize; ksize] wf)
     (of_fun [out_channels] bf).

(** The default [gain=root(2)]. *)
Definition default_gain : R := R_sqrt.sqrt 2.

(** The constant added under the square root. *)
Definition epsilon : R := (1 / 10 ^ 8)%R.

(** [mod_w / sqrt(sum(mod_w ** 2, axis=(2, 3, 4), keepdims=True) + eps)]. *)
Definition demodulate (eps : R) (mod_w : tensor) : option tensor :=
  energy <- F.sum (F.square mod_w) ;;
  div mod_w (F.sqrt (F.add_scalar eps energy)).

(** [__call__(x, y)]. *)
Definition call (self : t) (x y : tensor) : option tensor :=
  match shape (b self), shape x with
  | out_channels :: _, [batch; in_channels; height; width] =>
      y5 <- reshape y [batch; 1; in_channels; 1; 1] ;;
      mod_w <- mul (w self) y5 ;;
      w' <- (if demod self then demodulate epsilon mod_w else Some mod_w) ;;
      group_w <- reshape w' [batch * out_channels; in_channels;
                             ksize self; ksize self] ;;
      group_x <- reshape x [1; batch * in_channels; height; width] ;;
      pad_group_x <- F.pad group_x [(0, 0); (0, 0);
                                    (pad self, pad self); (pad self, pad self)] ;;
      h <- F.convolution_2d pad_group_x group_w batch ;;
      h4 <- reshape h [batch; out_channels; height; width] ;;
      b4 <- reshape (b self) [1; out_channels; 1; 1] ;;
      add h4 b4
  | _, _ => None
  end.

End WeightDemodulatedConvolution2D.

Module NoiseAdder.

Import Tensor Common.
Local Open Scope option_scope.

Record t : Type := mk { s : tensor }.

(** [__init__(channels)], with the value of the parameter [s]. *)
Definition init (channels : nat) (sf : nat -> R) : t :=
  mk (of_fun [channels] sf).

(** [__call__(x)]; [z] is the draw of [self.g]. *)
Definition call (self : t) (z : nat -> R) (x : tensor) : option tensor :=
  match shape x with
  | [b; _; h; w] =>
      n <- F.broadcast_to (GaussianDistribution_call z [b; 1; h; w]) (shape x) ;;
      sn <- F.scale n (s self) ;;
      add x sn
  | _ => None
  end.

End NoiseAdder.

Module Upsampler.

Import Tensor.

(** [__call__(x)]. *)
Definition call (x : tensor) : option tensor :=
  match shape x with
  | _ :: _ :: [height; width] => F.resize_images x (height * 2) (width * 2)
  | _ => None
  end.

End Upsampler.

Module ToRGB.

Import Tensor.

Record t : Type := mk { w : WeightDemodulatedConvolution2D.t }.

(** [__init__(in_channels)], with the values of the parameters. *)
Definition init (in_channels : nat) (wf bf : nat -> R) : t :=
  mk (WeightDemodulatedConvolution2D.init in_channels 3 true false 1 wf bf).

(** [__call__(x, y)]. *)
Definition call (self : t) (x y : tensor) : option tensor :=
  WeightDemodulatedConvolution2D.call (w self) x y.

End ToRGB.

(** The values of the parameters of one convolution with its style
    projector: projector weight and bias, kernel and bias. *)
Record conv_params : Type := mk_conv_params
  { style_W : nat -> R; style_b : nat -> R; conv_w : nat -> R; conv_b : nat -> R }.

Module InitialSkipArchitecture.

Import Tensor Common.
Local Open Scope option_scope.

Record t : Type := mk
  { c1 : tensor;
    s1 : StyleAffineTransform.t;
    w1 : WeightDemodulatedConvolution2D.t;
    n1 : NoiseAdder.t;
    a1 : LeakyRelu;
    s2 : StyleAffineTransform.t;
    trgb : ToRGB.t }.

(** [__init__(size, in_channels, out_channels)], with the values of the
    parameters. *)
Definition init (size in_channels out_channels : nat)
  (c1f : nat -> R) (p1 : conv_params) (n1f : nat -> R) (slope1 : R)
  (prgb : conv_params) : t :=
  mk (of_fun [in_channels; 4; 4] c1f)
     (StyleAffineTransform.init size in_channels (style_W p1) (style_b p1))
     (WeightDemodulatedConvolution2D.init in_channels out_channels false true
        WeightDemodulatedConvolution2D.default_gain (conv_w p1) (conv_b p1))
     (NoiseAdder.init out_channels n1f)
     (mk_LeakyRelu slope1)
     (StyleAffineTransform.init size out_channels (style_W prgb) (style_b prgb))
     (ToRGB.init out_channels (conv_w prgb) (conv_b prgb)).

(** [__call__(w)]; [z1] is the draw of the noise layer. *)
Definition call (self : t) (z1 : nat -> R) (w : tensor)
  : option (tensor * tensor) :=
  match shape w with
  | batch :: _ =>
      h1 <- reshape (c1 self) (1 :: shape (c1 self)) ;;
      h2 <- F.broadcast_to h1 (batch :: shape (c1 self)) ;;
      m1 <- StyleAffineTransform.call (s1 self) w ;;
      h3 <- WeightDemodulatedConvolution2D.call (w1 self) h2 m1 ;;
      h4 <- NoiseAdder.call (n1 self) z1 h3 ;;
      let h5 := LeakyRelu_call (a1 self) h4 in
      m2 <- StyleAffineTransform.call (s2 self) w ;;
      rgb <- ToRGB.call (trgb self) h5 m2 ;;
      Some (h5, rgb)
  | [] => None
  end.

End InitialSkipArchitecture.

Module SkipArchitecture.

Import Tensor Common.
Local Open Scope option_scope.

Record t : Type := mk
  { s1 : StyleAffineTransform.t;
    w1 : WeightDemodulatedConvolution2D.t;
    n1 : NoiseAdder.t;
    a1 : LeakyRelu;
    s2 : StyleAffineTransform.t;
    w2 : WeightDemodulatedConvolution2D.t;
    n2 : NoiseAdder.t;
    a2 : LeakyRelu;
    s3 : StyleAffineTransform.t;
    trgb : ToRGB.t }.

(** [__init__(size, in_channels, out_channels)], with the values of the
    parameters.  The two [Upsampler] links [up] and [skip] have no state. *)
Definition init (size in_channels out_channels : nat)
  (p1 : conv_params) (n1f : nat -> R) (slope1 : R)
  (p2 : conv_params) (n2f : nat -> R) (slope2 : R)
  (prgb : conv_params) : t :=
  mk (StyleAffineTransform.init size in_channels (style_W p1) (style_b p1))
     (WeightDemodulatedConvolution2D.init in_channels out_channels false true
        WeightDemodulatedConvolution2D.default_gain (conv_w p1) (conv_b p1))
     (NoiseAdder.init out_channels n1f)
     (mk_LeakyRelu slope1)
     (StyleAffineTransform.init size out_channels (style_W p2) (style_b p2))
     (WeightDemodulatedConvolution2D.init out_channels out_channels false true
        WeightDemodulatedConvolution2D.default_gain (conv_w p2) (conv_b p2))
     (NoiseAdder.init out_channels n2f)
     (mk_LeakyRelu slope2)
     (StyleAffineTransform.init size out_channels (style_W prgb) (style_b prgb))
     (ToRGB.init out_channels (conv_w prgb) (conv_b prgb)).

(** [__call__(x, y, w)]; [z1] and [z2] are the draws of the two noise
    layers. *)
Definition call (self : t) (z1 z2 : nat -> R) (x y w : tensor)
  : option (tensor * tensor) :=
  h1 <- Upsampler.call x ;;
  m1 <- StyleAffineTransform.call (s1 self) w ;;
  h2 <- WeightDemodulatedConvolution2D.call (w1 self) h1 m1 ;;
  h3 <- NoiseAdder.call (n1 self) z1 h2 ;;
  let h4 := LeakyRelu_call (a1 self) h3 in
  m2 <- StyleAffineTransform.call (s2 self) w ;;
  h5 <- WeightDemodulatedConvolution2D.call (w2 self) h4 m2 ;;
  h6 <- NoiseAdder.call (n2 self) z2 h5 ;;
  let h7 := LeakyRelu_call (a2 self) h6 in
  up_y <- Upsampler.call y ;;
  m3 <- StyleAffineTransform.call (s3 self) w ;;
  contribution <- ToRGB.call (trgb self) h7 m3 ;;
  rgb <- add up_y contribution ;;
  Some (h7, rgb).

End SkipArchitecture.

(** Short names for the four classes the facts below are about. *)
Module WDC := WeightDemodulatedConvolution2D.
Module SAT := StyleAffineTransform.
Module Up := SkipArchitecture.
Module Init := InitialSkipArchitecture.

(* ================================================================== *)
(** * The modulated convolution of one sample *)
(* ================================================================== *)

(** The strictly sequential evaluation that the grouped convolution
    stands for: one sample at a time, each convolved with its own modulated
    (and demodulated) copy of the kernel. *)
Module PerSample.

Import Tensor.

Section OneSample.

Variable self : WeightDemodulatedConvolution2D.t.
Variables in_channels height width : nat.

(** The feature map of the sample, by channel, row and column. *)
Variable xs : nat -> nat -> nat -> R.

(** The modulation vector of the sample, by input channel. *)
Variable ys : nat -> R.

Let k : nat := WeightDemodulatedConvolution2D.ksize self.
Let p : nat := WeightDemodulatedConvolution2D.pad self.

(** The kernel scaled by the modulation of its input channel. *)
Definition modulated (o ci u v : nat) : R :=
  (get (WeightDemodulatedConvolution2D.w self) [o; ci; u; v] * ys ci)%R.

(** Sum of the squared modulated weights of output channel [o]. *)
Definition energy (o : nat) : R :=
  sum_n in_channels (fun ci => sum_n k (fun u => sum_n k (fun v =>
    (modulated o ci u v ^ 2)%R))).

(** The weights divided by [sqrt(energy + eps)]. *)
Definition demodulated (eps : R) (o ci u v : nat) : R :=
  (modulated o ci u v / sqrt (energy o + eps))%R.

(** The weights the convolution runs with. *)
Definition weight (o ci u v : nat) : R :=
  if WeightDemodulatedConvolution2D.demod self
  then demodulated WeightDemodulatedConvolution2D.epsilon o ci u v
  else modulated o ci u v.

(** The feature map extended by edge replication; row [i] and column [j]
    count from the top left corner of the extended map. *)
Definition padded (ci i j : nat) : R :=
  xs ci (Nat.min (i - p) (height - 1)) (Nat.min (j - p) (width - 1)).

(** The convolution of the sample with kernel [wt], plus the bias. *)
Definition conv_with (wt : nat -> nat -> nat -> nat -> R) (o i j : nat) : R :=
  (sum_n in_channels (fun ci => sum_n k (fun u => sum_n k (fun v =>
     (padded ci (i + u) (j + v) * wt o ci u v)%R)))
   + get (WeightDemodulatedConvolution2D.b self) [o])%R.

(** Element [o, i, j] of the output of the sample. *)
Definition conv (o i j : nat) : R := conv_with weight o i j.

End OneSample.

(** The parameters of a layer have the shapes [__init__] gives them. *)
Definition layer_shapes (self : WeightDemodulatedConvolution2D.t)
  (in_channels out_channels : nat) : Prop :=
  shape (WeightDemodulatedConvolution2D.w self)
    = [out_channels; in_channels;
       WeightDemodulatedConvolution2D.ksize self;
       WeightDemodulatedConvolution2D.ksize self] /\
  shape (WeightDemodulatedConvolution2D.b self) = [out_channels] /\
  WeightDemodulatedConvolution2D.ksize self
    = 2 * WeightDemodulatedConvolution2D.pad self + 1.

End PerSample.


(* ================================================================== *)
(** * The fan-in scale, as the equalized learning rate convention reads *)
(* ================================================================== *)

Module Equalized.

Import Tensor.

(** The layer whose learned weights are multiplied by the constant [c] of
    the layer; convolving with it is convolving with the scaled (then
    modulated and demodulated) weights. *)
Definition scaled (self : WeightDemodulatedConvolution2D.t)
  : WeightDemodulatedConvolution2D.t :=
  WeightDemodulatedConvolution2D.mk
    (WeightDemodulatedConvolution2D.demod self)
    (WeightDemodulatedConvolution2D.ksize self)
    (WeightDemodulatedConvolution2D.pad self)
    (WeightDemodulatedConvolution2D.c self)
    (tmap (Rmult (WeightDemodulatedConvolution2D.c self))
       (WeightDemodulatedConvolution2D.w self))
    (WeightDemodulatedConvolution2D.b self).

(** The layer with another value of the constant [c]. *)
Definition with_scale (c' : R) (self : WeightDemodulatedConvolution2D.t)
  : WeightDemodulatedConvolution2D.t :=
  WeightDemodulatedConvolution2D.mk
    (WeightDemodulatedConvolution2D.demod self)
    (WeightDemodulatedConvolution2D.ksize self)
    (WeightDemodulatedConvolution2D.pad self)
    c'
    (WeightDemodulatedConvolution2D.w self)
    (WeightDemodulatedConvolution2D.b self).

End Equalized.

(* ================================================================== *)
(** * Small concrete inputs *)
(* ================================================================== *)

Module Samples.

Import Tensor.

(** A one-pixel image with a sample on each segment of the transfer
    function. *)
Definition image : Image.ndarray Z :=
  Image.mk_ndarray 1 1 3
    (fun _ _ k => match k with O => 0 | S O => 10 | _ => 200 end)%Z.

(** All elements equal to [v]. *)
Definition full (s : list nat) (v : R) : tensor := of_fun s (fun _ => v).

(** An RGB-style projection of four channels to one: pointwise, no
    demodulation, gain 1, every weight 1, no bias. *)
Definition projection : WeightDemodulatedConvolution2D.t :=
  WeightDemodulatedConvolution2D.init 4 1 true false 1 (fun _ => 1%R) (fun _ => 0%R).

(** A 3x3 demodulating layer from two channels to one, every weight 2. *)
Definition layer : WeightDemodulatedConvolution2D.t :=
  WeightDemodulatedConvolution2D.init 2 1 false true
    WeightDemodulatedConvolution2D.default_gain (fun _ => 2%R) (fun _ => 0%R).

(** A 3x3 demodulating layer from one channel to one, every weight 2. *)
Definition unit_layer : WeightDemodulatedConvolution2D.t :=
  WeightDemodulatedConvolution2D.init 1 1 false true
    WeightDemodulatedConvolution2D.default_gain (fun _ => 2%R) (fun _ => 0%R).

End Samples.


(* ================================================================== *)
(** * The other layers, one sample at a time *)
(* ================================================================== *)

Module PerSampleLayers.

Import Tensor Common.

(** Entry [j] of the affine image of the style vector [ws] of one sample. *)
Definition affine (self : EqualizedLinear) (size : nat) (ws : nat -> R) (j : nat) : R :=
  Rplus (sum_n size (fun k => Rmult (ws k) (get (linear_W self) [j; k])))
        (get (linear_b self) [j]).

(** Element [i, j] of one channel [xs] of height [h] and width [w]
    resampled to twice the size. *)
Definition upsample (h w : nat) (xs : nat -> nat -> R) (i j : nat) : R :=
  let '(v0, v1, vw) := F.source_position h (h * 2) i in
  let '(u0, u1, uw) := F.source_position w (w * 2) j in
  ((1 - vw) * (1 - uw) * xs v0 u0 + (1 - vw) * uw * xs v0 u1
   + vw * (1 - uw) * xs v1 u0 + vw * uw * xs v1 u1)%R.

End PerSampleLayers.


(* ================================================================== *)
(** * Two batches and their concatenation *)
(* ================================================================== *)

Module Batch.

Import Tensor.

(** [t12] is the batch [t1; t2]: [n1] samples followed by [n2] samples,
    every sample of shape [rest]. *)
Definition batched (n1 n2 : nat) (rest : list nat) (t1 t2 t12 : tensor) : Prop :=
  shape t1 = n1 :: rest /\ shape t2 = n2 :: rest /\
  well_formed t1 /\ well_formed t2 /\
  concat0 t1 t2 = Some t12.

(** The noise draw of the batch [t1; t2] when the first batch takes [n]
    draws from [z1] and the second its draws from [z2]: every sample keeps
    its own noise. *)
Definition join (n : nat) (z1 z2 : nat -> R) : nat -> R :=
  fun q => if q <? n then z1 q else z2 (q - n).

End Batch.


(* ================================================================== *)
(** * The upsampling block after its three style projections *)
(* ================================================================== *)

Module StyleUse.

Import Tensor Common.
Local Open Scope option_scope.

(** The body of [SkipArchitecture.__call__] with the three modulation
    vectors [m1], [m2], [m3] in place of [s1(w)], [s2(w)], [s3(w)]. *)
Definition run (self : SkipArchitecture.t) (z1 z2 : nat -> R)
  (x y m1 m2 m3 : tensor) : option (tensor * tensor) :=
  h1 <- Upsampler.call x ;;
  h2 <- WeightDemodulatedConvolution2D.call (SkipArchitecture.w1 self) h1 m1 ;;
  h3 <- NoiseAdder.call (SkipArchitecture.n1 self) z1 h2 ;;
  let h4 := LeakyRelu_call (SkipArchitecture.a1 self) h3 in
  h5 <- WeightDemodulatedConvolution2D.call (SkipArchitecture.w2 self) h4 m2 ;;
  h6 <- NoiseAdder.call (SkipArchitecture.n2 self) z2 h5 ;;
  let h7 := LeakyRelu_call (SkipArchitecture.a2 self) h6 in
  up_y <- Upsampler.call y ;;
  contribution <- ToRGB.call (SkipArchitecture.trgb self) h7 m3 ;;
  rgb <- add up_y contribution ;;
  Some (h7, rgb).

End StyleUse.

Module BlockSamples.

Import Tensor.

(** Parameters with every projector weight 0, projector bias 1, kernel
    weight 1 and no bias. *)
Definition params : conv_params :=
  mk_conv_params (fun _ => 0%R) (fun _ => 1%R) (fun _ => 1%R) (fun _ => 0%R).

Definition zero_noise : nat -> R := fun _ => 0%R.

(** An upsampling block from one channel to one channel for style
    vectors of dimension one. *)
Definition up_block : SkipArchitecture.t :=
  SkipArchitecture.init 1 1 1 params (fun _ => 0%R) (1 / 5)
    params (fun _ => 0%R) (1 / 5) params.

(** An initial block of the same sizes. *)
Definition initial_block : InitialSkipArchitecture.t :=
  InitialSkipArchitecture.init 1 1 1 (fun _ => 1%R) params (fun _ => 0%R) (1 / 5) params.

(** The batch made of the samples of [t1] followed by those of [t2], both
    of sample shape [rest]. *)
Definition stacked (n : nat) (rest : list nat) (t1 t2 : tensor) : tensor :=
  mk_tensor (n :: rest) (data t1 ++ data t2).

End BlockSamples.


(* ================================================================== *)
(** * The sRGB transfer functions *)
(* ================================================================== *)

Section GammaFacts.

Import Image.
Local Open Scope R_scope.

Lemma root12_pow12 (a : R) : 0 < a -> Rpower (a ^ 12) (/ 12) = a.
Proof.
  intros Ha.
  rewrite <- (Rpower_pow 12 a Ha), Rpower_mult.
  replace (INR 12 * / 12) with 1 by (simpl; field).
  now apply Rpower_1.
Qed.

Lemma root5_pow5 (a : R) : 0 < a -> Rpower (a ^ 5) (/ 5) = a.
Proof.
  intros Ha.
  rewrite <- (Rpower_pow 5 a Ha), Rpower_mult.
  replace (INR 5 * / 5) with 1 by (simpl; field).
  now apply Rpower_1.
Qed.

(** [u ** (1/2.4)] is the twelfth root of [u^5]. *)
Lemma fpow_encode (u : R) : 0 < u -> fpow u (1 / 2.4) = Rpower (u ^ 5) (/ 12).
Proof.
  intros Hu. unfold fpow.
  rewrite <- (Rpower_pow 5 u Hu), Rpower_mult.
  f_equal. simpl. lra.
Qed.

(** [t ** 2.4] is the fifth root of [t^12]. *)
Lemma fpow_decode (t : R) : 0 < t -> fpow t 2.4 = Rpower (t ^ 12) (/ 5).
Proof.
  intros Ht. unfold fpow.
  rewrite <- (Rpower_pow 12 t Ht), Rpower_mult.
  f_equal. simpl. lra.
Qed.

Lemma fpow_encode_lt (u a : R) :
  0 < u -> 0 < a -> u ^ 5 < a ^ 12 -> fpow u (1 / 2.4) < a.
Proof.
  intros Hu Ha H.
  rewrite (fpow_encode u Hu), <- (root12_pow12 a Ha).
  apply Rlt_Rpower_l; [lra|]. split; [now apply pow_lt | exact H].
Qed.

Lemma fpow_encode_gt (u a : R) :
  0 < u -> 0 < a -> a ^ 12 < u ^ 5 -> a < fpow u (1 / 2.4).
Proof.
  intros Hu Ha H.
  rewrite (fpow_encode u Hu), <- (root12_pow12 a Ha).
  apply Rlt_Rpower_l; [lra|]. split; [now apply pow_lt | exact H].
Qed.

Lemma fpow_decode_gt (t b : R) :
  0 < t -> 0 < b -> b ^ 5 < t ^ 12 -> b < fpow t 2.4.
Proof.
  intros Ht Hb H.
  rewrite (fpow_decode t Ht), <- (root5_pow5 b Hb).
  apply Rlt_Rpower_l; [lra|]. split; [now apply pow_lt | exact H].
Qed.

Lemma fpow_pos (u e : R) : 0 < fpow u e.
Proof. unfold fpow, Rpower. apply exp_pos. Qed.

(** The two powers undo each other on positive numbers. *)
Lemma fpow_encode_decode (t : R) : 0 < t -> fpow (fpow t 2.4) (1 / 2.4) = t.
Proof.
  intros Ht. unfold fpow. rewrite Rpower_mult.
  replace (2.4 * (1 / 2.4)) with 1 by lra.
  now apply Rpower_1.
Qed.

Lemma fpow_decode_encode (u : R) : 0 < u -> fpow (fpow u (1 / 2.4)) 2.4 = u.
Proof.
  intros Hu. unfold fpow. rewrite Rpower_mult.
  replace (1 / 2.4 * 2.4) with 1 by lra.
  now apply Rpower_1.
Qed.

Lemma fpow_mono (a b e : R) : 0 <= e -> 0 < a -> a <= b -> fpow a e <= fpow b e.
Proof. intros He Ha Hab. unfold fpow. apply Rle_Rpower_l; lra. Qed.

Lemma gamma_forward_low (u : R) : u <= 0.0031308 -> gamma_forward u = 12.92 * u.
Proof. intros H. unfold gamma_forward. destruct (Rle_dec u 0.0031308); [reflexivity | contradiction]. Qed.

Lemma gamma_forward_high (u : R) :
  0.0031308 < u -> gamma_forward u = 1.055 * fpow u (1 / 2.4) - 0.055.
Proof. intros H. unfold gamma_forward. destruct (Rle_dec u 0.0031308); [lra | reflexivity]. Qed.

Lemma gamma_reverse_low (v : R) : v <= 0.04045 -> gamma_reverse v = v / 12.92.
Proof. intros H. unfold gamma_reverse. destruct (Rle_dec v 0.04045); [reflexivity | contradiction]. Qed.

Lemma gamma_reverse_high (v : R) :
  0.04045 < v -> gamma_reverse v = fpow ((v + 0.055) / 1.055) 2.4.
Proof. intros H. unfold gamma_reverse. destruct (Rle_dec v 0.04045); [lra | reflexivity]. Qed.




Lemma reverse_forward_low (u : R) :
  0 <= u <= 0.0031308 -> gamma_reverse (gamma_forward u) = u.
Proof.
  intros Hu. rewrite gamma_forward_low by lra.
  rewrite gamma_reverse_low by lra. lra.
Qed.

Lemma gamma_forward_high_above (u : R) : 0.0031309 <= u -> 0.04045 < gamma_forward u.
Proof.
  intros Hu. rewrite gamma_forward_high by lra.
  assert (H : (0.04045 + 0.055) / 1.055 < fpow u (1 / 2.4)).
  { apply Rlt_le_trans with (fpow 0.0031309 (1 / 2.4)).
    - apply fpow_encode_gt; lra.
    - apply fpow_mono; lra. }
  lra.
Qed.

Lemma reverse_forward_high (u : R) :
  0.0031309 <= u -> gamma_reverse (gamma_forward u) = u.
Proof.
  intros Hu. rewrite (gamma_reverse_high _ (gamma_forward_high_above u Hu)).
  rewrite gamma_forward_high by lra.
  replace ((1.055 * fpow u (1 / 2.4) - 0.055 + 0.055) / 1.055)
    with (fpow u (1 / 2.4)) by lra.
  apply fpow_decode_encode. lra.
Qed.

End GammaFacts.

(* ================================================================== *)
(** * Loading and saving 8-bit samples *)
(* ================================================================== *)

Section PixelFacts.

Import Image.
Local Open Scope R_scope.

(** A real within half a unit of an integer rounds to that integer. *)
Lemma rint_near (x : R) (k : Z) : Rabs (x - IZR k) < 1 / 2 -> rint x = k.
Proof.
  intros H. apply Rabs_def2 in H. destruct H as [Hlo Hhi].
  unfold rint.
  destruct (Rle_lt_dec (IZR k) x) as [Hk | Hk].
  - assert (Hf : Int_part x = k).
    { symmetry. apply Int_part_spec. lra. }
    rewrite Hf. destruct (Rlt_dec (x - IZR k) (1 / 2)); [reflexivity | lra].
  - assert (Hf : Int_part x = (k - 1)%Z).
    { symmetry. apply Int_part_spec. rewrite minus_IZR. lra. }
    rewrite Hf, minus_IZR.
    destruct (Rlt_dec (x - (IZR k - 1)) (1 / 2)); [lra|].
    destruct (Rlt_dec (1 / 2) (x - (IZR k - 1))); [lia | lra].
Qed.

Lemma clip_uint8_id (k : Z) : (0 <= k <= 255)%Z -> to_uint8 (clip 0 255 k) = k.
Proof.
  intros Hk. unfold to_uint8, clip.
  rewrite Z.max_r, Z.min_r by lia. apply Z.mod_small. lia.
Qed.

Lemma fpow_mul (x y e : R) : 0 < x -> 0 < y -> fpow (x * y) e = fpow x e * fpow y e.
Proof. intros Hx Hy. unfold fpow. symmetry. now apply Rpower_mult_distr. Qed.

(** A root of a number at least one does not exceed it. *)
Lemma fpow_le_base (r e : R) : 1 <= r -> e <= 1 -> fpow r e <= r.
Proof.
  intros Hr He. unfold fpow.
  rewrite <- (Rpower_1 r) at 2 by lra.
  now apply Rle_Rpower.
Qed.

(** A root of a number in (0,1] is at least that number. *)
Lemma fpow_ge_base (r e : R) : 0 < r <= 1 -> 0 <= e <= 1 -> r <= fpow r e.
Proof.
  intros [Hr0 Hr1] [He0 He1]. unfold fpow, Rpower.
  rewrite <- (exp_ln r Hr0) at 1.
  assert (Hln : ln r <= 0).
  { rewrite <- ln_1. destruct Hr1 as [Hlt | Heq].
    - left. apply ln_increasing; lra.
    - rewrite Heq. lra. }
  assert (Hle : ln r <= e * ln r) by nra.
  destruct Hle as [Hlt | Heq].
  - left. now apply exp_increasing.
  - rewrite <- Heq. lra.
Qed.

Lemma eps32_small : eps32 <= 1 / 10000000.
Proof. unfold eps32. lra. Qed.

(** What a rounding to nearest does to a non-negative number. *)
Lemma rounded_between (fl : R -> R) (u : R) :
  rounds_to_nearest fl -> 0 <= u ->
  u - u / 10000000 <= fl u <= u + u / 10000000.
Proof.
  intros Hfl Hu. specialize (Hfl u).
  rewrite (Rabs_pos_eq u Hu) in Hfl.
  assert (He := eps32_small).
  assert (Hb : eps32 * u <= 1 / 10000000 * u).
  { apply Rmult_le_compat_r; assumption. }
  unfold Rabs in Hfl. destruct (Rcase_abs (fl u - u)); lra.
Qed.

(** The samples decoded on the linear segment. *)
Lemma pixel_low (fl : R -> R) (k : Z) :
  rounds_to_nearest fl -> (0 <= k <= 10)%Z ->
  Rabs (gamma_forward (fl (gamma_reverse (IZR k / 255))) * 255 - IZR k) < 1 / 2.
Proof.
  intros Hfl [Hk0 Hk1].
  apply IZR_le in Hk0. apply IZR_le in Hk1.
  rewrite gamma_reverse_low by lra.
  assert (Hu : 0 <= IZR k / 255 / 12.92) by lra.
  destruct (rounded_between fl _ Hfl Hu) as [Hlo Hhi].
  rewrite gamma_forward_low by lra.
  apply Rabs_def1; lra.
Qed.

(** The samples decoded on the power segment. *)
Lemma pixel_high (fl : R -> R) (k : Z) :
  rounds_to_nearest fl -> (11 <= k <= 255)%Z ->
  Rabs (gamma_forward (fl (gamma_reverse (IZR k / 255))) * 255 - IZR k) < 1 / 2.
Proof.
  intros Hfl [Hk0 Hk1].
  apply IZR_le in Hk0. apply IZR_le in Hk1.
  rewrite gamma_reverse_high by lra.
  set (t := (IZR k / 255 + 0.055) / 1.055).
  assert (Ht : (11 / 255 + 0.055) / 1.055 <= t <= 1) by (unfold t; lra).
  assert (Ht0 : 0 < t) by lra.
  assert (Hu : 0.0033 < fpow t 2.4).
  { apply fpow_decode_gt; [lra | lra |].
    apply Rlt_le_trans with (((11 / 255 + 0.055) / 1.055) ^ 12); [lra|].
    apply pow_incr. lra. }
  set (u := fpow t 2.4) in *.
  assert (Hu0 : 0 <= u) by lra.
  destruct (rounded_between fl u Hfl Hu0) as [Hlo Hhi].
  rewrite gamma_forward_high by lra.
  assert (Hroot : fpow u (1 / 2.4) = t) by (apply fpow_encode_decode; exact Ht0).
  assert (Hup : fpow (fl u) (1 / 2.4) <= t * (1 + 1 / 10000000)).
  { apply Rle_trans with (fpow (u * (1 + 1 / 10000000)) (1 / 2.4)).
    - apply fpow_mono; lra.
    - rewrite fpow_mul by lra. rewrite Hroot.
      apply Rmult_le_compat_l; [lra|]. apply fpow_le_base; lra. }
  assert (Hdn : t * (1 - 1 / 10000000) <= fpow (fl u) (1 / 2.4)).
  { apply Rle_trans with (fpow (u * (1 - 1 / 10000000)) (1 / 2.4)).
    - rewrite fpow_mul by lra. rewrite Hroot.
      apply Rmult_le_compat_l; [lra|]. apply fpow_ge_base; lra.
    - apply fpow_mono; [lra | nra | lra]. }
  assert (Hk : IZR k = (1.055 * t - 0.055) * 255) by (unfold t; lra).
  apply Rabs_def1; lra.
Qed.

(** Decoding an 8-bit sample, rounding it to single precision and encoding
    it again gives the sample back. *)
Lemma pixel_roundtrip (fl : R -> R) (k : Z) :
  rounds_to_nearest fl -> (0 <= k <= 255)%Z ->
  to_uint8 (clip 0 255 (rint (gamma_forward (fl (gamma_reverse (IZR k / 255))) * 255))) = k.
Proof.
  intros Hfl Hk.
  assert (H : Rabs (gamma_forward (fl (gamma_reverse (IZR k / 255))) * 255 - IZR k) < 1 / 2).
  { destruct (Z_le_gt_dec k 10); [apply pixel_low | apply pixel_high]; auto; lia. }
  rewrite (rint_near _ _ H). now apply clip_uint8_id.
Qed.

End PixelFacts.

Section ImageClaims.

Import Image.
Local Open Scope R_scope.

(** The samples that come back from a load followed by a save. *)
Lemma save_load_elt (fl : R -> R) (img : ndarray Z) (i j k : nat) :
  elt (to_pil_image (load_image fl img)) i j k =
  to_uint8 (clip 0 255
    (rint (gamma_forward (fl (gamma_reverse (IZR (elt img i j k) / 255))) * 255))).
Proof. reflexivity. Qed.

(** Over the reals and one rounding to single precision the round trip is
    exact on every in-range sample. *)
Lemma save_load_exact (fl : R -> R) (img : ndarray Z) :
  rounds_to_nearest fl -> valid_8bit img ->
  forall i j k, (i < dim0 img)%nat -> (j < dim1 img)%nat -> (k < dim2 img)%nat ->
    elt (to_pil_image (load_image fl img)) i j k = elt img i j k.
Proof.
  intros Hfl Hv i j k Hi Hj Hk.
  rewrite save_load_elt. apply pixel_roundtrip; auto.
Qed.

(** C7 (color round-trip): for every 8-bit RGB image, loaded at its own
    size, saving the loaded array gives an image of the same height, width
    and channel count whose samples differ from the original ones by at most
    one level; the conversion to single precision is any rounding to
    nearest. *)
Theorem color_roundtrip (fl : R -> R) (img : ndarray Z) :
  rounds_to_nearest fl -> valid_8bit img ->
  dim0 (to_pil_image (load_image fl img)) = dim0 img /\
  dim1 (to_pil_image (load_image fl img)) = dim1 img /\
  dim2 (to_pil_image (load_image fl img)) = dim2 img /\
  forall i j k, (i < dim0 img)%nat -> (j < dim1 img)%nat -> (k < dim2 img)%nat ->
    (Z.abs (elt (to_pil_image (load_image fl img)) i j k - elt img i j k) <= 1)%Z.
Proof.
  intros Hfl Hv. repeat split; try reflexivity.
  intros i j k Hi Hj Hk.
  rewrite (save_load_exact fl img Hfl Hv i j k Hi Hj Hk). lia.
Qed.

Lemma exact_rounding_is_nearest : rounds_to_nearest (fun x => x).
Proof.
  intros x. unfold eps32. rewrite Rminus_diag, Rabs_R0.
  apply Rmult_le_pos; [lra | apply Rabs_pos].
Qed.

Lemma sample_image_valid : valid_8bit Samples.image.
Proof.
  intros i j k _ _ Hk. simpl in *.
  destruct k as [|[|k]]; lia.
Qed.

Lemma color_roundtrip_witness :
  (Z.abs (elt (to_pil_image (load_image (fun x => x) Samples.image)) 0 0 2
          - elt Samples.image 0 0 2) <= 1)%Z.
Proof.
  apply (color_roundtrip (fun x => x) Samples.image
           exact_rounding_is_nearest sample_image_valid); simpl; lia.
Defined.




End ImageClaims.

(* ================================================================== *)
(** * Indexing *)
(* ================================================================== *)

Section TensorFacts.

Import Tensor.

Lemma div_mul_add (i m r : nat) : r < m -> (i * m + r) / m = i.
Proof.
  intros H. rewrite Nat.div_add_l by lia. rewrite Nat.div_small by exact H. lia.
Qed.

Lemma mod_mul_add (i m r : nat) : r < m -> (i * m + r) mod m = r.
Proof.
  intros H. rewrite Nat.add_comm, Nat.Div0.mod_add. now apply Nat.mod_small.
Qed.

Lemma ravel_lt (s idx : list nat) : in_bounds s idx -> ravel s idx < size s.
Proof.
  unfold in_bounds. intros H. induction H as [| i n idx s Hi _ IH]; simpl.
  - lia.
  - nia.
Qed.

Lemma unravel_ravel (s idx : list nat) :
  in_bounds s idx -> unravel s (ravel s idx) = idx.
Proof.
  unfold in_bounds. intros H. induction H as [| i n idx s Hi Hrest IH]; simpl.
  - reflexivity.
  - assert (Hr := ravel_lt s idx Hrest).
    rewrite div_mul_add, mod_mul_add, IH by exact Hr. reflexivity.
Qed.

Lemma ravel_unravel (s : list nat) (p : nat) :
  p < size s -> ravel s (unravel s p) = p.
Proof.
  revert p. induction s as [| n s IH]; intros p Hp; simpl in *.
  - lia.
  - assert (Hs : size s <> 0) by (intros E; rewrite E in Hp; lia).
    rewrite IH by (apply Nat.mod_upper_bound; exact Hs).
    rewrite (Nat.div_mod_eq p (size s)) at 3. lia.
Qed.

Lemma unravel_in_bounds (s : list nat) (p : nat) :
  p < size s -> in_bounds s (unravel s p).
Proof.
  unfold in_bounds. revert p. induction s as [| n s IH]; intros p Hp; simpl in *.
  - constructor.
  - assert (Hs : size s <> 0) by (intros E; rewrite E in Hp; lia).
    constructor.
    + apply Nat.Div0.div_lt_upper_bound. lia.
    + apply IH. apply Nat.mod_upper_bound. exact Hs.
Qed.

Lemma in_bounds_length (s idx : list nat) : in_bounds s idx -> length idx = length s.
Proof. unfold in_bounds. intros H. induction H; simpl; congruence. Qed.

Lemma build_shape s f : shape (build s f) = s.
Proof. reflexivity. Qed.

Lemma build_well_formed s f : well_formed (build s f).
Proof. unfold well_formed, build. simpl. now rewrite length_map, length_seq. Qed.

Lemma of_fun_well_formed s f : well_formed (of_fun s f).
Proof. unfold well_formed, of_fun. simpl. now rewrite length_map, length_seq. Qed.

Lemma tmap_well_formed f t : well_formed t -> well_formed (tmap f t).
Proof. unfold well_formed, tmap. simpl. now rewrite length_map. Qed.

Lemma nth_map_seq (f : nat -> R) (n p : nat) :
  p < n -> nth p (map f (seq 0 n)) 0%R = f p.
Proof.
  intros Hp. rewrite (nth_indep _ 0%R (f 0)) by now rewrite length_map, length_seq.
  rewrite map_nth, seq_nth by exact Hp. reflexivity.
Qed.

Lemma flat_build s f p : p < size s -> flat (build s f) p = f (unravel s p).
Proof. intros Hp. unfold flat, build. simpl. now rewrite nth_map_seq. Qed.

Lemma flat_of_fun s f p : p < size s -> flat (of_fun s f) p = f p.
Proof. intros Hp. unfold flat, of_fun. simpl. now rewrite nth_map_seq. Qed.

(** Reading a built array gives back the defining function. *)
Lemma get_build s f idx : in_bounds s idx -> get (build s f) idx = f idx.
Proof.
  intros H. unfold get. rewrite build_shape, flat_build by now apply ravel_lt.
  now rewrite unravel_ravel.
Qed.

Lemma get_of_fun s f idx : in_bounds s idx -> get (of_fun s f) idx = f (ravel s idx).
Proof. intros H. unfold get. simpl. apply flat_of_fun. now apply ravel_lt. Qed.

Lemma get_tmap f t idx :
  well_formed t -> in_bounds (shape t) idx -> get (tmap f t) idx = f (get t idx).
Proof.
  intros Hwf H. unfold get, flat, tmap. simpl.
  rewrite (nth_indep _ 0%R (f 0%R)).
  - apply map_nth.
  - rewrite length_map, Hwf. now apply ravel_lt.
Qed.

(** Two arrays of the same shape with the same elements are equal. *)
Lemma tensor_ext (t1 t2 : tensor) :
  well_formed t1 -> well_formed t2 -> shape t1 = shape t2 ->
  (forall idx, in_bounds (shape t1) idx -> get t1 idx = get t2 idx) ->
  t1 = t2.
Proof.
  destruct t1 as [s1 d1], t2 as [s2 d2]. unfold well_formed, get, flat. simpl.
  intros H1 H2 Hs H. subst s2. f_equal.
  apply (nth_ext _ _ 0%R 0%R); [congruence|].
  intros p Hp. rewrite H1 in Hp.
  specialize (H (unravel s1 p) (unravel_in_bounds s1 p Hp)).
  now rewrite ravel_unravel in H.
Qed.

Lemma build_ext s f g :
  (forall idx, in_bounds s idx -> f idx = g idx) -> build s f = build s g.
Proof.
  intros H. unfold build. f_equal. apply map_ext_in.
  intros p Hp. apply in_seq in Hp. apply H. apply unravel_in_bounds. lia.
Qed.

Lemma sum_n_ext n f g : (forall i, i < n -> f i = g i) -> sum_n n f = sum_n n g.
Proof.
  intros H. unfold sum_n. f_equal. apply map_ext_in.
  intros i Hi. apply in_seq in Hi. apply H. lia.
Qed.

Lemma sum_n_S n f : sum_n (S n) f = (sum_n n f + f n)%R.
Proof.
  unfold sum_n. rewrite seq_S, map_app, fold_right_app. simpl.
  generalize (map f (seq 0 n)). intros l. induction l as [| a l IH]; simpl.
  - lra.
  - rewrite IH. lra.
Qed.

Lemma sum_n_0 f : sum_n 0 f = 0%R.
Proof. reflexivity. Qed.

Lemma sum_n_nonneg n f : (forall i, i < n -> (0 <= f i)%R) -> (0 <= sum_n n f)%R.
Proof.
  induction n as [| n IH]; intros H.
  - rewrite sum_n_0. lra.
  - rewrite sum_n_S. assert (0 <= f n)%R by (apply H; lia).
    assert (0 <= sum_n n f)%R by (apply IH; intros; apply H; lia). lra.
Qed.


Lemma sum_n_zero n f : (forall i, i < n -> f i = 0%R) -> sum_n n f = 0%R.
Proof.
  induction n as [| n IH]; intros H.
  - reflexivity.
  - rewrite sum_n_S, IH, H by (intros; auto). lra.
Qed.

(** In-bounds indices of the ranks the generator uses. *)
Lemma in_bounds_1 n i : in_bounds [n] [i] <-> i < n.
Proof.
  unfold in_bounds. split.
  - intros H. inversion H; subst. assumption.
  - intros H. repeat constructor; assumption.
Qed.

Lemma in_bounds_cons n s i idx :
  in_bounds (n :: s) (i :: idx) <-> i < n /\ in_bounds s idx.
Proof.
  unfold in_bounds. split.
  - intros H. inversion H; subst. auto.
  - intros [H1 H2]. constructor; assumption.
Qed.

Lemma in_bounds_nil : in_bounds [] [].
Proof. constructor. Qed.

Lemma in_bounds_inv_cons n s idx :
  in_bounds (n :: s) idx -> exists i idx', idx = i :: idx' /\ i < n /\ in_bounds s idx'.
Proof. unfold in_bounds. intros H. inversion H; subst. eauto. Qed.

Lemma in_bounds_inv_nil idx : in_bounds [] idx -> idx = [].
Proof. unfold in_bounds. intros H. inversion H. reflexivity. Qed.

End TensorFacts.

(* ================================================================== *)
(** * The array operations, element by element *)
(* ================================================================== *)

Section OperationFacts.

Import Tensor.

Lemma reshape_some (t : tensor) (s : list nat) :
  size s = size (shape t) -> reshape t s = Some (mk_tensor s (data t)).
Proof. intros H. unfold reshape. now rewrite H, Nat.eqb_refl. Qed.

Lemma reshape_inv (t t' : tensor) (s : list nat) :
  reshape t s = Some t' -> t' = mk_tensor s (data t) /\ size s = size (shape t).
Proof.
  unfold reshape. destruct (size s =? size (shape t)) eqn:E; [|discriminate].
  intros H. inversion H. split; [reflexivity | now apply Nat.eqb_eq].
Qed.

(** A reshaped array holds at [idx] what the source holds at the index
    with the same flat position. *)
Lemma get_reshaped (t : tensor) (s idx idx' : list nat) :
  ravel s idx = ravel (shape t) idx' ->
  get (mk_tensor s (data t)) idx = get t idx'.
Proof. intros H. unfold get, flat. simpl. now rewrite H. Qed.

Lemma reshaped_well_formed (t : tensor) (s : list nat) :
  well_formed t -> size s = size (shape t) -> well_formed (mk_tensor s (data t)).
Proof. unfold well_formed. simpl. congruence. Qed.

Lemma bdim_same (a : nat) : bdim a a = Some a.
Proof. unfold bdim. now rewrite Nat.eqb_refl. Qed.

Lemma bdim_one_r (a : nat) : bdim a 1 = Some a.
Proof.
  unfold bdim. destruct (a =? 1) eqn:E.
  - reflexivity.
  - reflexivity.
Qed.

Lemma bdim_one_l (b : nat) : bdim 1 b = Some b.
Proof.
  unfold bdim. destruct (1 =? b) eqn:E.
  - apply Nat.eqb_eq in E. now subst.
  - reflexivity.
Qed.

(** An in-range index survives the pinning of axes of extent one. *)
Lemma pin_in_range (d i : nat) : i < d -> (if d =? 1 then 0 else i) = i.
Proof. intros H. destruct (d =? 1) eqn:E; [apply Nat.eqb_eq in E; lia | reflexivity]. Qed.

Lemma broadcast2_some (f : R -> R -> R) (a b : tensor) (s : list nat) :
  broadcast_shapes (shape a) (shape b) = Some s ->
  broadcast2 f a b =
    Some (build s (fun idx =>
      f (get a (bindex (shape a) idx)) (get b (bindex (shape b) idx)))).
Proof. intros H. unfold broadcast2. now rewrite H. Qed.

Lemma shape_eqb_refl (s : list nat) : shape_eqb s s = true.
Proof. unfold shape_eqb. destruct (list_eq_dec Nat.eq_dec s s); congruence. Qed.

Lemma shape_eqb_eq (s1 s2 : list nat) : shape_eqb s1 s2 = true -> s1 = s2.
Proof. unfold shape_eqb. destruct (list_eq_dec Nat.eq_dec s1 s2); congruence. Qed.

Lemma build_eq s1 s2 f g :
  s1 = s2 -> (forall idx, in_bounds s2 idx -> f idx = g idx) ->
  build s1 f = build s2 g.
Proof. intros -> H. now apply build_ext. Qed.

End OperationFacts.

Ltac inb :=
  repeat (apply in_bounds_cons; split);
  try apply in_bounds_nil; try lia; try nia.

Ltac inb_inv H :=
  repeat (let i := fresh "i" in let r := fresh "idx" in
          let Hi := fresh "Hi" in let Hr := fresh "Hr" in
          apply in_bounds_inv_cons in H as (i & r & -> & Hi & H));
  apply in_bounds_inv_nil in H; subst.

Section ChainerFacts.

Import Tensor.

(** Edge padding of the two spatial axes of a four-axis array. *)
Lemma pad_spatial (t : tensor) (n c h w p : nat) :
  shape t = [n; c; h; w] -> 0 < h -> 0 < w ->
  F.pad t [(0, 0); (0, 0); (p, p); (p, p)] =
    Some (build [n; c; h + 2 * p; w + 2 * p] (fun idx =>
      match idx with
      | [a; b; i; j] => get t [a; b; Nat.min (i - p) (h - 1); Nat.min (j - p) (w - 1)]
      | _ => 0%R
      end)).
Proof.
  intros Hs Hh Hw. unfold F.pad. rewrite Hs. simpl.
  replace (h =? 0) with false by (symmetry; apply Nat.eqb_neq; lia).
  replace (w =? 0) with false by (symmetry; apply Nat.eqb_neq; lia).
  rewrite !andb_false_r. cbn [orb andb].
  f_equal. apply build_eq.
  - repeat (f_equal; try lia).
  - intros idx H. inb_inv H. cbn [combine map fst snd].
    repeat (f_equal; try lia).
Qed.

(** The grouped convolution with one group per sample. *)
Lemma grouped_convolution (x W : tensor) (B Cin O H' W' K : nat) :
  shape x = [1; B * Cin; H'; W'] -> shape W = [B * O; Cin; K; K] ->
  0 < B -> K <= H' -> K <= W' ->
  F.convolution_2d x W B =
    Some (build [1; B * O; H' - K + 1; W' - K + 1] (fun idx =>
      match idx with
      | [a; oc; i; j] =>
          sum_n Cin (fun ci => sum_n K (fun u => sum_n K (fun v =>
            Rmult (get x [a; oc / O * Cin + ci; i + u; j + v])
                  (get W [oc; ci; u; v]))))
      | _ => 0%R
      end)).
Proof.
  intros Hx HW HB HH HWd. unfold F.convolution_2d. rewrite Hx, HW.
  replace (0 <? B) with true by (symmetry; apply Nat.ltb_lt; lia).
  replace (B * Cin =? Cin * B) with true by (symmetry; apply Nat.eqb_eq; lia).
  replace ((B * O) mod B =? 0) with true
    by (symmetry; apply Nat.eqb_eq; rewrite Nat.mul_comm; apply Nat.Div0.mod_mul).
  replace (K <=? H') with true by (symmetry; apply Nat.leb_le; lia).
  replace (K <=? W') with true by (symmetry; apply Nat.leb_le; lia).
  cbn [andb]. f_equal.
  replace (B * O / B) with O by (rewrite Nat.mul_comm, Nat.div_mul; lia).
  reflexivity.
Qed.

(** [sum(axis=(2,3,4), keepdims=True)] of the squares. *)
Lemma sum_of_squares (t : tensor) (B O C K : nat) :
  shape t = [B; O; C; K; K] -> well_formed t ->
  F.sum (F.square t) =
    Some (build [B; O; 1; 1; 1] (fun idx =>
      match idx with
      | i :: j :: _ =>
          sum_n C (fun ci => sum_n K (fun u => sum_n K (fun v =>
            (get t [i; j; ci; u; v] ^ 2)%R)))
      | _ => 0%R
      end)).
Proof.
  intros Hs Hwf. unfold F.sum, F.square. cbn [shape tmap]. rewrite Hs.
  f_equal. apply build_ext. intros idx H. inb_inv H.
  apply sum_n_ext; intros ci Hci. apply sum_n_ext; intros u Hu.
  apply sum_n_ext; intros v Hv.
  apply get_tmap; [exact Hwf|]. rewrite Hs. inb.
Qed.

Lemma get_sqrt_add_scalar (eps : R) (t : tensor) (idx : list nat) :
  well_formed t -> in_bounds (shape t) idx ->
  get (F.sqrt (F.add_scalar eps t)) idx = sqrt (get t idx + eps).
Proof.
  intros Hwf H. unfold F.sqrt, F.add_scalar.
  rewrite get_tmap; [| now apply tmap_well_formed | exact H].
  now rewrite get_tmap.
Qed.

(** The demodulation step, element by element. *)
Lemma demodulate_elements (eps : R) (t : tensor) (B O C K : nat) :
  shape t = [B; O; C; K; K] -> well_formed t ->
  WeightDemodulatedConvolution2D.demodulate eps t =
    Some (build [B; O; C; K; K] (fun idx =>
      match idx with
      | [b; o; ci; u; v] =>
          (get t [b; o; ci; u; v]
           / sqrt (sum_n C (fun ci' => sum_n K (fun u' => sum_n K (fun v' =>
                     get t [b; o; ci'; u'; v'] ^ 2))) + eps))%R
      | _ => 0%R
      end)).
Proof.
  intros Hs Hwf. unfold WeightDemodulatedConvolution2D.demodulate.
  rewrite (sum_of_squares t B O C K Hs Hwf).
  unfold div. erewrite broadcast2_some.
  2:{ rewrite Hs. unfold broadcast_shapes. cbn [F.sqrt F.add_scalar tmap shape build rev app bshape_rev].
      rewrite !bdim_one_r, !bdim_same. reflexivity. }
  f_equal. apply build_ext. intros idx H. inb_inv H.
  rewrite Hs. cbn [F.sqrt F.add_scalar tmap shape build].
  unfold bindex. cbn [length Nat.sub skipn bclamp Nat.eqb].
  rewrite !pin_in_range by assumption.
  f_equal.
  change (tmap R_sqrt.sqrt (tmap (fun v : R => (v + eps)%R) ?x)) with (F.sqrt (F.add_scalar eps x)).
  rewrite get_sqrt_add_scalar; [| apply build_well_formed | rewrite build_shape; inb].
  rewrite get_build by inb. reflexivity.
Qed.

End ChainerFacts.

Section ModulatedConvolutionFacts.

Import Tensor.

Lemma modulate_some (self : WDC.t) (y : tensor) (B Cin Cout : nat) :
  shape (WDC.w self) = [Cout; Cin; WDC.ksize self; WDC.ksize self] ->
  shape y = [B; Cin] ->
  mul (WDC.w self) (mk_tensor [B; 1; Cin; 1; 1] (data y)) =
    Some (build [B; Cout; Cin; WDC.ksize self; WDC.ksize self] (fun idx =>
      match idx with
      | [b; o; ci; u; v] => Rmult (get (WDC.w self) [o; ci; u; v]) (get y [b; ci])
      | _ => 0%R
      end)).
Proof.
  intros Hw Hy. unfold mul. erewrite broadcast2_some.
  2:{ rewrite Hw. unfold broadcast_shapes. cbn [shape rev app bshape_rev].
      rewrite !bdim_one_r, !bdim_same. reflexivity. }
  f_equal. apply build_ext. intros idx H. inb_inv H.
  rewrite Hw. cbn [shape]. unfold bindex.
  cbn [length Nat.sub skipn bclamp Nat.eqb].
  rewrite !pin_in_range by assumption.
  f_equal. apply get_reshaped. rewrite Hy. cbn [ravel size fold_right]. lia.
Qed.

(** The weights the convolution runs with are, sample by sample, the
    modulated and demodulated weights of that sample. *)
Lemma effective_weights (self : WDC.t) (y : tensor) (B Cin Cout : nat) :
  shape (WDC.w self) = [Cout; Cin; WDC.ksize self; WDC.ksize self] ->
  shape y = [B; Cin] ->
  forall mod_w,
  mul (WDC.w self) (mk_tensor [B; 1; Cin; 1; 1] (data y)) = Some mod_w ->
  (if WDC.demod self then WDC.demodulate WDC.epsilon mod_w else Some mod_w) =
    Some (build [B; Cout; Cin; WDC.ksize self; WDC.ksize self] (fun idx =>
      match idx with
      | [b; o; ci; u; v] =>
          PerSample.weight self Cin (fun ci' => get y [b; ci']) o ci u v
      | _ => 0%R
      end)).
Proof.
  intros Hw Hy mod_w Hm.
  rewrite (modulate_some self y B Cin Cout Hw Hy) in Hm.
  injection Hm as <-.
  unfold PerSample.weight. destruct (WDC.demod self).
  - erewrite demodulate_elements; [| apply build_shape | apply build_well_formed].
    f_equal. apply build_ext. intros idx H. inb_inv H.
    unfold PerSample.demodulated, PerSample.energy, PerSample.modulated.
    rewrite get_build by inb. f_equal. f_equal. f_equal.
    apply sum_n_ext; intros ci Hci. apply sum_n_ext; intros u Hu.
    apply sum_n_ext; intros v Hv. now rewrite get_build by inb.
  - f_equal.
Qed.

(** The layer computes, for every sample, the modulated convolution of
    that sample alone. *)
Lemma call_per_sample (self : WDC.t) (x y : tensor) (B Cin Cout H W : nat) :
  PerSample.layer_shapes self Cin Cout ->
  shape x = [B; Cin; H; W] -> shape y = [B; Cin] ->
  0 < B -> 0 < H -> 0 < W ->
  WDC.call self x y =
    Some (build [B; Cout; H; W] (fun idx =>
      match idx with
      | [b; o; i; j] =>
          PerSample.conv self Cin H W
            (fun ci i' j' => get x [b; ci; i'; j']) (fun ci => get y [b; ci])
            o i j
      | _ => 0%R
      end)).
Proof.
  intros (Hw & Hb & Hk) Hx Hy HB HH HW.
  unfold WDC.call. rewrite Hb, Hx.
  rewrite (reshape_some y [B; 1; Cin; 1; 1])
    by (rewrite Hy; cbn [size fold_right]; lia).
  rewrite (modulate_some self y B Cin Cout Hw Hy).
  rewrite (effective_weights self y B Cin Cout Hw Hy _
             (modulate_some self y B Cin Cout Hw Hy)).
  set (K := WDC.ksize self) in *. set (p := WDC.pad self) in *.
  set (wt := build [B; Cout; Cin; K; K] _).
  rewrite (reshape_some wt [B * Cout; Cin; K; K])
    by (cbn [wt build shape size fold_right]; lia).
  rewrite (reshape_some x [1; B * Cin; H; W])
    by (rewrite Hx; cbn [size fold_right]; lia).
  set (group_w := mk_tensor [B * Cout; Cin; K; K] (data wt)).
  set (group_x := mk_tensor [1; B * Cin; H; W] (data x)).
  rewrite (pad_spatial group_x 1 (B * Cin) H W p eq_refl HH HW).
  set (padded := build [1; B * Cin; H + 2 * p; W + 2 * p] _).
  rewrite (grouped_convolution padded group_w B Cin Cout (H + 2 * p) (W + 2 * p) K
             eq_refl eq_refl HB) by lia.
  replace (H + 2 * p - K + 1) with H by lia.
  replace (W + 2 * p - K + 1) with W by lia.
  set (h := build [1; B * Cout; H; W] _).
  rewrite (reshape_some h [B; Cout; H; W])
    by (cbn [h build shape size fold_right]; lia).
  rewrite (reshape_some (WDC.b self) [1; Cout; 1; 1])
    by (rewrite Hb; cbn [size fold_right]; lia).
  unfold add. erewrite broadcast2_some.
  2:{ unfold broadcast_shapes. cbn [shape rev app bshape_rev].
      rewrite !bdim_one_r, !bdim_same. reflexivity. }
  f_equal. apply build_ext. intros idx Hidx. inb_inv Hidx.
  rename i into b, i0 into o, i1 into i, i2 into j.
  cbn [shape]. unfold bindex. cbn [length Nat.sub skipn bclamp Nat.eqb].
  rewrite !pin_in_range by assumption.
  unfold PerSample.conv, PerSample.conv_with, PerSample.padded.
  fold K. fold p.
  f_equal.
  - rewrite (get_reshaped h [B; Cout; H; W] [b; o; i; j] [0; b * Cout + o; i; j])
      by (cbn [h build shape ravel size fold_right]; lia).
    unfold h. rewrite get_build by inb.
    rewrite div_mul_add by assumption.
    apply sum_n_ext; intros ci Hci. apply sum_n_ext; intros u Hu.
    apply sum_n_ext; intros v Hv.
    f_equal.
    + unfold padded. rewrite get_build by inb.
      apply get_reshaped. rewrite Hx. cbn [ravel size fold_right]. lia.
    + unfold group_w.
      rewrite (get_reshaped wt [B * Cout; Cin; K; K]
                 [b * Cout + o; ci; u; v] [b; o; ci; u; v])
        by (cbn [wt build shape ravel size fold_right]; lia).
      unfold wt. rewrite get_build by inb. reflexivity.
  - apply get_reshaped. rewrite Hb. cbn [ravel size fold_right]. lia.
Qed.

End ModulatedConvolutionFacts.

Section DemodulationFacts.

Import Tensor.

Lemma init_layer_shapes (in_channels out_channels : nat) (pointwise demod : bool)
  (gain : R) (wf bf : nat -> R) :
  PerSample.layer_shapes
    (WDC.init in_channels out_channels pointwise demod gain wf bf)
    in_channels out_channels.
Proof. unfold PerSample.layer_shapes. destruct pointwise; simpl; auto. Qed.


Lemma sum3_nonneg (C K : nat) (f : nat -> nat -> nat -> R) :
  (forall ci u v, 0 <= f ci u v)%R ->
  (0 <= sum_n C (fun ci => sum_n K (fun u => sum_n K (fun v => f ci u v))))%R.
Proof.
  intros H. apply sum_n_nonneg; intros ci _.
  apply sum_n_nonneg; intros u _. apply sum_n_nonneg; intros v _. apply H.
Qed.

Lemma energy_nonneg (self : WDC.t) (Cin : nat) (ys : nat -> R) (o : nat) :
  (0 <= PerSample.energy self Cin ys o)%R.
Proof. unfold PerSample.energy. apply sum3_nonneg. intros. apply pow2_ge_0. Qed.


(** The demodulation step of the layer, for any additive constant. *)
Lemma demodulated_weights (self : WDC.t) (y : tensor) (B Cin Cout : nat) (eps : R) :
  shape (WDC.w self) = [Cout; Cin; WDC.ksize self; WDC.ksize self] ->
  shape y = [B; Cin] ->
  exists mod_w,
    mul (WDC.w self) (mk_tensor [B; 1; Cin; 1; 1] (data y)) = Some mod_w /\
    WDC.demodulate eps mod_w =
      Some (build [B; Cout; Cin; WDC.ksize self; WDC.ksize self] (fun idx =>
        match idx with
        | [b; o; ci; u; v] =>
            PerSample.demodulated self Cin (fun ci' => get y [b; ci']) eps o ci u v
        | _ => 0%R
        end)).
Proof.
  intros Hw Hy. eexists. split; [apply (modulate_some self y B Cin Cout Hw Hy)|].
  erewrite demodulate_elements; [| apply build_shape | apply build_well_formed].
  f_equal. apply build_ext. intros idx H. inb_inv H.
  unfold PerSample.demodulated, PerSample.energy, PerSample.modulated.
  rewrite get_build by inb. f_equal. f_equal. f_equal.
  apply sum_n_ext; intros ci Hci. apply sum_n_ext; intros u Hu.
  apply sum_n_ext; intros v Hv. now rewrite get_build by inb.
Qed.



End DemodulationFacts.

Section DemodulationClaims.

Import Tensor.



(** C6 (demodulation is always defined): for every modulation vector the
    demodulation step returns the modulated weights divided, element by
    element, by the divisor [sqrt(sum(mod_w ** 2) + 1e-8)] of their sample
    and output channel, and that divisor is strictly positive: the quotient
    times the divisor is the modulated weight again.  When the modulation
    vector is entirely zero the divisor is [1e-4] and the demodulated
    weights are zero. *)
Theorem demodulation_divisor_positive (self : WDC.t) (y : tensor) (B Cin Cout : nat) :
  shape (WDC.w self) = [Cout; Cin; WDC.ksize self; WDC.ksize self] ->
  shape y = [B; Cin] ->
  exists y5 mod_w energy w',
    reshape y [B; 1; Cin; 1; 1] = Some y5 /\
    mul (WDC.w self) y5 = Some mod_w /\
    F.sum (F.square mod_w) = Some energy /\
    WDC.demodulate WDC.epsilon mod_w = Some w' /\
    div mod_w (F.sqrt (F.add_scalar WDC.epsilon energy)) = Some w' /\
    (forall b o, b < B -> o < Cout ->
       (0 < get (F.sqrt (F.add_scalar WDC.epsilon energy)) [b; o; O; O; O])%R) /\
    (forall b o ci u v, b < B -> o < Cout ->
       ci < Cin -> u < WDC.ksize self -> v < WDC.ksize self ->
       get w' [b; o; ci; u; v]
       = (get mod_w [b; o; ci; u; v]
          / get (F.sqrt (F.add_scalar WDC.epsilon energy)) [b; o; O; O; O])%R /\
       (get w' [b; o; ci; u; v]
        * get (F.sqrt (F.add_scalar WDC.epsilon energy)) [b; o; O; O; O])%R
       = get mod_w [b; o; ci; u; v]) /\
    ((forall b ci, b < B -> ci < Cin -> get y [b; ci] = 0%R) ->
     forall b o, b < B -> o < Cout ->
       get (F.sqrt (F.add_scalar WDC.epsilon energy)) [b; o; 0; 0; 0]
         = (1 / 10 ^ 4)%R /\
       forall ci u v, ci < Cin -> u < WDC.ksize self -> v < WDC.ksize self ->
         get w' [b; o; ci; u; v] = 0%R).
Proof.
  intros Hw Hy.
  destruct (demodulated_weights self y B Cin Cout WDC.epsilon Hw Hy)
    as (mod_w & Hm & Hd).
  assert (Hmod : mod_w = build [B; Cout; Cin; WDC.ksize self; WDC.ksize self]
            (fun idx => match idx with
               | [b; o; ci; u; v] =>
                   Rmult (get (WDC.w self) [o; ci; u; v]) (get y [b; ci])
               | _ => 0%R end)).
  { rewrite (modulate_some self y B Cin Cout Hw Hy) in Hm. congruence. }
  assert (Hsum := sum_of_squares mod_w B Cout Cin (WDC.ksize self)).
  assert (Hsh : shape mod_w = [B; Cout; Cin; WDC.ksize self; WDC.ksize self])
    by (rewrite Hmod; apply build_shape).
  assert (Hwf : well_formed mod_w) by (rewrite Hmod; apply build_well_formed).
  specialize (Hsum Hsh Hwf).
  exists (mk_tensor [B; 1; Cin; 1; 1] (data y)), mod_w. do 2 eexists.
  split; [apply reshape_some; rewrite Hy; cbn [size fold_right]; lia|].
  split; [exact Hm|].
  split; [exact Hsum|].
  split; [exact Hd|].
  split.
  { assert (Hd' := Hd). unfold WDC.demodulate in Hd'.
    rewrite Hsum in Hd'. exact Hd'. }
  assert (Hdiv : forall b o, b < B -> o < Cout ->
    get (F.sqrt (F.add_scalar WDC.epsilon
      (build [B; Cout; 1; 1; 1] (fun idx =>
         match idx with
         | i :: j :: _ =>
             sum_n Cin (fun ci => sum_n (WDC.ksize self) (fun u =>
               sum_n (WDC.ksize self) (fun v =>
                 (get mod_w [i; j; ci; u; v] ^ 2)%R)))
         | _ => 0%R
         end)))) [b; o; 0; 0; 0]
    = sqrt (PerSample.energy self Cin (fun ci => get y [b; ci]) o + WDC.epsilon)).
  { intros b o Hb Ho.
    rewrite get_sqrt_add_scalar; [| apply build_well_formed | rewrite build_shape; inb].
    rewrite get_build by inb. f_equal. f_equal.
    unfold PerSample.energy, PerSample.modulated.
    apply sum_n_ext; intros ci Hci. apply sum_n_ext; intros u Hu.
    apply sum_n_ext; intros v Hv. rewrite Hmod. now rewrite get_build by inb. }
  assert (Heps : (0 < WDC.epsilon)%R).
  { unfold WDC.epsilon. apply Rdiv_lt_0_compat; [lra | apply pow_lt; lra]. }
  assert (Hpos : forall b o, b < B -> o < Cout ->
    (0 < sqrt (PerSample.energy self Cin (fun ci => get y [b; ci]) o + WDC.epsilon))%R).
  { intros b o Hb Ho. apply sqrt_lt_R0.
    assert (H := energy_nonneg self Cin (fun ci => get y [b; ci]) o). lra. }
  split; [| split].
  - intros b o Hb Ho. rewrite (Hdiv b o Hb Ho). now apply Hpos.
  - intros b o ci u v Hb Ho Hci Hu Hv.
    rewrite (Hdiv b o Hb Ho).
    assert (Hp := Hpos b o Hb Ho).
    assert (Hq : get (build [B; Cout; Cin; WDC.ksize self; WDC.ksize self]
                   (fun idx => match idx with
                      | [b0; o0; ci0; u0; v0] =>
                          PerSample.demodulated self Cin
                            (fun ci' => get y [b0; ci']) WDC.epsilon o0 ci0 u0 v0
                      | _ => 0%R end)) [b; o; ci; u; v]
                 = (get mod_w [b; o; ci; u; v]
                    / sqrt (PerSample.energy self Cin (fun ci' => get y [b; ci']) o
                            + WDC.epsilon))%R).
    { rewrite get_build by inb. rewrite Hmod, get_build by inb. reflexivity. }
    split; [exact Hq|].
    rewrite Hq. field. lra.
  - intros Hzero b o Hb Ho.
    assert (HE : PerSample.energy self Cin (fun ci => get y [b; ci]) o = 0%R).
    { unfold PerSample.energy, PerSample.modulated.
      apply sum_n_zero; intros ci Hci. apply sum_n_zero; intros u _.
      apply sum_n_zero; intros v _. rewrite (Hzero b ci Hb Hci). simpl. ring. }
    split.
    + rewrite (Hdiv b o Hb Ho), HE, Rplus_0_l. unfold WDC.epsilon.
      replace (1 / 10 ^ 8)%R with ((1 / 10 ^ 4) * (1 / 10 ^ 4))%R by (simpl; field).
      apply sqrt_square. apply Rlt_le, Rdiv_lt_0_compat; [lra | apply pow_lt; lra].
    + intros ci u v Hci Hu Hv. rewrite get_build by inb.
      unfold PerSample.demodulated, PerSample.modulated.
      rewrite (Hzero b ci Hb Hci). unfold Rdiv. ring.
Qed.

Lemma demodulation_divisor_positive_witness :
  exists y5 mod_w energy w',
    reshape (Samples.full [1; 2] 1) [1; 1; 2; 1; 1] = Some y5 /\
    mul (WDC.w Samples.layer) y5 = Some mod_w /\
    F.sum (F.square mod_w) = Some energy /\
    WDC.demodulate WDC.epsilon mod_w = Some w' /\
    div mod_w (F.sqrt (F.add_scalar WDC.epsilon energy)) = Some w' /\
    (0 < get (F.sqrt (F.add_scalar WDC.epsilon energy)) [O; O; O; O; O])%R /\
    (get w' [O; O; 1%nat; 2%nat; O]
     * get (F.sqrt (F.add_scalar WDC.epsilon energy)) [O; O; O; O; O])%R
    = get mod_w [O; O; 1%nat; 2%nat; O].
Proof.
  destruct (demodulation_divisor_positive Samples.layer (Samples.full [1; 2] 1) 1 2 1)
    as (y5 & mod_w & energy & w' & Hr & Hm & Hs & Hd & Hq & Hpos & Htie & _).
  - reflexivity.
  - reflexivity.
  - exists y5, mod_w, energy, w'. repeat (split; [assumption|]).
    split; [apply Hpos; lia|].
    apply (Htie 0 0 1 2 0); simpl; lia.
Defined.

End DemodulationClaims.

Section ModulatedConvolutionClaims.

Import Tensor.



(** The constant [c] computed by [__init__] takes no part in [__call__]. *)
Lemma call_ignores_scale (self : WDC.t) (c' : R) (x y : tensor) :
  WDC.call (Equalized.with_scale c' self) x y = WDC.call self x y.
Proof. reflexivity. Qed.

(** C1 fails on the code: on the four-channel pointwise projection with unit
    weights, whose constant is [c = 1/2], a unit feature map and a unit
    modulation give the output 4, the convolution with the raw weights, and
    not 2, the convolution with the weights scaled by [c]. *)
Lemma scale_constant_unused :
  WDC.c Samples.projection = (1 / 2)%R /\
  exists out scaled_out,
    WDC.call Samples.projection (Samples.full [1; 4; 1; 1] 1) (Samples.full [1; 4] 1)
      = Some out /\
    WDC.call (Equalized.scaled Samples.projection)
      (Samples.full [1; 4; 1; 1] 1) (Samples.full [1; 4] 1) = Some scaled_out /\
    get out [0; 0; 0; 0] = 4%R /\
    get scaled_out [0; 0; 0; 0] = 2%R /\
    out <> scaled_out.
Proof.
  assert (Hc : WDC.c Samples.projection = (1 / 2)%R).
  { unfold Samples.projection, WDC.init. cbn [WDC.c]. simpl INR.
    replace (1 / ((1 + 1 + 1 + 1) * 1 ^ 2))%R with ((1 / 2) * (1 / 2))%R by field.
    rewrite sqrt_square by lra. lra. }
  split; [exact Hc|].
  do 2 eexists.
  split; [apply (call_per_sample Samples.projection _ _ 1 4 1 1 1);
          try reflexivity; try lia; apply init_layer_shapes|].
  split; [apply (call_per_sample (Equalized.scaled Samples.projection) _ _ 1 4 1 1 1);
          try reflexivity; try lia; repeat split|].
  assert (H4 : get (build [1; 1; 1; 1] (fun idx =>
            match idx with
            | [b; o; i; j] =>
                PerSample.conv Samples.projection 4 1 1
                  (fun ci i' j' => get (Samples.full [1; 4; 1; 1] 1) [b; ci; i'; j'])
                  (fun ci => get (Samples.full [1; 4] 1) [b; ci]) o i j
            | _ => 0%R
            end)) [0; 0; 0; 0] = 4%R).
  { rewrite get_build by inb.
    unfold PerSample.conv, PerSample.conv_with, PerSample.padded, PerSample.weight,
      PerSample.modulated, sum_n, get, flat. simpl. lra. }
  assert (H2 : get (build [1; 1; 1; 1] (fun idx =>
            match idx with
            | [b; o; i; j] =>
                PerSample.conv (Equalized.scaled Samples.projection) 4 1 1
                  (fun ci i' j' => get (Samples.full [1; 4; 1; 1] 1) [b; ci; i'; j'])
                  (fun ci => get (Samples.full [1; 4] 1) [b; ci]) o i j
            | _ => 0%R
            end)) [0; 0; 0; 0] = 2%R).
  { rewrite get_build by inb.
    unfold PerSample.conv, PerSample.conv_with, PerSample.padded, PerSample.weight,
      PerSample.modulated, sum_n, get, flat.
    cbn [Equalized.scaled WDC.demod WDC.ksize WDC.pad WDC.w WDC.b WDC.c
         Samples.projection WDC.init].
    fold (WDC.c Samples.projection). simpl.
    change (1 * sqrt (1 / ((1 + 1 + 1 + 1) * (1 * (1 * 1)))))%R
      with (WDC.c Samples.projection) in *.
    rewrite Hc. lra. }
  split; [exact H4|]. split; [exact H2|].
  intros E. rewrite E in H4. rewrite H4 in H2. lra.
Qed.

End ModulatedConvolutionClaims.

(* ================================================================== *)
(** * Batches: concatenating and slicing samples *)
(* ================================================================== *)

Section BatchFacts.

Import Tensor.

Lemma concat0_some (t1 t2 : tensor) (n1 n2 : nat) (rest : list nat) :
  shape t1 = n1 :: rest -> shape t2 = n2 :: rest ->
  concat0 t1 t2 = Some (mk_tensor ((n1 + n2) :: rest) (data t1 ++ data t2)).
Proof.
  intros H1 H2. unfold concat0. now rewrite H1, H2, shape_eqb_refl.
Qed.

Lemma concat0_inv (t1 t2 t12 : tensor) :
  concat0 t1 t2 = Some t12 ->
  exists n1 n2 rest,
    shape t1 = n1 :: rest /\ shape t2 = n2 :: rest /\
    t12 = mk_tensor ((n1 + n2) :: rest) (data t1 ++ data t2).
Proof.
  unfold concat0. destruct (shape t1) as [| n1 r1] eqn:E1; [discriminate|].
  destruct (shape t2) as [| n2 r2] eqn:E2; [discriminate|].
  destruct (shape_eqb r1 r2) eqn:E; [|discriminate].
  apply shape_eqb_eq in E. subst r2. intros H. inversion H. eauto 6.
Qed.

Lemma concat0_well_formed (t1 t2 : tensor) (n1 n2 : nat) (rest : list nat) :
  shape t1 = n1 :: rest -> shape t2 = n2 :: rest ->
  well_formed t1 -> well_formed t2 ->
  well_formed (mk_tensor ((n1 + n2) :: rest) (data t1 ++ data t2)).
Proof.
  unfold well_formed. intros H1 H2 W1 W2. cbn [shape data].
  rewrite length_app, W1, W2, H1, H2. cbn [size fold_right]. lia.
Qed.

(** A sample of the first part of a concatenated batch. *)
Lemma get_concat_l (t1 t2 : tensor) (n1 n2 b : nat) (rest r : list nat) :
  shape t1 = n1 :: rest -> well_formed t1 ->
  b < n1 -> in_bounds rest r ->
  get (mk_tensor ((n1 + n2) :: rest) (data t1 ++ data t2)) (b :: r)
  = get t1 (b :: r).
Proof.
  intros H1 W1 Hb Hr. unfold get, flat. cbn [shape data]. rewrite H1.
  cbn [ravel]. apply app_nth1.
  rewrite W1, H1. cbn [size fold_right].
  assert (Hlt := ravel_lt rest r Hr). fold (size rest). nia.
Qed.

(** A sample of the second part of a concatenated batch. *)
Lemma get_concat_r (t1 t2 : tensor) (n1 n2 b : nat) (rest r : list nat) :
  shape t1 = n1 :: rest -> shape t2 = n2 :: rest -> well_formed t1 ->
  get (mk_tensor ((n1 + n2) :: rest) (data t1 ++ data t2)) ((n1 + b) :: r)
  = get t2 (b :: r).
Proof.
  intros H1 H2 W1. unfold get, flat. cbn [shape data]. rewrite H2.
  cbn [ravel]. rewrite app_nth2.
  - f_equal. rewrite W1, H1. cbn [size fold_right]. fold (size rest). nia.
  - rewrite W1, H1. cbn [size fold_right]. fold (size rest). nia.
Qed.

(** A batch built sample by sample is the concatenation of its parts. *)
Lemma concat0_build (n1 n2 : nat) (rest : list nat) (f1 f2 f12 : list nat -> R) :
  (forall b r, b < n1 -> in_bounds rest r -> f12 (b :: r) = f1 (b :: r)) ->
  (forall b r, b < n2 -> in_bounds rest r -> f12 ((n1 + b) :: r) = f2 (b :: r)) ->
  concat0 (build (n1 :: rest) f1) (build (n2 :: rest) f2)
  = Some (build ((n1 + n2) :: rest) f12).
Proof.
  intros Hl Hr.
  rewrite (concat0_some _ _ n1 n2 rest) by reflexivity.
  f_equal. symmetry. apply tensor_ext.
  - apply build_well_formed.
  - apply (concat0_well_formed _ _ n1 n2 rest); try reflexivity; apply build_well_formed.
  - reflexivity.
  - intros idx H. rewrite build_shape in H.
    apply in_bounds_inv_cons in H as (b & r & -> & Hb & Hin).
    rewrite get_build by (apply in_bounds_cons; auto).
    destruct (Nat.lt_ge_cases b n1) as [Hlt | Hge].
    + rewrite get_concat_l by (auto using build_well_formed).
      rewrite get_build by (apply in_bounds_cons; auto). now apply Hl.
    + replace b with (n1 + (b - n1)) by lia.
      rewrite get_concat_r by (auto using build_well_formed).
      rewrite get_build by (apply in_bounds_cons; split; [lia | auto]).
      apply Hr; [lia | auto].
Qed.

Lemma concat0_tmap (f : R -> R) (t1 t2 t12 : tensor) :
  concat0 t1 t2 = Some t12 ->
  concat0 (tmap f t1) (tmap f t2) = Some (tmap f t12).
Proof.
  intros H. apply concat0_inv in H as (n1 & n2 & rest & H1 & H2 & ->).
  rewrite (concat0_some _ _ n1 n2 rest) by assumption.
  unfold tmap. cbn [shape data]. now rewrite map_app.
Qed.

(** Slicing a concatenated batch gives the two parts back. *)
Lemma slice0_concat0 (t1 t2 t12 : tensor) (n1 n2 : nat) (rest : list nat) :
  shape t1 = n1 :: rest -> shape t2 = n2 :: rest ->
  well_formed t1 -> well_formed t2 ->
  concat0 t1 t2 = Some t12 ->
  slice0 0 n1 t12 = Some t1 /\ slice0 n1 n2 t12 = Some t2.
Proof.
  intros H1 H2 W1 W2 H.
  rewrite (concat0_some _ _ n1 n2 rest H1 H2) in H. injection H as <-.
  unfold slice0. cbn [shape data].
  assert (L1 : length (data t1) = n1 * size rest)
    by (rewrite W1, H1; reflexivity).
  assert (L2 : length (data t2) = n2 * size rest)
    by (rewrite W2, H2; reflexivity).
  split.
  - replace (0 + n1 <=? n1 + n2) with true by (symmetry; apply Nat.leb_le; lia).
    cbn [Nat.mul skipn]. rewrite <- L1, firstn_app, Nat.sub_diag, firstn_all.
    cbn [firstn]. rewrite app_nil_r. destruct t1; cbn in *; congruence.
  - replace (n1 + n2 <=? n1 + n2) with true by (symmetry; apply Nat.leb_le; lia).
    rewrite <- L1, skipn_app, Nat.sub_diag, skipn_all. cbn [skipn app].
    rewrite <- L2, firstn_all. destruct t2; cbn in *; congruence.
Qed.

End BatchFacts.

(* ================================================================== *)
(** * The other layers, element by element *)
(* ================================================================== *)

Section LayerFacts.

Import Tensor Common PerSampleLayers.

Lemma bshape_rev_same (r : list nat) : bshape_rev r r = Some r.
Proof.
  induction r as [| a r IH]; [reflexivity|].
  cbn [bshape_rev]. now rewrite bdim_same, IH.
Qed.

Lemma broadcast_shapes_same (s : list nat) : broadcast_shapes s s = Some s.
Proof.
  unfold broadcast_shapes. rewrite bshape_rev_same. cbn [option_map].
  now rewrite rev_involutive.
Qed.

Lemma bclamp_in_bounds (s idx : list nat) : in_bounds s idx -> bclamp s idx = idx.
Proof.
  unfold in_bounds. intros H. induction H as [| i n idx s Hi _ IH]; [reflexivity|].
  cbn [bclamp]. now rewrite pin_in_range, IH.
Qed.

Lemma bindex_in_bounds (s idx : list nat) : in_bounds s idx -> bindex s idx = idx.
Proof.
  intros H. unfold bindex. rewrite (in_bounds_length s idx H), Nat.sub_diag.
  cbn [skipn]. now apply bclamp_in_bounds.
Qed.

(** Adding two arrays of the same shape. *)
Lemma add_same_shape (a b : tensor) (s : list nat) :
  shape a = s -> shape b = s ->
  add a b = Some (build s (fun idx => Rplus (get a idx) (get b idx))).
Proof.
  intros Ha Hb. unfold add. erewrite broadcast2_some
    by (rewrite Ha, Hb; apply broadcast_shapes_same).
  f_equal. apply build_ext. intros idx H.
  now rewrite Ha, Hb, bindex_in_bounds.
Qed.

(** The style projection, row by row. *)
Lemma affine_some (self : SAT.t) (w : tensor) (B size ch : nat) :
  shape (linear_W (SAT.s self)) = [ch; size] ->
  shape (linear_b (SAT.s self)) = [ch] ->
  shape w = [B; size] ->
  SAT.call self w =
    Some (build [B; ch] (fun idx =>
      match idx with
      | [i; j] => affine (SAT.s self) size (fun k => get w [i; k]) j
      | _ => 0%R
      end)).
Proof.
  intros HW Hb Hw. unfold SAT.call, EqualizedLinear_call.
  rewrite HW, Hb, Hw, !Nat.eqb_refl. reflexivity.
Qed.

(** The noise layer, element by element: every channel of a sample gets
    the same draw, scaled by the magnitude of the channel. *)
Lemma noise_some (self : NoiseAdder.t) (z : nat -> R) (x : tensor) (B C H W : nat) :
  shape (NoiseAdder.s self) = [C] -> shape x = [B; C; H; W] ->
  NoiseAdder.call self z x =
    Some (build [B; C; H; W] (fun idx =>
      match idx with
      | [b; c; i; j] =>
          Rplus (get x [b; c; i; j])
                (Rmult (z (b * (H * W) + (i * W + j))) (get (NoiseAdder.s self) [c]))
      | _ => 0%R
      end)).
Proof.
  intros Hs Hx. unfold NoiseAdder.call. rewrite Hx.
  unfold F.broadcast_to, GaussianDistribution_call.
  replace (broadcast_shapes (shape (of_fun [B; 1; H; W] z)) [B; C; H; W])
    with (Some [B; C; H; W]).
  2:{ unfold broadcast_shapes. cbn [of_fun shape rev app bshape_rev].
      rewrite !bdim_same, !bdim_one_l. reflexivity. }
  rewrite shape_eqb_refl.
  unfold F.scale. cbn [build shape]. rewrite Hs, Nat.eqb_refl.
  rewrite (add_same_shape _ _ [B; C; H; W]) by (assumption || reflexivity).
  f_equal. apply build_ext. intros idx Hidx. inb_inv Hidx.
  f_equal. rewrite get_build by inb. cbn [nth]. f_equal.
  rewrite get_build by inb.
  cbn [of_fun shape]. unfold bindex. cbn [length Nat.sub skipn bclamp Nat.eqb].
  rewrite !pin_in_range by assumption.
  rewrite get_of_fun by inb. f_equal. cbn [ravel size fold_right]. lia.
Qed.

(** The upsampler, element by element. *)
Lemma upsample_some (x : tensor) (B C H W : nat) :
  shape x = [B; C; H; W] -> 0 < H -> 0 < W ->
  Upsampler.call x =
    Some (build [B; C; H * 2; W * 2] (fun idx =>
      match idx with
      | [a; b; i; j] => upsample H W (fun v u => get x [a; b; v; u]) i j
      | _ => 0%R
      end)).
Proof.
  intros Hx HH HW. unfold Upsampler.call, F.resize_images. rewrite Hx.
  replace (H * 2 =? 0) with false by (symmetry; apply Nat.eqb_neq; lia).
  replace (W * 2 =? 0) with false by (symmetry; apply Nat.eqb_neq; lia).
  reflexivity.
Qed.

(** The rows and columns the resampling reads are inside the source. *)
Lemma source_position_in_range (n i : nat) :
  0 < n -> i < n * 2 ->
  fst (fst (F.source_position n (n * 2) i)) < n /\
  snd (fst (F.source_position n (n * 2) i)) < n.
Proof.
  intros Hn Hi. unfold F.source_position. cbn [fst snd]. split.
  - apply Nat.Div0.div_lt_upper_bound. nia.
  - lia.
Qed.

End LayerFacts.

(* ================================================================== *)
(** * Every layer treats the samples of a batch independently *)
(* ================================================================== *)

Section BatchedLayers.

Import Tensor Common PerSampleLayers Batch.

Lemma batched_shape n1 n2 rest t1 t2 t12 :
  batched n1 n2 rest t1 t2 t12 -> shape t12 = (n1 + n2) :: rest.
Proof.
  intros (H1 & H2 & _ & _ & H). rewrite (concat0_some _ _ n1 n2 rest H1 H2) in H.
  now injection H as <-.
Qed.

Lemma batched_well_formed n1 n2 rest t1 t2 t12 :
  batched n1 n2 rest t1 t2 t12 -> well_formed t12.
Proof.
  intros (H1 & H2 & W1 & W2 & H). rewrite (concat0_some _ _ n1 n2 rest H1 H2) in H.
  injection H as <-. now apply concat0_well_formed.
Qed.

Lemma batched_get_l n1 n2 rest t1 t2 t12 b r :
  batched n1 n2 rest t1 t2 t12 -> b < n1 -> in_bounds rest r ->
  get t12 (b :: r) = get t1 (b :: r).
Proof.
  intros (H1 & H2 & W1 & W2 & H) Hb Hr.
  rewrite (concat0_some _ _ n1 n2 rest H1 H2) in H. injection H as <-.
  now apply get_concat_l.
Qed.

Lemma batched_get_r n1 n2 rest t1 t2 t12 b r :
  batched n1 n2 rest t1 t2 t12 ->
  get t12 ((n1 + b) :: r) = get t2 (b :: r).
Proof.
  intros (H1 & H2 & W1 & W2 & H).
  rewrite (concat0_some _ _ n1 n2 rest H1 H2) in H. injection H as <-.
  now apply get_concat_r.
Qed.

Lemma batched_build n1 n2 rest f1 f2 f12 :
  (forall b r, b < n1 -> in_bounds rest r -> f12 (b :: r) = f1 (b :: r)) ->
  (forall b r, b < n2 -> in_bounds rest r -> f12 ((n1 + b) :: r) = f2 (b :: r)) ->
  batched n1 n2 rest (build (n1 :: rest) f1) (build (n2 :: rest) f2)
    (build ((n1 + n2) :: rest) f12).
Proof.
  intros Hl Hr. unfold batched.
  repeat split; try apply build_well_formed. now apply concat0_build.
Qed.

Lemma batched_tmap f n1 n2 rest t1 t2 t12 :
  batched n1 n2 rest t1 t2 t12 ->
  batched n1 n2 rest (tmap f t1) (tmap f t2) (tmap f t12).
Proof.
  intros (H1 & H2 & W1 & W2 & H). unfold batched. cbn [tmap shape].
  repeat split; auto using tmap_well_formed. now apply concat0_tmap.
Qed.

(** The convolution of a sample depends on the feature map and the
    modulation vector of that sample only through their in-range
    elements. *)
Lemma conv_ext (self : WDC.t) (Cin H W : nat) xs xs' ys ys' (o i j : nat) :
  0 < H -> 0 < W ->
  (forall ci v u, ci < Cin -> v < H -> u < W -> xs ci v u = xs' ci v u) ->
  (forall ci, ci < Cin -> ys ci = ys' ci) ->
  PerSample.conv self Cin H W xs ys o i j = PerSample.conv self Cin H W xs' ys' o i j.
Proof.
  intros HH HW Hxs Hys.
  assert (Hmod : forall o' ci u v, ci < Cin ->
            PerSample.modulated self ys o' ci u v = PerSample.modulated self ys' o' ci u v).
  { intros o' ci u v Hci. unfold PerSample.modulated. now rewrite Hys. }
  assert (Hen : forall o', PerSample.energy self Cin ys o' = PerSample.energy self Cin ys' o').
  { intros o'. unfold PerSample.energy.
    apply sum_n_ext; intros ci Hci. apply sum_n_ext; intros u _.
    apply sum_n_ext; intros v _. now rewrite Hmod. }
  unfold PerSample.conv, PerSample.conv_with. f_equal.
  apply sum_n_ext; intros ci Hci. apply sum_n_ext; intros u _.
  apply sum_n_ext; intros v _. f_equal.
  - unfold PerSample.padded. apply Hxs; [assumption | lia | lia].
  - unfold PerSample.weight, PerSample.demodulated.
    destruct (WDC.demod self); now rewrite ?Hen, Hmod.
Qed.

(** The modulated convolution of a concatenated batch is the
    concatenation of the modulated convolutions of its parts. *)
Lemma call_batched (self : WDC.t) (Cin Cout H W n1 n2 : nat)
  (x1 x2 x12 y1 y2 y12 : tensor) :
  PerSample.layer_shapes self Cin Cout ->
  0 < n1 -> 0 < n2 -> 0 < H -> 0 < W ->
  batched n1 n2 [Cin; H; W] x1 x2 x12 ->
  batched n1 n2 [Cin] y1 y2 y12 ->
  exists o1 o2 o12,
    WDC.call self x1 y1 = Some o1 /\
    WDC.call self x2 y2 = Some o2 /\
    WDC.call self x12 y12 = Some o12 /\
    batched n1 n2 [Cout; H; W] o1 o2 o12.
Proof.
  intros HL Hn1 Hn2 HH HW Hx Hy.
  assert (Sx := batched_shape _ _ _ _ _ _ Hx).
  assert (Sy := batched_shape _ _ _ _ _ _ Hy).
  destruct Hx as (Sx1 & Sx2 & Hx'). destruct Hy as (Sy1 & Sy2 & Hy').
  assert (Hx : batched n1 n2 [Cin; H; W] x1 x2 x12) by (unfold batched; auto).
  assert (Hy : batched n1 n2 [Cin] y1 y2 y12) by (unfold batched; auto).
  do 3 eexists.
  split; [apply (call_per_sample self x1 y1 n1 Cin Cout H W); auto|].
  split; [apply (call_per_sample self x2 y2 n2 Cin Cout H W); auto|].
  split; [apply (call_per_sample self x12 y12 (n1 + n2) Cin Cout H W); auto; lia|].
  apply batched_build.
  - intros b r Hb Hr. inb_inv Hr.
    apply conv_ext; auto.
    + intros ci v u Hci Hv Hu. apply (batched_get_l _ _ _ _ _ _ _ _ Hx Hb). inb.
    + intros ci Hci. apply (batched_get_l _ _ _ _ _ _ _ _ Hy Hb). inb.
  - intros b r Hb Hr. inb_inv Hr.
    apply conv_ext; auto.
    + intros ci v u Hci Hv Hu. apply (batched_get_r _ _ _ _ _ _ _ _ Hx).
    + intros ci Hci. apply (batched_get_r _ _ _ _ _ _ _ _ Hy).
Qed.

(** The style projection of a concatenated batch. *)
Lemma affine_batched (self : SAT.t) (size ch n1 n2 : nat) (w1 w2 w12 : tensor) :
  shape (linear_W (SAT.s self)) = [ch; size] ->
  shape (linear_b (SAT.s self)) = [ch] ->
  batched n1 n2 [size] w1 w2 w12 ->
  exists m1 m2 m12,
    SAT.call self w1 = Some m1 /\
    SAT.call self w2 = Some m2 /\
    SAT.call self w12 = Some m12 /\
    batched n1 n2 [ch] m1 m2 m12.
Proof.
  intros HW Hb Hw.
  assert (Sw := batched_shape _ _ _ _ _ _ Hw).
  assert (Hw' := Hw). destruct Hw' as (S1 & S2 & _).
  do 3 eexists.
  split; [apply (affine_some self w1 n1 size ch); auto|].
  split; [apply (affine_some self w2 n2 size ch); auto|].
  split; [apply (affine_some self w12 (n1 + n2) size ch); auto|].
  apply batched_build.
  - intros b r Hb' Hr. inb_inv Hr. unfold affine. f_equal.
    apply sum_n_ext; intros k Hk. f_equal.
    apply (batched_get_l _ _ _ _ _ _ _ _ Hw Hb'). inb.
  - intros b r Hb' Hr. inb_inv Hr. unfold affine. f_equal.
    apply sum_n_ext; intros k Hk. f_equal.
    apply (batched_get_r _ _ _ _ _ _ _ _ Hw).
Qed.

(** The noise layer on a concatenated batch whose samples keep their
    draws. *)
Lemma noise_batched (self : NoiseAdder.t) (C H W n1 n2 : nat) (z1 z2 : nat -> R)
  (x1 x2 x12 : tensor) :
  shape (NoiseAdder.s self) = [C] ->
  batched n1 n2 [C; H; W] x1 x2 x12 ->
  exists o1 o2 o12,
    NoiseAdder.call self z1 x1 = Some o1 /\
    NoiseAdder.call self z2 x2 = Some o2 /\
    NoiseAdder.call self (join (n1 * (H * W)) z1 z2) x12 = Some o12 /\
    batched n1 n2 [C; H; W] o1 o2 o12.
Proof.
  intros Hs Hx.
  assert (Sx := batched_shape _ _ _ _ _ _ Hx).
  assert (Hx' := Hx). destruct Hx' as (S1 & S2 & _).
  do 3 eexists.
  split; [apply (noise_some self z1 x1 n1 C H W); auto|].
  split; [apply (noise_some self z2 x2 n2 C H W); auto|].
  split; [apply (noise_some self _ x12 (n1 + n2) C H W); auto|].
  apply batched_build.
  - intros b r Hb Hr. inb_inv Hr. f_equal.
    + apply (batched_get_l _ _ _ _ _ _ _ _ Hx Hb). inb.
    + f_equal. unfold join.
      replace (b * (H * W) + (i0 * W + i1) <? n1 * (H * W)) with true; [reflexivity|].
      symmetry. apply Nat.ltb_lt.
      assert (Hin : i0 * W + i1 < H * W) by nia.
      assert (Hle : (b + 1) * (H * W) <= n1 * (H * W)) by (apply Nat.mul_le_mono_r; lia).
      lia.
  - intros b r Hb Hr. inb_inv Hr. f_equal.
    + apply (batched_get_r _ _ _ _ _ _ _ _ Hx).
    + f_equal. unfold join.
      replace ((n1 + b) * (H * W) + (i0 * W + i1) <? n1 * (H * W)) with false
        by (symmetry; apply Nat.ltb_ge; lia).
      f_equal. lia.
Qed.

(** The upsampler on a concatenated batch. *)
Lemma upsample_batched (C H W n1 n2 : nat) (x1 x2 x12 : tensor) :
  0 < H -> 0 < W ->
  batched n1 n2 [C; H; W] x1 x2 x12 ->
  exists o1 o2 o12,
    Upsampler.call x1 = Some o1 /\
    Upsampler.call x2 = Some o2 /\
    Upsampler.call x12 = Some o12 /\
    batched n1 n2 [C; H * 2; W * 2] o1 o2 o12.
Proof.
  intros HH HW Hx.
  assert (Sx := batched_shape _ _ _ _ _ _ Hx).
  assert (Hx' := Hx). destruct Hx' as (S1 & S2 & _).
  do 3 eexists.
  split; [apply (upsample_some x1 n1 C H W); auto|].
  split; [apply (upsample_some x2 n2 C H W); auto|].
  split; [apply (upsample_some x12 (n1 + n2) C H W); auto|].
  apply batched_build.
  - intros b r Hb Hr. inb_inv Hr. unfold upsample.
    destruct (source_position_in_range H i0 HH Hi0) as [Hv0 Hv1].
    destruct (source_position_in_range W i1 HW Hi1) as [Hu0 Hu1].
    destruct (F.source_position H (H * 2) i0) as [[v0 v1] vw].
    destruct (F.source_position W (W * 2) i1) as [[u0 u1] uw].
    cbn [fst snd] in *.
    rewrite !(batched_get_l _ _ _ _ _ _ b _ Hx Hb) by inb. reflexivity.
  - intros b r Hb Hr. inb_inv Hr. unfold upsample.
    destruct (F.source_position H (H * 2) i0) as [[v0 v1] vw].
    destruct (F.source_position W (W * 2) i1) as [[u0 u1] uw].
    rewrite !(batched_get_r _ _ _ _ _ _ b _ Hx). reflexivity.
Qed.

(** The sum of two concatenated batches of the same shape. *)
Lemma add_batched (rest : list nat) (n1 n2 : nat) (a1 a2 a12 b1 b2 b12 : tensor) :
  batched n1 n2 rest a1 a2 a12 ->
  batched n1 n2 rest b1 b2 b12 ->
  exists o1 o2 o12,
    add a1 b1 = Some o1 /\ add a2 b2 = Some o2 /\ add a12 b12 = Some o12 /\
    batched n1 n2 rest o1 o2 o12.
Proof.
  intros Ha Hb.
  assert (Sa := batched_shape _ _ _ _ _ _ Ha).
  assert (Sb := batched_shape _ _ _ _ _ _ Hb).
  assert (Ha' := Ha). destruct Ha' as (Sa1 & Sa2 & _).
  assert (Hb' := Hb). destruct Hb' as (Sb1 & Sb2 & _).
  do 3 eexists.
  split; [apply (add_same_shape a1 b1 (n1 :: rest)); auto|].
  split; [apply (add_same_shape a2 b2 (n2 :: rest)); auto|].
  split; [apply (add_same_shape a12 b12 ((n1 + n2) :: rest)); auto|].
  apply batched_build.
  - intros b r Hlt Hr.
    now rewrite (batched_get_l _ _ _ _ _ _ _ _ Ha Hlt Hr),
                (batched_get_l _ _ _ _ _ _ _ _ Hb Hlt Hr).
  - intros b r Hlt Hr.
    now rewrite (batched_get_r _ _ _ _ _ _ _ _ Ha), (batched_get_r _ _ _ _ _ _ _ _ Hb).
Qed.

End BatchedLayers.

(* ================================================================== *)
(** * The synthesis blocks *)
(* ================================================================== *)

Section BlockFacts.

Import Tensor Common PerSampleLayers Batch.

Lemma leaky_shape (a : LeakyRelu) (t : tensor) : shape (LeakyRelu_call a t) = shape t.
Proof. reflexivity. Qed.

Lemma to_rgb_layer_shapes (in_channels : nat) (wf bf : nat -> R) :
  PerSample.layer_shapes (ToRGB.w (ToRGB.init in_channels wf bf)) in_channels 3.
Proof. apply init_layer_shapes. Qed.

(** One run of the upsampling block, step by step. *)
Lemma skip_block_run (size Cin Cout : nat)
  (p1 : conv_params) (n1f : nat -> R) (slope1 : R)
  (p2 : conv_params) (n2f : nat -> R) (slope2 : R) (prgb : conv_params)
  (z1 z2 : nat -> R) (x y w : tensor) (B H W : nat) :
  shape x = [B; Cin; H; W] -> shape y = [B; 3; H; W] -> shape w = [B; size] ->
  0 < B -> 0 < H -> 0 < W ->
  let self := Up.init size Cin Cout p1 n1f slope1 p2 n2f slope2 prgb in
  exists h1 m1 h2 h3 m2 h5 h6 up_y m3 contribution rgb,
    Upsampler.call x = Some h1 /\
    SAT.call (Up.s1 self) w = Some m1 /\
    WDC.call (Up.w1 self) h1 m1 = Some h2 /\
    NoiseAdder.call (Up.n1 self) z1 h2 = Some h3 /\
    SAT.call (Up.s2 self) w = Some m2 /\
    WDC.call (Up.w2 self) (LeakyRelu_call (Up.a1 self) h3) m2 = Some h5 /\
    NoiseAdder.call (Up.n2 self) z2 h5 = Some h6 /\
    Upsampler.call y = Some up_y /\
    SAT.call (Up.s3 self) w = Some m3 /\
    ToRGB.call (Up.trgb self) (LeakyRelu_call (Up.a2 self) h6) m3 = Some contribution /\
    add up_y contribution = Some rgb /\
    Up.call self z1 z2 x y w = Some (LeakyRelu_call (Up.a2 self) h6, rgb) /\
    shape h6 = [B; Cout; H * 2; W * 2] /\ well_formed h6 /\
    shape up_y = [B; 3; H * 2; W * 2] /\
    shape contribution = [B; 3; H * 2; W * 2] /\
    shape rgb = [B; 3; H * 2; W * 2] /\ well_formed rgb /\
    (forall b c i j, b < B -> c < 3 -> i < H * 2 -> j < W * 2 ->
       get up_y [b; c; i; j] = upsample H W (fun v u => get y [b; c; v; u]) i j) /\
    (forall b c i j, b < B -> c < 3 -> i < H * 2 -> j < W * 2 ->
       get rgb [b; c; i; j]
       = Rplus (get up_y [b; c; i; j]) (get contribution [b; c; i; j])).
Proof.
  intros Hx Hy Hw HB HH HW self.
  assert (HH2 : 0 < H * 2) by lia. assert (HW2 : 0 < W * 2) by lia.
  pose proof (upsample_some x B Cin H W Hx HH HW) as E1.
  set (h1 := build _ _) in E1.
  pose proof (affine_some (Up.s1 self) w B size Cin eq_refl eq_refl Hw) as E2.
  set (m1 := build _ _) in E2.
  pose proof (call_per_sample (Up.w1 self) h1 m1 B Cin Cout (H * 2) (W * 2)
                (init_layer_shapes _ _ _ _ _ _ _) eq_refl eq_refl HB HH2 HW2) as E3.
  set (h2 := build _ _) in E3.
  pose proof (noise_some (Up.n1 self) z1 h2 B Cout (H * 2) (W * 2) eq_refl eq_refl) as E4.
  set (h3 := build _ _) in E4.
  pose proof (affine_some (Up.s2 self) w B size Cout eq_refl eq_refl Hw) as E5.
  set (m2 := build _ _) in E5.
  pose proof (call_per_sample (Up.w2 self) (LeakyRelu_call (Up.a1 self) h3) m2
                B Cout Cout (H * 2) (W * 2)
                (init_layer_shapes _ _ _ _ _ _ _) eq_refl eq_refl HB HH2 HW2) as E6.
  set (h5 := build _ _) in E6.
  pose proof (noise_some (Up.n2 self) z2 h5 B Cout (H * 2) (W * 2) eq_refl eq_refl) as E7.
  set (h6 := build _ _) in E7.
  pose proof (upsample_some y B 3 H W Hy HH HW) as E8.
  set (up_y := build _ _) in E8.
  pose proof (affine_some (Up.s3 self) w B size Cout eq_refl eq_refl Hw) as E9.
  set (m3 := build _ _) in E9.
  pose proof (call_per_sample (ToRGB.w (Up.trgb self))
                (LeakyRelu_call (Up.a2 self) h6) m3
                B Cout 3 (H * 2) (W * 2)
                (init_layer_shapes _ _ _ _ _ _ _) eq_refl eq_refl HB HH2 HW2) as E10.
  set (contribution := build _ _) in E10.
  pose proof (add_same_shape up_y contribution [B; 3; H * 2; W * 2] eq_refl eq_refl) as E11.
  set (rgb := build _ _) in E11.
  exists h1, m1, h2, h3, m2, h5, h6, up_y, m3, contribution, rgb.
  repeat (split; [assumption|]).
  split.
  { unfold Up.call. rewrite E1, E2, E3, E4, E5, E6, E7, E8, E9.
    unfold ToRGB.call. rewrite E10, E11. reflexivity. }
  repeat (split; [reflexivity || apply build_well_formed|]).
  split.
  - intros b c i j Hb Hc Hi Hj. unfold up_y. now rewrite get_build by inb.
  - intros b c i j Hb Hc Hi Hj. unfold rgb. now rewrite get_build by inb.
Qed.

(** The learned constant repeated for every sample of the batch. *)
Lemma broadcast_constant (c1 : tensor) (C B : nat) :
  shape c1 = [C; 4; 4] ->
  F.broadcast_to (mk_tensor (1 :: shape c1) (data c1)) (B :: shape c1) =
    Some (build [B; C; 4; 4] (fun idx =>
      match idx with
      | [b; c; i; j] => get c1 [c; i; j]
      | _ => 0%R
      end)).
Proof.
  intros Hc. unfold F.broadcast_to. rewrite Hc. cbn [shape].
  replace (broadcast_shapes [1; C; 4; 4] [B; C; 4; 4]) with (Some [B; C; 4; 4]).
  2:{ unfold broadcast_shapes. cbn [rev app bshape_rev].
      rewrite !bdim_same, !bdim_one_l. reflexivity. }
  rewrite shape_eqb_refl. f_equal. apply build_ext. intros idx H. inb_inv H.
  unfold bindex. cbn [length Nat.sub skipn bclamp Nat.eqb].
  rewrite !pin_in_range by assumption.
  apply get_reshaped. rewrite Hc. cbn [ravel size fold_right]. lia.
Qed.

(** One run of the initial block, step by step. *)
Lemma initial_block_run (size Cin Cout : nat)
  (c1f : nat -> R) (p1 : conv_params) (n1f : nat -> R) (slope1 : R)
  (prgb : conv_params) (z1 : nat -> R) (w : tensor) (B : nat) :
  shape w = [B; size] -> 0 < B ->
  let self := Init.init size Cin Cout c1f p1 n1f slope1 prgb in
  exists h2 m1 h3 h4 m2 rgb,
    F.broadcast_to (mk_tensor (1 :: shape (Init.c1 self)) (data (Init.c1 self)))
      (B :: shape (Init.c1 self)) = Some h2 /\
    SAT.call (Init.s1 self) w = Some m1 /\
    WDC.call (Init.w1 self) h2 m1 = Some h3 /\
    NoiseAdder.call (Init.n1 self) z1 h3 = Some h4 /\
    SAT.call (Init.s2 self) w = Some m2 /\
    ToRGB.call (Init.trgb self) (LeakyRelu_call (Init.a1 self) h4) m2 = Some rgb /\
    Init.call self z1 w = Some (LeakyRelu_call (Init.a1 self) h4, rgb) /\
    shape h4 = [B; Cout; 4; 4] /\ well_formed h4 /\
    shape rgb = [B; 3; 4; 4] /\ well_formed rgb.
Proof.
  intros Hw HB self.
  assert (H4 : 0 < 4) by lia.
  pose proof (broadcast_constant (Init.c1 self) Cin B eq_refl) as E1.
  set (h2 := build _ _) in E1.
  pose proof (affine_some (Init.s1 self) w B size Cin eq_refl eq_refl Hw) as E2.
  set (m1 := build _ _) in E2.
  pose proof (call_per_sample (Init.w1 self) h2 m1 B Cin Cout 4 4
                (init_layer_shapes _ _ _ _ _ _ _) eq_refl eq_refl HB H4 H4) as E3.
  set (h3 := build _ _) in E3.
  pose proof (noise_some (Init.n1 self) z1 h3 B Cout 4 4 eq_refl eq_refl) as E4.
  set (h4 := build _ _) in E4.
  pose proof (affine_some (Init.s2 self) w B size Cout eq_refl eq_refl Hw) as E5.
  set (m2 := build _ _) in E5.
  pose proof (call_per_sample (ToRGB.w (Init.trgb self))
                (LeakyRelu_call (Init.a1 self) h4) m2 B Cout 3 4 4
                (init_layer_shapes _ _ _ _ _ _ _) eq_refl eq_refl HB H4 H4) as E6.
  set (rgb := build _ _) in E6.
  exists h2, m1, h3, h4, m2, rgb.
  repeat (split; [assumption|]).
  split.
  { unfold Init.call. rewrite Hw.
    rewrite reshape_some by (simpl; lia).
    rewrite E1, E2, E3, E4, E5. unfold ToRGB.call. rewrite E6. reflexivity. }
  repeat split; try reflexivity; apply build_well_formed.
Qed.

(** The upsampling block on a concatenated batch. *)
Lemma skip_block_batched (size Cin Cout : nat)
  (p1 : conv_params) (n1f : nat -> R) (slope1 : R)
  (p2 : conv_params) (n2f : nat -> R) (slope2 : R) (prgb : conv_params)
  (za1 za2 zb1 zb2 : nat -> R) (n1 n2 H W : nat)
  (x1 x2 x12 y1 y2 y12 w1 w2 w12 : tensor) :
  let self := Up.init size Cin Cout p1 n1f slope1 p2 n2f slope2 prgb in
  0 < n1 -> 0 < n2 -> 0 < H -> 0 < W ->
  batched n1 n2 [Cin; H; W] x1 x2 x12 ->
  batched n1 n2 [3; H; W] y1 y2 y12 ->
  batched n1 n2 [size] w1 w2 w12 ->
  exists f1 r1 f2 r2 f12 r12,
    Up.call self za1 za2 x1 y1 w1 = Some (f1, r1) /\
    Up.call self zb1 zb2 x2 y2 w2 = Some (f2, r2) /\
    Up.call self (join (n1 * (H * 2 * (W * 2))) za1 zb1)
                 (join (n1 * (H * 2 * (W * 2))) za2 zb2) x12 y12 w12
      = Some (f12, r12) /\
    batched n1 n2 [Cout; H * 2; W * 2] f1 f2 f12 /\
    batched n1 n2 [3; H * 2; W * 2] r1 r2 r12.
Proof.
  intros self Hn1 Hn2 HH HW Bx By Bw.
  assert (HH2 : 0 < H * 2) by lia. assert (HW2 : 0 < W * 2) by lia.
  destruct (upsample_batched Cin H W n1 n2 x1 x2 x12 HH HW Bx)
    as (a1 & a2 & a12 & Ea1 & Ea2 & Ea12 & Ba).
  destruct (affine_batched (Up.s1 self) size Cin n1 n2 w1 w2 w12 eq_refl eq_refl Bw)
    as (m1 & m2 & m12 & Em1 & Em2 & Em12 & Bm).
  destruct (call_batched (Up.w1 self) Cin Cout (H * 2) (W * 2) n1 n2
              a1 a2 a12 m1 m2 m12 (init_layer_shapes _ _ _ _ _ _ _)
              Hn1 Hn2 HH2 HW2 Ba Bm)
    as (c1 & c2 & c12 & Ec1 & Ec2 & Ec12 & Bc).
  destruct (noise_batched (Up.n1 self) Cout (H * 2) (W * 2) n1 n2 za1 zb1
              c1 c2 c12 eq_refl Bc)
    as (d1 & d2 & d12 & Ed1 & Ed2 & Ed12 & Bd).
  pose proof (batched_tmap _ _ _ _ _ _ _ Bd : batched n1 n2 [Cout; H * 2; W * 2]
                (LeakyRelu_call (Up.a1 self) d1) (LeakyRelu_call (Up.a1 self) d2)
                (LeakyRelu_call (Up.a1 self) d12)) as Be.
  destruct (affine_batched (Up.s2 self) size Cout n1 n2 w1 w2 w12 eq_refl eq_refl Bw)
    as (k1 & k2 & k12 & Ek1 & Ek2 & Ek12 & Bk).
  destruct (call_batched (Up.w2 self) Cout Cout (H * 2) (W * 2) n1 n2
              _ _ _ k1 k2 k12 (init_layer_shapes _ _ _ _ _ _ _)
              Hn1 Hn2 HH2 HW2 Be Bk)
    as (g1 & g2 & g12 & Eg1 & Eg2 & Eg12 & Bg).
  destruct (noise_batched (Up.n2 self) Cout (H * 2) (W * 2) n1 n2 za2 zb2
              g1 g2 g12 eq_refl Bg)
    as (q1 & q2 & q12 & Eq1 & Eq2 & Eq12 & Bq).
  pose proof (batched_tmap _ _ _ _ _ _ _ Bq : batched n1 n2 [Cout; H * 2; W * 2]
                (LeakyRelu_call (Up.a2 self) q1) (LeakyRelu_call (Up.a2 self) q2)
                (LeakyRelu_call (Up.a2 self) q12)) as Bf.
  destruct (upsample_batched 3 H W n1 n2 y1 y2 y12 HH HW By)
    as (u1 & u2 & u12 & Eu1 & Eu2 & Eu12 & Bu).
  destruct (affine_batched (Up.s3 self) size Cout n1 n2 w1 w2 w12 eq_refl eq_refl Bw)
    as (t1 & t2 & t12 & Et1 & Et2 & Et12 & Bt).
  destruct (call_batched (ToRGB.w (Up.trgb self)) Cout 3 (H * 2) (W * 2) n1 n2
              _ _ _ t1 t2 t12 (init_layer_shapes _ _ _ _ _ _ _)
              Hn1 Hn2 HH2 HW2 Bf Bt)
    as (v1 & v2 & v12 & Ev1 & Ev2 & Ev12 & Bv).
  destruct (add_batched [3; H * 2; W * 2] n1 n2 u1 u2 u12 v1 v2 v12 Bu Bv)
    as (r1 & r2 & r12 & Er1 & Er2 & Er12 & Br).
  exists (LeakyRelu_call (Up.a2 self) q1), r1,
         (LeakyRelu_call (Up.a2 self) q2), r2,
         (LeakyRelu_call (Up.a2 self) q12), r12.
  split; [| split; [| split; [| split; assumption]]].
  - unfold Up.call, ToRGB.call.
    rewrite Ea1, Em1, Ec1, Ed1, Ek1, Eg1, Eq1, Eu1, Et1, Ev1, Er1. reflexivity.
  - unfold Up.call, ToRGB.call.
    rewrite Ea2, Em2, Ec2, Ed2, Ek2, Eg2, Eq2, Eu2, Et2, Ev2, Er2. reflexivity.
  - unfold Up.call, ToRGB.call.
    rewrite Ea12, Em12, Ec12, Ed12, Ek12, Eg12, Eq12, Eu12, Et12, Ev12, Er12. reflexivity.
Qed.

Lemma broadcast_constant_batched (c1 : tensor) (C n1 n2 : nat) :
  shape c1 = [C; 4; 4] ->
  exists h1 h2 h12,
    F.broadcast_to (mk_tensor (1 :: shape c1) (data c1)) (n1 :: shape c1) = Some h1 /\
    F.broadcast_to (mk_tensor (1 :: shape c1) (data c1)) (n2 :: shape c1) = Some h2 /\
    F.broadcast_to (mk_tensor (1 :: shape c1) (data c1)) ((n1 + n2) :: shape c1)
      = Some h12 /\
    batched n1 n2 [C; 4; 4] h1 h2 h12.
Proof.
  intros Hc. do 3 eexists.
  split; [apply (broadcast_constant c1 C n1 Hc)|].
  split; [apply (broadcast_constant c1 C n2 Hc)|].
  split; [apply (broadcast_constant c1 C (n1 + n2) Hc)|].
  apply batched_build.
  - intros b r Hb Hr. inb_inv Hr. reflexivity.
  - intros b r Hb Hr. inb_inv Hr. reflexivity.
Qed.

(** The initial block on a concatenated batch of style vectors. *)
Lemma initial_block_batched (size Cin Cout : nat)
  (c1f : nat -> R) (p1 : conv_params) (n1f : nat -> R) (slope1 : R)
  (prgb : conv_params) (za zb : nat -> R) (n1 n2 : nat) (w1 w2 w12 : tensor) :
  let self := Init.init size Cin Cout c1f p1 n1f slope1 prgb in
  0 < n1 -> 0 < n2 ->
  batched n1 n2 [size] w1 w2 w12 ->
  exists f1 r1 f2 r2 f12 r12,
    Init.call self za w1 = Some (f1, r1) /\
    Init.call self zb w2 = Some (f2, r2) /\
    Init.call self (join (n1 * (4 * 4)) za zb) w12 = Some (f12, r12) /\
    batched n1 n2 [Cout; 4; 4] f1 f2 f12 /\
    batched n1 n2 [3; 4; 4] r1 r2 r12.
Proof.
  intros self Hn1 Hn2 Bw.
  assert (H4 : 0 < 4) by lia.
  assert (Sw := batched_shape _ _ _ _ _ _ Bw).
  assert (Bw' := Bw). destruct Bw' as (Sw1 & Sw2 & _).
  destruct (broadcast_constant_batched (Init.c1 self) Cin n1 n2 eq_refl)
    as (a1 & a2 & a12 & Ea1 & Ea2 & Ea12 & Ba).
  destruct (affine_batched (Init.s1 self) size Cin n1 n2 w1 w2 w12 eq_refl eq_refl Bw)
    as (m1 & m2 & m12 & Em1 & Em2 & Em12 & Bm).
  destruct (call_batched (Init.w1 self) Cin Cout 4 4 n1 n2
              a1 a2 a12 m1 m2 m12 (init_layer_shapes _ _ _ _ _ _ _)
              Hn1 Hn2 H4 H4 Ba Bm)
    as (c1 & c2 & c12 & Ec1 & Ec2 & Ec12 & Bc).
  destruct (noise_batched (Init.n1 self) Cout 4 4 n1 n2 za zb c1 c2 c12 eq_refl Bc)
    as (d1 & d2 & d12 & Ed1 & Ed2 & Ed12 & Bd).
  pose proof (batched_tmap _ _ _ _ _ _ _ Bd : batched n1 n2 [Cout; 4; 4]
                (LeakyRelu_call (Init.a1 self) d1) (LeakyRelu_call (Init.a1 self) d2)
                (LeakyRelu_call (Init.a1 self) d12)) as Bf.
  destruct (affine_batched (Init.s2 self) size Cout n1 n2 w1 w2 w12 eq_refl eq_refl Bw)
    as (t1 & t2 & t12 & Et1 & Et2 & Et12 & Bt).
  destruct (call_batched (ToRGB.w (Init.trgb self)) Cout 3 4 4 n1 n2
              _ _ _ t1 t2 t12 (init_layer_shapes _ _ _ _ _ _ _)
              Hn1 Hn2 H4 H4 Bf Bt)
    as (v1 & v2 & v12 & Ev1 & Ev2 & Ev12 & Bv).
  exists (LeakyRelu_call (Init.a1 self) d1), v1,
         (LeakyRelu_call (Init.a1 self) d2), v2,
         (LeakyRelu_call (Init.a1 self) d12), v12.
  split; [| split; [| split; [| split; assumption]]].
  - unfold Init.call, ToRGB.call. rewrite Sw1.
    rewrite reshape_some by (simpl; lia).
    rewrite Ea1, Em1, Ec1, Ed1, Et1, Ev1. reflexivity.
  - unfold Init.call, ToRGB.call. rewrite Sw2.
    rewrite reshape_some by (simpl; lia).
    rewrite Ea2, Em2, Ec2, Ed2, Et2, Ev2. reflexivity.
  - unfold Init.call, ToRGB.call. rewrite Sw.
    rewrite reshape_some by (simpl; lia).
    rewrite Ea12, Em12, Ec12, Ed12, Et12, Ev12. reflexivity.
Qed.

End BlockFacts.

(* ================================================================== *)
(** * Noise pinned to zero *)
(* ================================================================== *)

Section ZeroNoise.

Import Tensor Common PerSampleLayers Batch.

Lemma batched_slices n1 n2 rest t1 t2 t12 :
  batched n1 n2 rest t1 t2 t12 ->
  slice0 0 n1 t12 = Some t1 /\ slice0 n1 n2 t12 = Some t2.
Proof.
  intros (H1 & H2 & W1 & W2 & H). now apply (slice0_concat0 t1 t2 t12 n1 n2 rest).
Qed.

Lemma of_fun_ext (s : list nat) (f g : nat -> R) :
  (forall q, f q = g q) -> of_fun s f = of_fun s g.
Proof. intros H. unfold of_fun. f_equal. apply map_ext. exact H. Qed.

(** A noise layer sees its draw only through the values drawn. *)
Lemma noise_draw_ext (self : NoiseAdder.t) (z z' : nat -> R) (x : tensor) :
  (forall q, z q = z' q) -> NoiseAdder.call self z x = NoiseAdder.call self z' x.
Proof.
  intros H. unfold NoiseAdder.call, GaussianDistribution_call.
  destruct (shape x) as [| b [| c [| h [| w [|]]]]]; try reflexivity.
  now rewrite (of_fun_ext _ z z' H).
Qed.

Lemma up_draw_ext (self : Up.t) (z1 z1' z2 z2' : nat -> R) (x y w : tensor) :
  (forall q, z1 q = z1' q) -> (forall q, z2 q = z2' q) ->
  Up.call self z1 z2 x y w = Up.call self z1' z2' x y w.
Proof.
  intros H1 H2. unfold Up.call.
  destruct (Upsampler.call x) as [h1|]; [|reflexivity].
  destruct (SAT.call (Up.s1 self) w) as [m1|]; [|reflexivity].
  destruct (WDC.call (Up.w1 self) h1 m1) as [h2|]; [|reflexivity].
  rewrite (noise_draw_ext (Up.n1 self) z1 z1' h2 H1).
  destruct (NoiseAdder.call (Up.n1 self) z1' h2) as [h3|]; [|reflexivity].
  destruct (SAT.call (Up.s2 self) w) as [m2|]; [|reflexivity].
  destruct (WDC.call (Up.w2 self) (LeakyRelu_call (Up.a1 self) h3) m2) as [h5|];
    [|reflexivity].
  now rewrite (noise_draw_ext (Up.n2 self) z2 z2' h5 H2).
Qed.

Lemma init_draw_ext (self : Init.t) (z z' : nat -> R) (w : tensor) :
  (forall q, z q = z' q) -> Init.call self z w = Init.call self z' w.
Proof.
  intros H. unfold Init.call.
  destruct (shape w) as [| batch rest]; [reflexivity|].
  destruct (reshape (Init.c1 self) (1 :: shape (Init.c1 self))) as [h1|]; [|reflexivity].
  destruct (F.broadcast_to h1 (batch :: shape (Init.c1 self))) as [h2|]; [|reflexivity].
  destruct (SAT.call (Init.s1 self) w) as [m1|]; [|reflexivity].
  destruct (WDC.call (Init.w1 self) h2 m1) as [h3|]; [|reflexivity].
  now rewrite (noise_draw_ext (Init.n1 self) z z' h3 H).
Qed.

Lemma join_zero (n q : nat) :
  join n BlockSamples.zero_noise BlockSamples.zero_noise q = BlockSamples.zero_noise q.
Proof. unfold join, BlockSamples.zero_noise. now destruct (q <? n). Qed.

(** With the noise pinned to zero in all three runs, the slices of the
    outputs of the upsampling block on a concatenated batch are its outputs
    on the two batches. *)
Lemma upsampling_block_zero_noise (size Cin Cout : nat)
  (p1 : conv_params) (n1f : nat -> R) (slope1 : R)
  (p2 : conv_params) (n2f : nat -> R) (slope2 : R) (prgb : conv_params)
  (n1 n2 H W : nat) (x1 x2 x12 y1 y2 y12 w1 w2 w12 : tensor) :
  let self := Up.init size Cin Cout p1 n1f slope1 p2 n2f slope2 prgb in
  let z := BlockSamples.zero_noise in
  0 < n1 -> 0 < n2 -> 0 < H -> 0 < W ->
  batched n1 n2 [Cin; H; W] x1 x2 x12 ->
  batched n1 n2 [3; H; W] y1 y2 y12 ->
  batched n1 n2 [size] w1 w2 w12 ->
  exists f1 r1 f2 r2 f12 r12,
    Up.call self z z x1 y1 w1 = Some (f1, r1) /\
    Up.call self z z x2 y2 w2 = Some (f2, r2) /\
    Up.call self z z x12 y12 w12 = Some (f12, r12) /\
    slice0 0 n1 f12 = Some f1 /\ slice0 n1 n2 f12 = Some f2 /\
    slice0 0 n1 r12 = Some r1 /\ slice0 n1 n2 r12 = Some r2.
Proof.
  intros self z Hn1 Hn2 HH HW Bx By Bw.
  destruct (skip_block_batched size Cin Cout p1 n1f slope1 p2 n2f slope2 prgb
              z z z z n1 n2 H W x1 x2 x12 y1 y2 y12 w1 w2 w12
              Hn1 Hn2 HH HW Bx By Bw)
    as (f1 & r1 & f2 & r2 & f12 & r12 & E1 & E2 & E12 & Bf & Br).
  exists f1, r1, f2, r2, f12, r12.
  destruct (batched_slices _ _ _ _ _ _ Bf) as [S1 S2].
  destruct (batched_slices _ _ _ _ _ _ Br) as [S3 S4].
  repeat (split; [assumption|]). split; [|auto].
  rewrite <- E12. apply up_draw_ext; intros q; symmetry; apply join_zero.
Qed.

(** The same for the initial block. *)
Lemma initial_block_zero_noise (size Cin Cout : nat)
  (c1f : nat -> R) (q1 : conv_params) (k1f : nat -> R) (slope0 : R)
  (qrgb : conv_params) (n1 n2 : nat) (w1 w2 w12 : tensor) :
  let self := Init.init size Cin Cout c1f q1 k1f slope0 qrgb in
  let z := BlockSamples.zero_noise in
  0 < n1 -> 0 < n2 ->
  batched n1 n2 [size] w1 w2 w12 ->
  exists f1 r1 f2 r2 f12 r12,
    Init.call self z w1 = Some (f1, r1) /\
    Init.call self z w2 = Some (f2, r2) /\
    Init.call self z w12 = Some (f12, r12) /\
    slice0 0 n1 f12 = Some f1 /\ slice0 n1 n2 f12 = Some f2 /\
    slice0 0 n1 r12 = Some r1 /\ slice0 n1 n2 r12 = Some r2.
Proof.
  intros self z Hn1 Hn2 Bw.
  destruct (initial_block_batched size Cin Cout c1f q1 k1f slope0 qrgb z z
              n1 n2 w1 w2 w12 Hn1 Hn2 Bw)
    as (f1 & r1 & f2 & r2 & f12 & r12 & E1 & E2 & E12 & Bf & Br).
  exists f1, r1, f2, r2, f12, r12.
  destruct (batched_slices _ _ _ _ _ _ Bf) as [S1 S2].
  destruct (batched_slices _ _ _ _ _ _ Br) as [S3 S4].
  repeat (split; [assumption|]). split; [|auto].
  rewrite <- E12. apply init_draw_ext; intros q; symmetry; apply join_zero.
Qed.

End ZeroNoise.

(* ================================================================== *)
(** * The claims about the synthesis blocks *)
(* ================================================================== *)

Section BlockClaims.

Import Tensor Common PerSampleLayers Batch.

(** C2 (batch independence): for two batches of feature maps, RGB
    accumulators, style vectors and modulation vectors and their
    concatenations, with every sample keeping its noise draw, (1) the
    modulated convolution of the concatenated batch gives at sample [b] the
    convolution of the feature map and modulation vector of sample [b]
    alone, and its slices are the results on the two batches; (2) the
    slices of the outputs of the initial block on the concatenated batch are
    its outputs on the two batches; (3) the same holds for the upsampling
    block. *)
Theorem batch_independence (size Cin Cout : nat) (conv : WDC.t)
  (c1f : nat -> R) (q1 : conv_params) (k1f : nat -> R) (slope0 : R)
  (qrgb : conv_params)
  (p1 : conv_params) (n1f : nat -> R) (slope1 : R)
  (p2 : conv_params) (n2f : nat -> R) (slope2 : R) (prgb : conv_params)
  (za zb za1 za2 zb1 zb2 : nat -> R) (n1 n2 H W : nat)
  (x1 x2 x12 y1 y2 y12 w1 w2 w12 m1 m2 m12 : tensor) :
  PerSample.layer_shapes conv Cin Cout ->
  0 < n1 -> 0 < n2 -> 0 < H -> 0 < W ->
  batched n1 n2 [Cin; H; W] x1 x2 x12 ->
  batched n1 n2 [3; H; W] y1 y2 y12 ->
  batched n1 n2 [size] w1 w2 w12 ->
  batched n1 n2 [Cin] m1 m2 m12 ->
  (exists o1 o2 o12,
     WDC.call conv x1 m1 = Some o1 /\
     WDC.call conv x2 m2 = Some o2 /\
     WDC.call conv x12 m12 = Some o12 /\
     slice0 0 n1 o12 = Some o1 /\ slice0 n1 n2 o12 = Some o2 /\
     forall b o i j, b < n1 + n2 -> o < Cout -> i < H -> j < W ->
       get o12 [b; o; i; j]
       = PerSample.conv conv Cin H W
           (fun ci v u => get x12 [b; ci; v; u]) (fun ci => get m12 [b; ci]) o i j) /\
  (let block := Init.init size Cin Cout c1f q1 k1f slope0 qrgb in
   exists f1 r1 f2 r2 f12 r12,
     Init.call block za w1 = Some (f1, r1) /\
     Init.call block zb w2 = Some (f2, r2) /\
     Init.call block (join (n1 * (4 * 4)) za zb) w12 = Some (f12, r12) /\
     slice0 0 n1 f12 = Some f1 /\ slice0 n1 n2 f12 = Some f2 /\
     slice0 0 n1 r12 = Some r1 /\ slice0 n1 n2 r12 = Some r2) /\
  (let block := Up.init size Cin Cout p1 n1f slope1 p2 n2f slope2 prgb in
   exists f1 r1 f2 r2 f12 r12,
     Up.call block za1 za2 x1 y1 w1 = Some (f1, r1) /\
     Up.call block zb1 zb2 x2 y2 w2 = Some (f2, r2) /\
     Up.call block (join (n1 * (H * 2 * (W * 2))) za1 zb1)
                   (join (n1 * (H * 2 * (W * 2))) za2 zb2) x12 y12 w12
       = Some (f12, r12) /\
     slice0 0 n1 f12 = Some f1 /\ slice0 n1 n2 f12 = Some f2 /\
     slice0 0 n1 r12 = Some r1 /\ slice0 n1 n2 r12 = Some r2).
Proof.
  intros HL Hn1 Hn2 HH HW Bx By Bw Bm. split; [| split].
  - destruct (call_batched conv Cin Cout H W n1 n2 x1 x2 x12 m1 m2 m12
                HL Hn1 Hn2 HH HW Bx Bm) as (o1 & o2 & o12 & E1 & E2 & E12 & Bo).
    exists o1, o2, o12.
    destruct (batched_slices _ _ _ _ _ _ Bo) as [S1 S2].
    repeat (split; [assumption|]).
    intros b o i j Hb Ho Hi Hj.
    rewrite (call_per_sample conv x12 m12 (n1 + n2) Cin Cout H W HL
               (batched_shape _ _ _ _ _ _ Bx) (batched_shape _ _ _ _ _ _ Bm))
      in E12 by lia.
    injection E12 as <-. now rewrite get_build by inb.
  - intros block.
    destruct (initial_block_batched size Cin Cout c1f q1 k1f slope0 qrgb za zb
                n1 n2 w1 w2 w12 Hn1 Hn2 Bw)
      as (f1 & r1 & f2 & r2 & f12 & r12 & E1 & E2 & E12 & Bf & Br).
    exists f1, r1, f2, r2, f12, r12.
    destruct (batched_slices _ _ _ _ _ _ Bf) as [S1 S2].
    destruct (batched_slices _ _ _ _ _ _ Br) as [S3 S4].
    repeat (split; [assumption|]). assumption.
  - intros block.
    destruct (skip_block_batched size Cin Cout p1 n1f slope1 p2 n2f slope2 prgb
                za1 za2 zb1 zb2 n1 n2 H W x1 x2 x12 y1 y2 y12 w1 w2 w12
                Hn1 Hn2 HH HW Bx By Bw)
      as (f1 & r1 & f2 & r2 & f12 & r12 & E1 & E2 & E12 & Bf & Br).
    exists f1, r1, f2, r2, f12, r12.
    destruct (batched_slices _ _ _ _ _ _ Bf) as [S1 S2].
    destruct (batched_slices _ _ _ _ _ _ Br) as [S3 S4].
    repeat (split; [assumption|]). assumption.
Qed.

Lemma sample_batched (rest : list nat) (u v : R) :
  batched 1 1 rest (Samples.full (1 :: rest) u) (Samples.full (1 :: rest) v)
    (BlockSamples.stacked 2 rest (Samples.full (1 :: rest) u) (Samples.full (1 :: rest) v)).
Proof.
  unfold batched, BlockSamples.stacked, Samples.full.
  repeat split; try apply of_fun_well_formed.
  now rewrite (concat0_some _ _ 1 1 rest).
Qed.

Lemma batch_independence_witness :
  exists f1 r1 f2 r2 f12 r12,
    Up.call BlockSamples.up_block BlockSamples.zero_noise BlockSamples.zero_noise
      (Samples.full [1; 1; 1; 1] 1) (Samples.full [1; 3; 1; 1] 0) (Samples.full [1; 1] 1)
      = Some (f1, r1) /\
    Up.call BlockSamples.up_block BlockSamples.zero_noise BlockSamples.zero_noise
      (Samples.full [1; 1; 1; 1] 2) (Samples.full [1; 3; 1; 1] 0) (Samples.full [1; 1] 3)
      = Some (f2, r2) /\
    Up.call BlockSamples.up_block
      (join (1 * (1 * 2 * (1 * 2))) BlockSamples.zero_noise BlockSamples.zero_noise)
      (join (1 * (1 * 2 * (1 * 2))) BlockSamples.zero_noise BlockSamples.zero_noise)
      (BlockSamples.stacked 2 [1; 1; 1]
         (Samples.full [1; 1; 1; 1] 1) (Samples.full [1; 1; 1; 1] 2))
      (BlockSamples.stacked 2 [3; 1; 1]
         (Samples.full [1; 3; 1; 1] 0) (Samples.full [1; 3; 1; 1] 0))
      (BlockSamples.stacked 2 [1]
         (Samples.full [1; 1] 1) (Samples.full [1; 1] 3))
      = Some (f12, r12) /\
    slice0 0 1 f12 = Some f1 /\ slice0 1 1 f12 = Some f2 /\
    slice0 0 1 r12 = Some r1 /\ slice0 1 1 r12 = Some r2.
Proof.
  destruct (batch_independence 1 1 1 Samples.unit_layer
              (fun _ => 1%R) BlockSamples.params (fun _ => 0%R) (1 / 5) BlockSamples.params
              BlockSamples.params (fun _ => 0%R) (1 / 5)
              BlockSamples.params (fun _ => 0%R) (1 / 5) BlockSamples.params
              BlockSamples.zero_noise BlockSamples.zero_noise
              BlockSamples.zero_noise BlockSamples.zero_noise
              BlockSamples.zero_noise BlockSamples.zero_noise
              1 1 1 1
              _ _ _ _ _ _ _ _ _ _ _ _
              (init_layer_shapes 1 1 false true WDC.default_gain (fun _ => 2%R) (fun _ => 0%R))
              Nat.lt_0_1 Nat.lt_0_1 Nat.lt_0_1 Nat.lt_0_1
              (sample_batched [1; 1; 1] 1 2)
              (sample_batched [3; 1; 1] 0 0)
              (sample_batched [1] 1 3)
              (sample_batched [1] 1 1)) as (_ & _ & H).
  exact H.
Defined.

(** C5 (skip accumulation): on inputs of matching shapes the upsampling
    block returns the feature map [h7], the result of its second
    convolution, noise and nonlinearity, together with the accumulator
    [upsample(y) + trgb(h7, s3(w))]: element by element the incoming
    accumulator resampled to twice the size plus the RGB contribution
    computed from [h7]. *)
Theorem skip_accumulation (size Cin Cout : nat)
  (p1 : conv_params) (n1f : nat -> R) (slope1 : R)
  (p2 : conv_params) (n2f : nat -> R) (slope2 : R) (prgb : conv_params)
  (z1 z2 : nat -> R) (x y w : tensor) (B H W : nat) :
  shape x = [B; Cin; H; W] -> shape y = [B; 3; H; W] -> shape w = [B; size] ->
  0 < B -> 0 < H -> 0 < W ->
  let self := Up.init size Cin Cout p1 n1f slope1 p2 n2f slope2 prgb in
  exists h1 m1 h2 h3 m2 h5 h6 up_y m3 contribution rgb,
    Upsampler.call x = Some h1 /\
    SAT.call (Up.s1 self) w = Some m1 /\
    WDC.call (Up.w1 self) h1 m1 = Some h2 /\
    NoiseAdder.call (Up.n1 self) z1 h2 = Some h3 /\
    SAT.call (Up.s2 self) w = Some m2 /\
    WDC.call (Up.w2 self) (LeakyRelu_call (Up.a1 self) h3) m2 = Some h5 /\
    NoiseAdder.call (Up.n2 self) z2 h5 = Some h6 /\
    let h7 := LeakyRelu_call (Up.a2 self) h6 in
    Upsampler.call y = Some up_y /\
    SAT.call (Up.s3 self) w = Some m3 /\
    ToRGB.call (Up.trgb self) h7 m3 = Some contribution /\
    add up_y contribution = Some rgb /\
    Up.call self z1 z2 x y w = Some (h7, rgb) /\
    shape up_y = [B; 3; H * 2; W * 2] /\
    shape rgb = [B; 3; H * 2; W * 2] /\
    (forall b c i j, b < B -> c < 3 -> i < H * 2 -> j < W * 2 ->
       get up_y [b; c; i; j] = upsample H W (fun v u => get y [b; c; v; u]) i j) /\
    (forall b c i j, b < B -> c < 3 -> i < H * 2 -> j < W * 2 ->
       get rgb [b; c; i; j]
       = Rplus (get up_y [b; c; i; j]) (get contribution [b; c; i; j])).
Proof.
  intros Hx Hy Hw HB HH HW self.
  destruct (skip_block_run size Cin Cout p1 n1f slope1 p2 n2f slope2 prgb
              z1 z2 x y w B H W Hx Hy Hw HB HH HW)
    as (h1 & m1 & h2 & h3 & m2 & h5 & h6 & up_y & m3 & contribution & rgb
        & E1 & E2 & E3 & E4 & E5 & E6 & E7 & E8 & E9 & E10 & E11 & E12
        & _ & _ & S1 & _ & S2 & _ & G1 & G2).
  exists h1, m1, h2, h3, m2, h5, h6, up_y, m3, contribution, rgb.
  repeat (split; [assumption|]). assumption.
Qed.

Lemma skip_accumulation_witness :
  exists h7 up_y contribution rgb,
    Up.call BlockSamples.up_block BlockSamples.zero_noise BlockSamples.zero_noise
      (Samples.full [1; 1; 1; 1] 1) (Samples.full [1; 3; 1; 1] 7) (Samples.full [1; 1] 1)
      = Some (h7, rgb) /\
    Upsampler.call (Samples.full [1; 3; 1; 1] 7) = Some up_y /\
    add up_y contribution = Some rgb /\
    get rgb [0; 0; 0; 0] = Rplus (get up_y [0; 0; 0; 0]) (get contribution [0; 0; 0; 0]).
Proof.
  destruct (skip_accumulation 1 1 1 BlockSamples.params (fun _ => 0%R) (1 / 5)
              BlockSamples.params (fun _ => 0%R) (1 / 5) BlockSamples.params
              BlockSamples.zero_noise BlockSamples.zero_noise
              (Samples.full [1; 1; 1; 1] 1) (Samples.full [1; 3; 1; 1] 7)
              (Samples.full [1; 1] 1) 1 1 1
              eq_refl eq_refl eq_refl Nat.lt_0_1 Nat.lt_0_1 Nat.lt_0_1)
    as (h1 & m1 & h2 & h3 & m2 & h5 & h6 & up_y & m3 & contribution & rgb
        & _ & _ & _ & _ & _ & _ & _ & E8 & _ & _ & E11 & E12 & _ & _ & _ & G).
  exists (LeakyRelu_call (Up.a2 BlockSamples.up_block) h6), up_y, contribution, rgb.
  repeat (split; [assumption|]). apply G; lia.
Defined.

(** C8 (end-to-end shapes): an initial block with Cin = Cout = 512 on two
    style vectors of dimension 512 returns a feature map of shape
    (2, 512, 4, 4) and an accumulator of shape (2, 3, 4, 4); an upsampling
    block with Cout = 256 on that output and two style vectors returns shapes
    (2, 256, 8, 8) and (2, 3, 8, 8), whatever the parameters, the styles and
    the noise. *)
Theorem end_to_end_shapes
  (c1f : nat -> R) (q1 : conv_params) (k1f : nat -> R) (slope0 : R)
  (qrgb : conv_params)
  (p1 : conv_params) (n1f : nat -> R) (slope1 : R)
  (p2 : conv_params) (n2f : nat -> R) (slope2 : R) (prgb : conv_params)
  (z0 z1 z2 : nat -> R) (style style' : nat -> R) :
  exists feature rgb feature' rgb',
    Init.call (Init.init 512 512 512 c1f q1 k1f slope0 qrgb) z0
      (of_fun [2; 512] style) = Some (feature, rgb) /\
    shape feature = [2; 512; 4; 4] /\
    shape rgb = [2; 3; 4; 4] /\
    Up.call (Up.init 512 512 256 p1 n1f slope1 p2 n2f slope2 prgb) z1 z2
      feature rgb (of_fun [2; 512] style') = Some (feature', rgb') /\
    shape feature' = [2; 256; 8; 8] /\
    shape rgb' = [2; 3; 8; 8].
Proof.
  destruct (initial_block_run 512 512 512 c1f q1 k1f slope0 qrgb z0
              (of_fun [2; 512] style) 2 eq_refl Nat.lt_0_2)
    as (h2 & m1 & h3 & h4 & m2 & rgb & _ & _ & _ & _ & _ & _ & E & S4 & _ & Sr & _).
  set (feature := LeakyRelu_call _ h4) in E.
  destruct (skip_block_run 512 512 256 p1 n1f slope1 p2 n2f slope2 prgb z1 z2
              feature rgb (of_fun [2; 512] style') 2 4 4)
    as (a1 & b1 & a2 & a3 & b2 & a5 & a6 & up_y & b3 & contribution & rgb'
        & _ & _ & _ & _ & _ & _ & _ & _ & _ & _ & _ & E'
        & S6 & _ & _ & _ & Sr' & _);
    [exact S4 | exact Sr | reflexivity | lia | lia | lia |].
  exists feature, rgb. do 2 eexists.
  split; [exact E|]. split; [exact S4|]. split; [exact Sr|].
  split; [exact E'|]. split; [exact S6 | exact Sr'].
Qed.

(** C9 (one style vector per block): a call of the upsampling block takes
    one style tensor [w], and its result is the body of the block run with
    the three projections [s1(w)], [s2(w)], [s3(w)] of that same tensor. *)
Theorem one_style_vector (self : Up.t) (z1 z2 : nat -> R) (x y w : tensor) :
  Up.call self z1 z2 x y w =
  match SAT.call (Up.s1 self) w, SAT.call (Up.s2 self) w, SAT.call (Up.s3 self) w with
  | Some m1, Some m2, Some m3 => StyleUse.run self z1 z2 x y m1 m2 m3
  | _, _, _ => None
  end.
Proof.
  unfold Up.call, StyleUse.run.
  destruct (SAT.call (Up.s1 self) w) as [m1|];
    destruct (SAT.call (Up.s2 self) w) as [m2|];
    destruct (SAT.call (Up.s3 self) w) as [m3|];
    destruct (Upsampler.call x) as [h1|]; try reflexivity;
    try (destruct (WDC.call (Up.w1 self) h1 m1) as [h2|]; try reflexivity;
         destruct (NoiseAdder.call (Up.n1 self) z1 h2) as [h3|]; try reflexivity;
         try (destruct (WDC.call (Up.w2 self) (LeakyRelu_call (Up.a1 self) h3) m2)
                as [h5|]; try reflexivity;
              destruct (NoiseAdder.call (Up.n2 self) z2 h5) as [h6|]; try reflexivity;
              destruct (Upsampler.call y) as [up_y|]; reflexivity)).
Qed.

End BlockClaims.

(* ================================================================== *)
(** * More on the transfer functions and the 8-bit encoding *)
(* ================================================================== *)

Section TransferFacts.

Import Image.
Local Open Scope R_scope.

Lemma fpow_one (e : R) : fpow 1 e = 1.
Proof. unfold fpow, Rpower. now rewrite ln_1, Rmult_0_r, exp_0. Qed.

Lemma fpow_strict (a b e : R) : 0 < e -> 0 < a -> a < b -> fpow a e < fpow b e.
Proof. intros He Ha Hab. unfold fpow. apply Rlt_Rpower_l; lra. Qed.

(** Both transfer functions map the unit interval into itself and fix its
    ends. *)
Theorem gamma_unit_interval (u : R) :
  0 <= u <= 1 ->
  0 <= gamma_forward u <= 1 /\ 0 <= gamma_reverse u <= 1 /\
  gamma_forward 0 = 0 /\ gamma_forward 1 = 1 /\
  gamma_reverse 0 = 0 /\ gamma_reverse 1 = 1.
Proof.
  intros [H0 H1].
  split; [| split; [| split; [| split; [| split]]]].
  - destruct (Rle_lt_dec u 0.0031308) as [Hl | Hh].
    + rewrite gamma_forward_low by assumption. lra.
    + rewrite gamma_forward_high by assumption.
      assert (Hlo : 0.06 < fpow u (1 / 2.4)).
      { apply Rlt_le_trans with (fpow 0.0031308 (1 / 2.4)).
        - apply fpow_encode_gt; lra.
        - apply fpow_mono; lra. }
      assert (Hhi : fpow u (1 / 2.4) <= 1).
      { apply Rle_trans with (fpow 1 (1 / 2.4));
          [apply fpow_mono; lra | rewrite fpow_one; lra]. }
      lra.
  - destruct (Rle_lt_dec u 0.04045) as [Hl | Hh].
    + rewrite gamma_reverse_low by assumption. lra.
    + rewrite gamma_reverse_high by assumption.
      assert (Hpos := fpow_pos ((u + 0.055) / 1.055) 2.4).
      assert (Hhi : fpow ((u + 0.055) / 1.055) 2.4 <= 1).
      { apply Rle_trans with (fpow 1 2.4);
          [apply fpow_mono; lra | rewrite fpow_one; lra]. }
      lra.
  - rewrite gamma_forward_low by lra. lra.
  - rewrite gamma_forward_high by lra. rewrite fpow_one. lra.
  - rewrite gamma_reverse_low by lra. lra.
  - rewrite gamma_reverse_high by lra.
    replace ((1 + 0.055) / 1.055) with 1 by lra. apply fpow_one.
Qed.

Lemma gamma_unit_interval_witness :
  0 <= gamma_forward (1 / 2) <= 1 /\ 0 <= gamma_reverse (1 / 2) <= 1.
Proof.
  destruct (gamma_unit_interval (1 / 2)) as (Hf & Hr & _); [lra|].
  split; assumption.
Defined.

(** Decoding is strictly increasing: a brighter encoded sample is a
    brighter linear value, also across the threshold 0.04045. *)
Theorem gamma_reverse_increasing (a b : R) :
  0 <= a -> a < b -> gamma_reverse a < gamma_reverse b.
Proof.
  intros Ha Hab.
  destruct (Rle_lt_dec b 0.04045) as [Hb | Hb].
  - rewrite !gamma_reverse_low by lra. lra.
  - rewrite (gamma_reverse_high b Hb).
    destruct (Rle_lt_dec a 0.04045) as [Hl | Hh].
    + rewrite gamma_reverse_low by assumption.
      apply Rle_lt_trans with (0.04045 / 12.92); [lra|].
      apply Rlt_le_trans with (fpow ((0.04045 + 0.055) / 1.055) 2.4).
      * apply fpow_decode_gt; lra.
      * apply fpow_mono; lra.
    + rewrite (gamma_reverse_high a Hh). apply fpow_strict; lra.
Qed.

Lemma gamma_reverse_increasing_witness :
  gamma_reverse (1 / 100) < gamma_reverse (1 / 2).
Proof. apply gamma_reverse_increasing; lra. Defined.

(** Encoding is strictly increasing on each of its two segments, but it is
    not monotone: just above the threshold 0.0031308 it returns less than at
    the threshold. *)
Theorem gamma_forward_drops_at_threshold (a b : R) :
  a < b ->
  (0 <= a -> b <= 0.0031308 -> gamma_forward a < gamma_forward b) /\
  (0.0031308 < a -> gamma_forward a < gamma_forward b) /\
  (a = 0.0031308 -> b <= 0.003130801 -> gamma_forward b < gamma_forward a).
Proof.
  intros Hab. split; [| split].
  - intros Ha Hb. rewrite !gamma_forward_low by lra. lra.
  - intros Ha. rewrite !gamma_forward_high by lra.
    assert (H : fpow a (1 / 2.4) < fpow b (1 / 2.4)) by (apply fpow_strict; lra).
    lra.
  - intros -> Hb. rewrite (gamma_forward_low 0.0031308) by lra.
    rewrite (gamma_forward_high b) by lra.
    assert (H : fpow b (1 / 2.4) < (0.040449936 + 0.055) / 1.055).
    { apply Rle_lt_trans with (fpow 0.003130801 (1 / 2.4)).
      - apply fpow_mono; lra.
      - apply fpow_encode_lt; lra. }
    lra.
Qed.

Lemma gamma_forward_drops_at_threshold_witness :
  gamma_forward 0.003130801 < gamma_forward 0.0031308.
Proof.
  destruct (gamma_forward_drops_at_threshold 0.0031308 0.003130801) as (_ & _ & H);
    [lra|]. apply H; lra.
Defined.

Lemma rint_ge (x : R) (n : Z) : IZR n <= x -> (n <= rint x)%Z.
Proof.
  intros H. destruct (base_Int_part x) as [Hf1 Hf2].
  assert (Hn : (n <= Int_part x)%Z).
  { apply Z.lt_succ_r. apply lt_IZR. rewrite succ_IZR. lra. }
  unfold rint.
  destruct (Rlt_dec (x - IZR (Int_part x)) (1 / 2)); [lia|].
  destruct (Rlt_dec (1 / 2) (x - IZR (Int_part x))); [lia|].
  destruct (Z.even (Int_part x)); lia.
Qed.

Lemma rint_le (x : R) (n : Z) : x <= IZR n -> (rint x <= n)%Z.
Proof.
  intros H. destruct (base_Int_part x) as [Hf1 Hf2].
  assert (Hn : (Int_part x <= n)%Z) by (apply le_IZR; lra).
  unfold rint.
  destruct (Rlt_dec (x - IZR (Int_part x)) (1 / 2)) as [Hr | Hr]; [lia|].
  assert (Hlt : (Int_part x < n)%Z).
  { destruct (Z.eq_dec (Int_part x) n) as [E | E]; [| lia].
    exfalso. apply Hr. rewrite E. lra. }
  destruct (Rlt_dec (1 / 2) (x - IZR (Int_part x))); [lia|].
  destruct (Z.even (Int_part x)); lia.
Qed.

(** [to_pil_image] returns height x width x channel samples that are
    always 8-bit values; linear values of 1 or more saturate at 255 and
    values of 0 or less at 0. *)
Theorem to_pil_image_saturates (array : ndarray R) (i j k : nat) :
  dim0 (to_pil_image array) = dim1 array /\
  dim1 (to_pil_image array) = dim2 array /\
  dim2 (to_pil_image array) = dim0 array /\
  (0 <= elt (to_pil_image array) i j k <= 255)%Z /\
  (1 <= elt array k i j -> elt (to_pil_image array) i j k = 255%Z) /\
  (elt array k i j <= 0 -> elt (to_pil_image array) i j k = 0%Z).
Proof.
  split; [reflexivity|]. split; [reflexivity|]. split; [reflexivity|].
  cbn [to_pil_image transpose_120 vectorize rgb_to_srgb elt].
  set (v := elt array k i j).
  set (q := rint (gamma_forward v * 255)).
  assert (Hclip : (0 <= clip 0 255 q <= 255)%Z) by (unfold clip; lia).
  split; [| split].
  - unfold to_uint8. rewrite Z.mod_small; lia.
  - intros Hv.
    assert (Hq : (255 <= q)%Z).
    { apply rint_ge. rewrite gamma_forward_high by lra.
      assert (H1 : 1 <= fpow v (1 / 2.4)).
      { apply Rle_trans with (fpow 1 (1 / 2.4));
          [rewrite fpow_one; lra | apply fpow_mono; lra]. }
      lra. }
    unfold to_uint8, clip. rewrite Z.max_r, Z.min_l by lia. reflexivity.
  - intros Hv.
    assert (Hq : (q <= 0)%Z).
    { apply rint_le. rewrite gamma_forward_low by lra. lra. }
    unfold to_uint8, clip. rewrite Z.max_l, Z.min_r by lia. reflexivity.
Qed.

Lemma to_pil_image_saturates_witness :
  elt (to_pil_image (mk_ndarray 1 1 1 (fun _ _ _ => 2))) 0 0 0 = 255%Z /\
  elt (to_pil_image (mk_ndarray 1 1 1 (fun _ _ _ => -1))) 0 0 0 = 0%Z.
Proof.
  split.
  - apply (to_pil_image_saturates (mk_ndarray 1 1 1 (fun _ _ _ => 2)) 0 0 0).
    simpl. lra.
  - apply (to_pil_image_saturates (mk_ndarray 1 1 1 (fun _ _ _ => -1)) 0 0 0).
    simpl. lra.
Defined.

End TransferFacts.

(* ================================================================== *)
(** * Saving and loading again: the quantisation error *)
(* ================================================================== *)

Section QuantisationFacts.

Import Image.
Local Open Scope R_scope.

Lemma Rabs_bounds (x a : R) : Rabs x <= a -> - a <= x <= a.
Proof. unfold Rabs. destruct (Rcase_abs x); lra. Qed.

Lemma rint_close (x : R) : Rabs (IZR (rint x) - x) <= 1 / 2.
Proof.
  destruct (base_Int_part x) as [Hf1 Hf2]. unfold rint.
  destruct (Rlt_dec (x - IZR (Int_part x)) (1 / 2)) as [H1 | H1].
  - apply Rabs_le. lra.
  - destruct (Rlt_dec (1 / 2) (x - IZR (Int_part x))) as [H2 | H2].
    + rewrite plus_IZR. apply Rabs_le. lra.
    + destruct (Z.even (Int_part x)); [| rewrite plus_IZR]; apply Rabs_le; lra.
Qed.

(** Bernoulli's inequality for the exponent 12/5, on fifth roots. *)
Lemma bernoulli_poly (q : R) : 0 <= q -> 12 * q ^ 5 <= 5 * q ^ 12 + 7.
Proof.
  intros Hq.
  assert (H : 5 * q ^ 12 + 7 - 12 * q ^ 5
              = (q - 1) ^ 2 * (5 * q ^ 10 + 10 * q ^ 9 + 15 * q ^ 8 + 20 * q ^ 7
                               + 25 * q ^ 6 + 30 * q ^ 5 + 35 * q ^ 4 + 28 * q ^ 3
                               + 21 * q ^ 2 + 14 * q + 7)) by ring.
  assert (Hp : forall n, 0 <= q ^ n) by (intros n; now apply pow_le).
  assert (H2 : 0 <= (q - 1) ^ 2) by apply pow2_ge_0.
  assert (H3 : 0 <= 5 * q ^ 10 + 10 * q ^ 9 + 15 * q ^ 8 + 20 * q ^ 7
                    + 25 * q ^ 6 + 30 * q ^ 5 + 35 * q ^ 4 + 28 * q ^ 3
                    + 21 * q ^ 2 + 14 * q + 7).
  { pose proof (Hp 10%nat). pose proof (Hp 9%nat). pose proof (Hp 8%nat).
    pose proof (Hp 7%nat). pose proof (Hp 6%nat). pose proof (Hp 5%nat).
    pose proof (Hp 4%nat). pose proof (Hp 3%nat). pose proof (Hp 2%nat). lra. }
  assert (H4 := Rmult_le_pos _ _ H2 H3). lra.
Qed.

(** The tangent at 1 lies below [r ** 2.4]. *)
Lemma fpow_bernoulli (r : R) : 0 < r -> 1 + 2.4 * (r - 1) <= fpow r 2.4.
Proof.
  intros Hr.
  set (q := Rpower r (/ 5)).
  assert (Hq : 0 < q) by (unfold q, Rpower; apply exp_pos).
  assert (Hq5 : q ^ 5 = r).
  { unfold q. rewrite <- Rpower_pow by (unfold Rpower; apply exp_pos).
    rewrite Rpower_mult. replace (/ 5 * INR 5) with 1 by (simpl; lra).
    now apply Rpower_1. }
  assert (Hq12 : q ^ 12 = fpow r 2.4).
  { unfold q, fpow. rewrite <- Rpower_pow by (unfold Rpower; apply exp_pos).
    rewrite Rpower_mult. f_equal. simpl. lra. }
  assert (H := bernoulli_poly q (Rlt_le _ _ Hq)).
  rewrite Hq5, Hq12 in H. lra.
Qed.

Lemma fpow_le_self (t : R) : 0 < t <= 1 -> fpow t 2.4 <= t.
Proof.
  intros [Ht0 Ht1]. unfold fpow, Rpower.
  rewrite <- (exp_ln t Ht0) at 2.
  assert (Hln : ln t <= 0).
  { rewrite <- ln_1. destruct Ht1 as [Hlt | Heq].
    - left. apply ln_increasing; lra.
    - rewrite Heq. lra. }
  assert (Hle : 2.4 * ln t <= ln t) by nra.
  destruct Hle as [Hlt | Heq].
  - left. now apply exp_increasing.
  - rewrite Heq. lra.
Qed.

(** On (0,1] the power [t ** 2.4] grows at most 2.4 times as fast as
    [t]. *)
Lemma fpow_lipschitz (s t : R) :
  0 < s -> s <= t -> t <= 1 -> fpow t 2.4 - fpow s 2.4 <= 2.4 * (t - s).
Proof.
  intros Hs Hst Ht.
  assert (Ht0 : 0 < t) by lra.
  assert (Hr : 0 < s / t) by (apply Rdiv_lt_0_compat; lra).
  assert (Hb := fpow_bernoulli (s / t) Hr).
  assert (Hmul : fpow s 2.4 = fpow t 2.4 * fpow (s / t) 2.4).
  { rewrite <- fpow_mul by lra. f_equal. field. lra. }
  assert (Hp := fpow_pos t 2.4).
  assert (Hself := fpow_le_self t (conj Ht0 Ht)).
  set (P := fpow t 2.4) in *.
  assert (H1 : P * (1 + 2.4 * (s / t - 1)) <= fpow s 2.4).
  { rewrite Hmul. apply Rmult_le_compat_l; lra. }
  assert (H2 : P * (2.4 * (1 - s / t)) <= 2.4 * (t - s)).
  { replace (2.4 * (t - s)) with (t * (2.4 * (1 - s / t))) by (field; lra).
    apply Rmult_le_compat_r; [| lra].
    assert (s / t <= 1).
    { apply Rmult_le_reg_r with t; [lra|].
      unfold Rdiv. rewrite Rmult_assoc, Rinv_l by lra. lra. }
    lra. }
  lra.
Qed.

Lemma fpow_decode_lt (t b : R) :
  0 < t -> 0 < b -> t ^ 12 < b ^ 5 -> fpow t 2.4 < b.
Proof.
  intros Ht Hb H.
  rewrite (fpow_decode t Ht), <- (root5_pow5 b Hb).
  apply Rlt_Rpower_l; [lra|]. split; [now apply pow_lt | exact H].
Qed.

Lemma gamma_forward_unit (u : R) : 0 <= u <= 1 -> 0 <= gamma_forward u <= 1.
Proof.
  intros [H0 H1]. destruct (Rle_lt_dec u 0.0031308) as [Hl | Hh].
  - rewrite gamma_forward_low by assumption. lra.
  - rewrite gamma_forward_high by assumption.
    assert (Hlo : 0.06 < fpow u (1 / 2.4)).
    { apply Rlt_le_trans with (fpow 0.0031308 (1 / 2.4)).
      - apply fpow_encode_gt; lra.
      - apply fpow_mono; lra. }
    assert (Hhi : fpow u (1 / 2.4) <= 1).
    { apply Rle_trans with (fpow 1 (1 / 2.4));
        [apply fpow_mono; lra | rewrite fpow_one; lra]. }
    lra.
Qed.

Lemma gamma_reverse_unit (v : R) : 0 <= v <= 1 -> 0 <= gamma_reverse v <= 1.
Proof.
  intros [H0 H1]. destruct (Rle_lt_dec v 0.04045) as [Hl | Hh].
  - rewrite gamma_reverse_low by assumption. lra.
  - rewrite gamma_reverse_high by assumption.
    assert (Hpos := fpow_pos ((v + 0.055) / 1.055) 2.4).
    assert (Hhi : fpow ((v + 0.055) / 1.055) 2.4 <= 1).
    { apply Rle_trans with (fpow 1 2.4);
        [apply fpow_mono; lra | rewrite fpow_one; lra]. }
    lra.
Qed.

(** How much decoding can grow between two encoded values: never
    negative, at most the steepest slope [2.4 / 1.055] times the distance,
    plus the small jump at the threshold. *)
Lemma gamma_reverse_growth (a b : R) :
  0 <= a -> a <= b -> b <= 1 ->
  0 <= gamma_reverse b - gamma_reverse a
    <= 2.4 / 1.055 * (b - a) + 4 / 10 ^ 9.
Proof.
  intros Ha Hab Hb.
  assert (Hslope : 0 <= b - a) by lra.
  destruct (Rle_lt_dec b 0.04045) as [Hbl | Hbh].
  - rewrite !gamma_reverse_low by lra. lra.
  - rewrite (gamma_reverse_high b Hbh).
    set (tb := (b + 0.055) / 1.055).
    assert (Htb : 0 < tb <= 1) by (unfold tb; lra).
    destruct (Rle_lt_dec a 0.04045) as [Hal | Hah].
    + rewrite gamma_reverse_low by assumption.
      set (t0 := (0.04045 + 0.055) / 1.055).
      assert (Ht0 : 0 < t0 <= tb) by (unfold t0, tb; lra).
      assert (Hjump_lo : 0.04045 / 12.92 < fpow t0 2.4)
        by (apply fpow_decode_gt; unfold t0; lra).
      assert (Hjump_hi : fpow t0 2.4 < 0.003130808)
        by (apply fpow_decode_lt; unfold t0; lra).
      assert (Hmono : fpow t0 2.4 <= fpow tb 2.4) by (apply fpow_mono; lra).
      assert (Hlip := fpow_lipschitz t0 tb (proj1 Ht0) (proj2 Ht0) (proj2 Htb)).
      assert (Hd : tb - t0 = (b - 0.04045) / 1.055) by (unfold tb, t0; lra).
      rewrite Hd in Hlip. lra.
    + rewrite (gamma_reverse_high a Hah).
      set (ta := (a + 0.055) / 1.055).
      assert (Hta : 0 < ta <= tb) by (unfold ta, tb; lra).
      assert (Hmono : fpow ta 2.4 <= fpow tb 2.4) by (apply fpow_mono; lra).
      assert (Hlip := fpow_lipschitz ta tb (proj1 Hta) (proj2 Hta) (proj2 Htb)).
      assert (Hd : tb - ta = (b - a) / 1.055) by (unfold tb, ta; lra).
      rewrite Hd in Hlip. lra.
Qed.

(** Encoding and decoding a linear value in [0,1] gives it back, up to the
    gap of the thresholds. *)
Lemma reverse_forward_near (u : R) :
  0 <= u <= 1 -> Rabs (gamma_reverse (gamma_forward u) - u) <= 1 / 10 ^ 6.
Proof.
  intros [H0 H1].
  destruct (Rle_lt_dec u 0.0031308) as [Hl | Hh].
  { rewrite reverse_forward_low by lra. rewrite Rminus_diag, Rabs_R0. lra. }
  destruct (Rle_lt_dec 0.0031309 u) as [Hu | Hu].
  { rewrite reverse_forward_high by lra. rewrite Rminus_diag, Rabs_R0. lra. }
  rewrite (gamma_forward_high u Hh).
  set (g := 1.055 * fpow u (1 / 2.4) - 0.055).
  destruct (Rle_lt_dec g 0.04045) as [Hg | Hg].
  - rewrite gamma_reverse_low by assumption.
    assert (Hlo : 0.09047 < fpow u (1 / 2.4)).
    { apply Rlt_le_trans with (fpow 0.0031308 (1 / 2.4)).
      - apply fpow_encode_gt; lra.
      - apply fpow_mono; lra. }
    apply Rabs_le. unfold g in *. lra.
  - rewrite gamma_reverse_high by assumption. unfold g.
    replace ((1.055 * fpow u (1 / 2.4) - 0.055 + 0.055) / 1.055)
      with (fpow u (1 / 2.4)) by lra.
    rewrite fpow_decode_encode by lra. rewrite Rminus_diag, Rabs_R0. lra.
Qed.

(** One linear value saved as an 8-bit sample and loaded again. *)
Lemma pixel_save_load (fl : R -> R) (u : R) :
  rounds_to_nearest fl -> 0 <= u <= 1 ->
  Rabs (fl (gamma_reverse
             (IZR (to_uint8 (clip 0 255 (rint (gamma_forward u * 255)))) / 255)) - u)
    <= 0.0045.
Proof.
  intros Hfl Hu.
  assert (Hg := gamma_forward_unit u Hu).
  set (g := gamma_forward u) in *.
  set (q := rint (g * 255)).
  assert (Hq : (0 <= q <= 255)%Z).
  { split; [apply rint_ge | apply rint_le]; simpl; lra. }
  rewrite (clip_uint8_id q Hq).
  assert (Hclose := rint_close (g * 255)). fold q in Hclose.
  apply Rabs_bounds in Hclose.
  assert (Hq0 : 0 <= IZR q) by (apply IZR_le; lia).
  assert (Hq1 : IZR q <= 255) by (apply IZR_le; lia).
  set (v := IZR q / 255).
  assert (Hv : 0 <= v <= 1) by (unfold v; lra).
  assert (Hvg : - (1 / 510) <= v - g <= 1 / 510) by (unfold v; lra).
  assert (Hrange := gamma_reverse_unit v Hv).
  assert (Hnear := reverse_forward_near u Hu). fold g in Hnear.
  apply Rabs_bounds in Hnear.
  assert (Hround : - (1 / 10 ^ 7) <= fl (gamma_reverse v) - gamma_reverse v <= 1 / 10 ^ 7).
  { destruct (rounded_between fl (gamma_reverse v) Hfl (proj1 Hrange)). lra. }
  assert (Hdiff : - (2.4 / 1.055 * (1 / 510) + 4 / 10 ^ 9)
                  <= gamma_reverse v - gamma_reverse g
                  <= 2.4 / 1.055 * (1 / 510) + 4 / 10 ^ 9).
  { destruct (Rle_lt_dec g v) as [Hle | Hlt].
    - assert (H := gamma_reverse_growth g v (proj1 Hg) Hle (proj2 Hv)).
      assert (2.4 / 1.055 * (v - g) <= 2.4 / 1.055 * (1 / 510))
        by (apply Rmult_le_compat_l; lra). lra.
    - assert (H := gamma_reverse_growth v g (proj1 Hv) (Rlt_le _ _ Hlt) (proj2 Hg)).
      assert (2.4 / 1.055 * (g - v) <= 2.4 / 1.055 * (1 / 510))
        by (apply Rmult_le_compat_l; lra). lra. }
  apply Rabs_le. lra.
Qed.

End QuantisationFacts.

Section QuantisationClaims.

Import Image.
Local Open Scope R_scope.

(** Saving a linear-light array with values in [0,1] as an 8-bit image and
    loading that image at its own size gives an array of the same shape
    whose values differ from the original ones by at most 0.0045: half a
    level of the encoding seen through the steepest slope of the decoding. *)
Theorem load_save_quantisation (fl : R -> R) (array : ndarray R) :
  rounds_to_nearest fl ->
  (forall c h w, (c < dim0 array)%nat -> (h < dim1 array)%nat -> (w < dim2 array)%nat ->
     0 <= elt array c h w <= 1) ->
  dim0 (load_image fl (to_pil_image array)) = dim0 array /\
  dim1 (load_image fl (to_pil_image array)) = dim1 array /\
  dim2 (load_image fl (to_pil_image array)) = dim2 array /\
  forall c h w, (c < dim0 array)%nat -> (h < dim1 array)%nat -> (w < dim2 array)%nat ->
    Rabs (elt (load_image fl (to_pil_image array)) c h w - elt array c h w) <= 0.0045.
Proof.
  intros Hfl Hrange. repeat split; try reflexivity.
  intros c h w Hc Hh Hw.
  apply (pixel_save_load fl (elt array c h w) Hfl). now apply Hrange.
Qed.

Lemma load_save_quantisation_witness :
  Rabs (elt (load_image (fun x => x)
               (to_pil_image (mk_ndarray 1 1 1 (fun _ _ _ => 1 / 2)))) 0 0 0 - 1 / 2)
    <= 0.0045.
Proof.
  apply (load_save_quantisation (fun x => x) (mk_ndarray 1 1 1 (fun _ _ _ => 1 / 2))
           exact_rounding_is_nearest); simpl; intros; try lia; lra.
Defined.

End QuantisationClaims.

(* ================================================================== *)
(** * More on the modulated convolution *)
(* ================================================================== *)

Section ConvolutionEdgeFacts.

Import Tensor.

Lemma bdim_none (a b : nat) : a <> b -> a <> 1 -> b <> 1 -> bdim a b = None.
Proof.
  intros Hab Ha Hb. unfold bdim.
  destruct (a =? b) eqn:E1; [apply Nat.eqb_eq in E1; contradiction|].
  destruct (a =? 1) eqn:E2; [apply Nat.eqb_eq in E2; contradiction|].
  destruct (b =? 1) eqn:E3; [apply Nat.eqb_eq in E3; contradiction|].
  reflexivity.
Qed.

Lemma reshape_none (t : tensor) (s : list nat) :
  size s <> size (shape t) -> reshape t s = None.
Proof.
  intros H. unfold reshape.
  destruct (size s =? size (shape t)) eqn:E; [apply Nat.eqb_eq in E; contradiction|].
  reflexivity.
Qed.

(** A feature map whose channel count differs from the one the layer was
    built for is rejected, whatever the modulation vector, unless the layer
    has a single input channel. *)
Theorem channel_mismatch_rejected (self : WDC.t) (x y : tensor)
  (B Cin Cout Cx H W : nat) :
  PerSample.layer_shapes self Cin Cout ->
  shape x = [B; Cx; H; W] ->
  Cx <> Cin -> Cin <> 1 -> 0 < B -> 0 < Cout ->
  WDC.call self x y = None.
Proof.
  intros (Hw & Hb & Hk) Hx Hne Hc1 HB HCout.
  unfold WDC.call. rewrite Hb, Hx.
  destruct (reshape y [B; 1; Cx; 1; 1]) as [y5|] eqn:Ey; [|reflexivity].
  apply reshape_inv in Ey as [-> _].
  set (K := WDC.ksize self) in *.
  assert (HK : 0 < K) by lia.
  destruct (Nat.eq_dec Cx 1) as [-> | Hx1].
  - (* the modulation broadcasts over the input channels of the kernel *)
    assert (Hmul : exists f,
              mul (WDC.w self) (mk_tensor [B; 1; 1; 1; 1] (data y))
              = Some (build [B; Cout; Cin; K; K] f)).
    { unfold mul. erewrite broadcast2_some.
      2:{ rewrite Hw. unfold broadcast_shapes. cbn [shape rev app bshape_rev].
          rewrite !bdim_one_r. reflexivity. }
      eauto. }
    destruct Hmul as (f & ->).
    assert (Hw' : exists g,
              (if WDC.demod self
               then WDC.demodulate WDC.epsilon (build [B; Cout; Cin; K; K] f)
               else Some (build [B; Cout; Cin; K; K] f))
              = Some (build [B; Cout; Cin; K; K] g)).
    { destruct (WDC.demod self); [| eauto].
      erewrite demodulate_elements; [| apply build_shape | apply build_well_formed].
      eauto. }
    destruct Hw' as (g & ->).
    rewrite reshape_none; [reflexivity|].
    cbn [build shape size fold_right].
    assert (Hpos : 0 < B * Cout * K * K) by (repeat apply Nat.mul_pos_pos; lia).
    destruct Cin as [| [| c]]; [nia | contradiction | nia].
  - unfold mul, broadcast2.
    replace (broadcast_shapes (shape (WDC.w self))
               (shape (mk_tensor [B; 1; Cx; 1; 1] (data y)))) with (@None (list nat));
      [reflexivity|].
    rewrite Hw. unfold broadcast_shapes. cbn [shape rev app bshape_rev].
    rewrite !bdim_one_r. rewrite bdim_none by auto. reflexivity.
Qed.

Lemma channel_mismatch_rejected_witness :
  WDC.call Samples.layer (Samples.full [1; 3; 2; 2] 1) (Samples.full [1; 3] 1) = None.
Proof.
  apply (channel_mismatch_rejected Samples.layer _ _ 1 2 1 3 2 2);
    try reflexivity; try lia.
  apply init_layer_shapes.
Defined.



(** Edge replication keeps flat regions flat: when every channel of every
    sample of the feature map is constant over the image, so is every
    channel of the output, up to the border. *)
Theorem constant_map_stays_constant (self : WDC.t) (x y : tensor)
  (B Cin Cout H W : nat) :
  PerSample.layer_shapes self Cin Cout ->
  shape x = [B; Cin; H; W] -> shape y = [B; Cin] ->
  0 < B -> 0 < H -> 0 < W ->
  (forall b ci i j, b < B -> ci < Cin -> i < H -> j < W ->
     get x [b; ci; i; j] = get x [b; ci; 0; 0]) ->
  exists out,
    WDC.call self x y = Some out /\
    forall b o i j, b < B -> o < Cout -> i < H -> j < W ->
      get out [b; o; i; j] = get out [b; o; 0; 0].
Proof.
  intros HL Hx Hy HB HH HW Hconst.
  eexists. split; [apply (call_per_sample self x y B Cin Cout H W); auto|].
  intros b o i j Hb Ho Hi Hj.
  rewrite !get_build by inb.
  unfold PerSample.conv, PerSample.conv_with, PerSample.padded. f_equal.
  apply sum_n_ext; intros ci Hci. apply sum_n_ext; intros u Hu.
  apply sum_n_ext; intros v Hv. f_equal.
  rewrite (Hconst b ci (Nat.min (i + u - WDC.pad self) (H - 1))
             (Nat.min (j + v - WDC.pad self) (W - 1))) by lia.
  rewrite (Hconst b ci (Nat.min (0 + u - WDC.pad self) (H - 1))
             (Nat.min (0 + v - WDC.pad self) (W - 1))) by lia.
  reflexivity.
Qed.

Lemma constant_map_stays_constant_witness :
  exists out,
    WDC.call Samples.layer (Samples.full [1; 2; 3; 3] 5) (Samples.full [1; 2] 1)
      = Some out /\
    get out [0; 0; 2; 1] = get out [0; 0; 0; 0].
Proof.
  destruct (constant_map_stays_constant Samples.layer
              (Samples.full [1; 2; 3; 3] 5) (Samples.full [1; 2] 1) 1 2 1 3 3)
    as (out & Hc & Hg); try reflexivity; try lia.
  - apply init_layer_shapes.
  - intros b ci i j Hb Hci Hi Hj. unfold Samples.full.
    rewrite !get_of_fun by inb. reflexivity.
  - exists out. split; [exact Hc|]. apply Hg; lia.
Defined.

(** The RGB projection is a per-pixel linear map: output channel [c] at a
    pixel is the sum over the input channels of weight times modulation
    times the feature at that same pixel, plus the bias of [c]; the output
    has 3 channels and the size of the input. *)
Theorem to_rgb_is_pointwise (in_channels : nat) (wf bf : nat -> R)
  (x y : tensor) (B H W : nat) :
  shape x = [B; in_channels; H; W] -> shape y = [B; in_channels] ->
  0 < B -> 0 < H -> 0 < W ->
  exists out,
    ToRGB.call (ToRGB.init in_channels wf bf) x y = Some out /\
    shape out = [B; 3; H; W] /\
    forall b c i j, b < B -> c < 3 -> i < H -> j < W ->
      get out [b; c; i; j]
      = Rplus (sum_n in_channels (fun ci =>
                 Rmult (get x [b; ci; i; j])
                       (Rmult (wf (c * in_channels + ci)) (get y [b; ci]))))
              (bf c).
Proof.
  intros Hx Hy HB HH HW.
  eexists. split; [| split].
  - unfold ToRGB.call.
    apply (call_per_sample _ x y B in_channels 3 H W); auto.
    apply to_rgb_layer_shapes.
  - reflexivity.
  - intros b c i j Hb Hc Hi Hj.
    rewrite get_build by inb.
    unfold PerSample.conv, PerSample.conv_with, PerSample.padded, PerSample.weight,
      PerSample.modulated.
    cbn [ToRGB.init ToRGB.w WDC.init WDC.demod WDC.ksize WDC.pad WDC.w WDC.b].
    f_equal.
    + apply sum_n_ext; intros ci Hci.
      unfold sum_n. cbn [seq map fold_right].
      rewrite !Rplus_0_r, !Nat.add_0_r, !Nat.sub_0_r.
      rewrite !Nat.min_l by lia.
      rewrite get_of_fun by inb. f_equal. f_equal. f_equal.
      cbn [ravel size fold_right]. lia.
    + rewrite get_of_fun by inb. f_equal. cbn [ravel size fold_right]. lia.
Qed.

Lemma to_rgb_is_pointwise_witness :
  exists out,
    ToRGB.call (ToRGB.init 2 (fun _ => 1%R) (fun _ => 0%R))
      (Samples.full [1; 2; 2; 2] 3) (Samples.full [1; 2] 1) = Some out /\
    shape out = [1; 3; 2; 2].
Proof.
  destruct (to_rgb_is_pointwise 2 (fun _ => 1%R) (fun _ => 0%R)
              (Samples.full [1; 2; 2; 2] 3) (Samples.full [1; 2] 1) 1 2 2)
    as (out & Hc & Hs & _); try reflexivity; try lia.
  exists out. split; assumption.
Defined.

End ConvolutionEdgeFacts.

(* ================================================================== *)
(** * More on the noise layer and the upsampler *)
(* ================================================================== *)

Section NoiseAndUpsampleFacts.

Import Tensor Common PerSampleLayers.

(** The noise layer keeps the shape of its input and adds to the element
    at channel [c] and pixel [(i, j)] of sample [b] the draw of that sample
    and pixel, the same for every channel, times the magnitude of [c]. *)
Theorem noise_shared_across_channels (channels : nat) (sf z : nat -> R)
  (x : tensor) (B H W : nat) :
  shape x = [B; channels; H; W] ->
  exists out,
    NoiseAdder.call (NoiseAdder.init channels sf) z x = Some out /\
    shape out = [B; channels; H; W] /\
    forall b c i j, b < B -> c < channels -> i < H -> j < W ->
      get out [b; c; i; j]
      = Rplus (get x [b; c; i; j]) (Rmult (z (b * (H * W) + (i * W + j))) (sf c)).
Proof.
  intros Hx. eexists. split; [| split].
  - apply (noise_some _ z x B channels H W); [reflexivity | exact Hx].
  - reflexivity.
  - intros b c i j Hb Hc Hi Hj. rewrite get_build by inb.
    f_equal. f_equal. cbn [NoiseAdder.init NoiseAdder.s].
    rewrite get_of_fun by inb. f_equal. cbn [ravel size fold_right]. lia.
Qed.

Lemma noise_shared_across_channels_witness :
  exists out,
    NoiseAdder.call (NoiseAdder.init 2 (fun _ => 1%R)) (fun _ => 3%R)
      (Samples.full [1; 2; 1; 1] 0) = Some out /\
    shape out = [1; 2; 1; 1].
Proof.
  destruct (noise_shared_across_channels 2 (fun _ => 1%R) (fun _ => 3%R)
              (Samples.full [1; 2; 1; 1] 0) 1 1 1 eq_refl)
    as (out & Hc & Hs & _).
  exists out. split; assumption.
Defined.

(** With the magnitudes at their initial value zero the noise layer
    returns its input, whatever is drawn. *)
Theorem untrained_noise_is_identity (channels : nat) (z : nat -> R)
  (x : tensor) (B H W : nat) :
  shape x = [B; channels; H; W] -> well_formed x ->
  NoiseAdder.call (NoiseAdder.init channels (fun _ => 0%R)) z x = Some x.
Proof.
  intros Hx Hwf.
  rewrite (noise_some _ z x B channels H W) by (reflexivity || exact Hx).
  f_equal. apply tensor_ext.
  - apply build_well_formed.
  - exact Hwf.
  - now rewrite Hx.
  - intros idx Hidx. rewrite build_shape in Hidx. rewrite get_build by exact Hidx.
    inb_inv Hidx. cbn [NoiseAdder.init NoiseAdder.s].
    rewrite get_of_fun by inb. lra.
Qed.

Lemma untrained_noise_is_identity_witness :
  NoiseAdder.call (NoiseAdder.init 2 (fun _ => 0%R)) (fun _ => 3%R)
    (Samples.full [1; 2; 1; 1] 7) = Some (Samples.full [1; 2; 1; 1] 7).
Proof.
  apply (untrained_noise_is_identity 2 (fun _ => 3%R)
           (Samples.full [1; 2; 1; 1] 7) 1 1 1 eq_refl).
  apply of_fun_well_formed.
Defined.

(** The weight of the upper row or right column in a resampling is a
    fraction in [0, 1). *)
Lemma source_weight_unit (n_in n_out i : nat) :
  0 < n_out ->
  (0 <= snd (F.source_position n_in n_out i) < 1)%R.
Proof.
  intros Hn. unfold F.source_position. cbn [snd].
  assert (Hden : (0 < INR (2 * n_out))%R) by (apply lt_0_INR; lia).
  set (m := ((2 * i + 1) * n_in - n_out) mod (2 * n_out)).
  assert (Hm : m < 2 * n_out) by (apply Nat.mod_upper_bound; lia).
  split.
  - apply Rmult_le_pos; [apply pos_INR | left; now apply Rinv_0_lt_compat].
  - apply Rmult_lt_reg_r with (INR (2 * n_out)); [exact Hden|].
    unfold Rdiv. rewrite Rmult_assoc, Rinv_l, Rmult_1_r, Rmult_1_l by lra.
    now apply lt_INR.
Qed.

(** On an array with no empty axis the upsampler doubles height and width
    and never leaves the range of its input: every output element is a
    weighted mean of input elements of the same sample and channel. *)
Theorem upsampler_doubles_within_range (x : tensor) (B C H W : nat) (lo hi : R) :
  shape x = [B; C; H; W] -> 0 < B -> 0 < C -> 0 < H -> 0 < W ->
  (forall b c i j, b < B -> c < C -> i < H -> j < W ->
     (lo <= get x [b; c; i; j] <= hi)%R) ->
  exists out,
    Upsampler.call x = Some out /\
    shape out = [B; C; H * 2; W * 2] /\
    forall b c i j, b < B -> c < C -> i < H * 2 -> j < W * 2 ->
      (lo <= get out [b; c; i; j] <= hi)%R.
Proof.
  intros Hx HB HC HH HW Hrange.
  eexists. split; [apply (upsample_some x B C H W Hx HH HW)|].
  split; [reflexivity|].
  intros b c i j Hb Hc Hi Hj. rewrite get_build by inb.
  unfold upsample.
  destruct (source_position_in_range H i HH Hi) as [Hv0 Hv1].
  destruct (source_position_in_range W j HW Hj) as [Hu0 Hu1].
  assert (Hvw := source_weight_unit H (H * 2) i ltac:(lia)).
  assert (Huw := source_weight_unit W (W * 2) j ltac:(lia)).
  destruct (F.source_position H (H * 2) i) as [[v0 v1] vw].
  destruct (F.source_position W (W * 2) j) as [[u0 u1] uw].
  cbn [fst snd] in *.
  assert (H00 := Hrange b c v0 u0 Hb Hc Hv0 Hu0).
  assert (H01 := Hrange b c v0 u1 Hb Hc Hv0 Hu1).
  assert (H10 := Hrange b c v1 u0 Hb Hc Hv1 Hu0).
  assert (H11 := Hrange b c v1 u1 Hb Hc Hv1 Hu1).
  set (a00 := get x [b; c; v0; u0]) in *. set (a01 := get x [b; c; v0; u1]) in *.
  set (a10 := get x [b; c; v1; u0]) in *. set (a11 := get x [b; c; v1; u1]) in *.
  assert (Hrow0 : (lo <= (1 - uw) * a00 + uw * a01 <= hi)%R) by nra.
  assert (Hrow1 : (lo <= (1 - uw) * a10 + uw * a11 <= hi)%R) by nra.
  set (r0 := ((1 - uw) * a00 + uw * a01)%R) in *.
  set (r1 := ((1 - uw) * a10 + uw * a11)%R) in *.
  replace ((1 - vw) * (1 - uw) * a00 + (1 - vw) * uw * a01
           + vw * (1 - uw) * a10 + vw * uw * a11)%R
    with ((1 - vw) * r0 + vw * r1)%R by (unfold r0, r1; ring).
  nra.
Qed.

Lemma upsampler_doubles_within_range_witness :
  exists out,
    Upsampler.call (of_fun [1; 2; 2; 3] INR) = Some out /\
    shape out = [1; 2; 4; 6] /\
    (0 <= get out [O; 1%nat; 3%nat; 4%nat] <= 11)%R.
Proof.
  destruct (upsampler_doubles_within_range (of_fun [1; 2; 2; 3] INR) 1 2 2 3 0 11)
    as (out & Hc & Hs & Hr); try reflexivity; try lia.
  - intros b c i j Hb Hc Hi Hj.
    rewrite get_of_fun by inb.
    destruct b as [|b]; [|lia].
    destruct c as [|[|c]]; [| |lia];
      (destruct i as [|[|i]]; [| |lia]);
      (destruct j as [|[|[|j]]]; [| | |lia]); simpl; lra.
  - exists out. split; [exact Hc|]. split; [exact Hs|]. apply Hr; lia.
Defined.

End NoiseAndUpsampleFacts.

(* ================================================================== *)
(** * More on the synthesis blocks *)
(* ================================================================== *)

Section BlockEdgeFacts.

Import Tensor Common PerSampleLayers.

(** The initial block returns a 4x4 feature map with [out_channels]
    channels and a 4x4 three-channel image for every batch size, style
    dimension and channel configuration. *)
Theorem initial_block_is_4x4 (size Cin Cout : nat)
  (c1f : nat -> R) (p1 : conv_params) (n1f : nat -> R) (slope1 : R)
  (prgb : conv_params) (z1 : nat -> R) (w : tensor) (B : nat) :
  shape w = [B; size] -> 0 < B ->
  exists feature rgb,
    Init.call (Init.init size Cin Cout c1f p1 n1f slope1 prgb) z1 w
      = Some (feature, rgb) /\
    shape feature = [B; Cout; 4; 4] /\ shape rgb = [B; 3; 4; 4] /\
    well_formed feature /\ well_formed rgb.
Proof.
  intros Hw HB.
  destruct (initial_block_run size Cin Cout c1f p1 n1f slope1 prgb z1 w B Hw HB)
    as (h2 & m1 & h3 & h4 & m2 & rgb & _ & _ & _ & _ & _ & _ & E & S4 & W4 & Sr & Wr).
  do 2 eexists. split; [exact E|].
  split; [exact S4|]. split; [exact Sr|].
  split; [now apply tmap_well_formed | exact Wr].
Qed.

Lemma initial_block_is_4x4_witness :
  exists feature rgb,
    Init.call BlockSamples.initial_block BlockSamples.zero_noise (Samples.full [3; 1] 1)
      = Some (feature, rgb) /\
    shape feature = [3; 1; 4; 4] /\ shape rgb = [3; 3; 4; 4].
Proof.
  destruct (initial_block_is_4x4 1 1 1 (fun _ => 1%R) BlockSamples.params
              (fun _ => 0%R) (1 / 5) BlockSamples.params BlockSamples.zero_noise
              (Samples.full [3; 1] 1) 3 eq_refl)
    as (feature & rgb & E & Sf & Sr & _); [lia|].
  exists feature, rgb. repeat split; assumption.
Defined.

(** Blocks chain: the outputs of an upsampling block are accepted by a
    next block built for its number of output channels, and two blocks in a
    row return a feature map and an image of four times the height and
    width. *)
Theorem upsampling_blocks_chain (size Cin Cmid Cout : nat)
  (p1 : conv_params) (n1f : nat -> R) (slope1 : R)
  (p2 : conv_params) (n2f : nat -> R) (slope2 : R) (prgb : conv_params)
  (p1' : conv_params) (n1f' : nat -> R) (slope1' : R)
  (p2' : conv_params) (n2f' : nat -> R) (slope2' : R) (prgb' : conv_params)
  (z1 z2 z1' z2' : nat -> R) (x y w w' : tensor) (B H W : nat) :
  shape x = [B; Cin; H; W] -> shape y = [B; 3; H; W] ->
  shape w = [B; size] -> shape w' = [B; size] ->
  0 < B -> 0 < H -> 0 < W ->
  exists f1 r1 f2 r2,
    Up.call (Up.init size Cin Cmid p1 n1f slope1 p2 n2f slope2 prgb) z1 z2 x y w
      = Some (f1, r1) /\
    shape f1 = [B; Cmid; H * 2; W * 2] /\ shape r1 = [B; 3; H * 2; W * 2] /\
    Up.call (Up.init size Cmid Cout p1' n1f' slope1' p2' n2f' slope2' prgb')
      z1' z2' f1 r1 w' = Some (f2, r2) /\
    shape f2 = [B; Cout; H * 2 * 2; W * 2 * 2] /\
    shape r2 = [B; 3; H * 2 * 2; W * 2 * 2].
Proof.
  intros Hx Hy Hw Hw' HB HH HW.
  destruct (skip_block_run size Cin Cmid p1 n1f slope1 p2 n2f slope2 prgb
              z1 z2 x y w B H W Hx Hy Hw HB HH HW)
    as (a1 & b1 & a2 & a3 & b2 & a5 & a6 & up_y & b3 & contribution & r1
        & _ & _ & _ & _ & _ & _ & _ & _ & _ & _ & _ & E
        & S6 & _ & _ & _ & Sr & _).
  set (f1 := LeakyRelu_call _ a6) in E.
  destruct (skip_block_run size Cmid Cout p1' n1f' slope1' p2' n2f' slope2' prgb'
              z1' z2' f1 r1 w' B (H * 2) (W * 2))
    as (c1 & d1 & c2 & c3 & d2 & c5 & c6 & up_y' & d3 & contribution' & r2
        & _ & _ & _ & _ & _ & _ & _ & _ & _ & _ & _ & E'
        & S6' & _ & _ & _ & Sr' & _);
    [exact S6 | exact Sr | exact Hw' | lia | lia | lia |].
  exists f1, r1. do 2 eexists.
  split; [exact E|]. split; [exact S6|]. split; [exact Sr|].
  split; [exact E'|]. split; [exact S6' | exact Sr'].
Qed.

Lemma upsampling_blocks_chain_witness :
  exists f1 r1 f2 r2,
    Up.call BlockSamples.up_block BlockSamples.zero_noise BlockSamples.zero_noise
      (Samples.full [1; 1; 1; 1] 1) (Samples.full [1; 3; 1; 1] 0) (Samples.full [1; 1] 1)
      = Some (f1, r1) /\
    Up.call BlockSamples.up_block BlockSamples.zero_noise BlockSamples.zero_noise
      f1 r1 (Samples.full [1; 1] 1) = Some (f2, r2) /\
    shape f2 = [1; 1; 4; 4] /\ shape r2 = [1; 3; 4; 4].
Proof.
  destruct (upsampling_blocks_chain 1 1 1 1
              BlockSamples.params (fun _ => 0%R) (1 / 5)
              BlockSamples.params (fun _ => 0%R) (1 / 5) BlockSamples.params
              BlockSamples.params (fun _ => 0%R) (1 / 5)
              BlockSamples.params (fun _ => 0%R) (1 / 5) BlockSamples.params
              BlockSamples.zero_noise BlockSamples.zero_noise
              BlockSamples.zero_noise BlockSamples.zero_noise
              (Samples.full [1; 1; 1; 1] 1) (Samples.full [1; 3; 1; 1] 0)
              (Samples.full [1; 1] 1) (Samples.full [1; 1] 1) 1 1 1
              eq_refl eq_refl eq_refl eq_refl)
    as (f1 & r1 & f2 & r2 & E & _ & _ & E' & Sf & Sr); [lia | lia | lia |].
  exists f1, r1, f2, r2. repeat split; assumption.
Defined.

Lemma add_incompatible (a b : tensor) :
  broadcast_shapes (shape a) (shape b) = None -> add a b = None.
Proof. intros H. unfold add, broadcast2. now rewrite H. Qed.

Lemma doubled_sizes_incompatible (B H W H' W' : nat) :
  0 < H -> 0 < W -> 0 < H' -> 0 < W' -> H' <> H \/ W' <> W ->
  broadcast_shapes [B; 3; H' * 2; W' * 2] [B; 3; H * 2; W * 2] = None.
Proof.
  intros HH HW HH' HW' Hne. unfold broadcast_shapes. cbn [rev app bshape_rev].
  destruct (Nat.eq_dec W' W) as [-> | HWne].
  - assert (HHne : H' <> H) by (destruct Hne; congruence).
    rewrite bdim_same. rewrite (bdim_none (H' * 2) (H * 2)) by lia. reflexivity.
  - rewrite (bdim_none (W' * 2) (W * 2)) by lia. reflexivity.
Qed.

(** An RGB accumulator whose height or width differs from that of the
    feature map is rejected: its upsampling cannot be added to the RGB
    contribution of the block. *)
Theorem accumulator_size_mismatch_rejected (size Cin Cout : nat)
  (p1 : conv_params) (n1f : nat -> R) (slope1 : R)
  (p2 : conv_params) (n2f : nat -> R) (slope2 : R) (prgb : conv_params)
  (z1 z2 : nat -> R) (x y w : tensor) (B H W H' W' : nat) :
  shape x = [B; Cin; H; W] -> shape y = [B; 3; H'; W'] -> shape w = [B; size] ->
  0 < B -> 0 < H -> 0 < W -> 0 < H' -> 0 < W' ->
  H' <> H \/ W' <> W ->
  Up.call (Up.init size Cin Cout p1 n1f slope1 p2 n2f slope2 prgb) z1 z2 x y w = None.
Proof.
  intros Hx Hy Hw HB HH HW HH' HW' Hne.
  destruct (skip_block_run size Cin Cout p1 n1f slope1 p2 n2f slope2 prgb
              z1 z2 x (Samples.full [B; 3; H; W] 0) w B H W
              Hx eq_refl Hw HB HH HW)
    as (h1 & m1 & h2 & h3 & m2 & h5 & h6 & up0 & m3 & contribution & rgb0
        & E1 & E2 & E3 & E4 & E5 & E6 & E7 & _ & E9 & E10 & _ & _
        & _ & _ & _ & Sc & _).
  unfold Up.call. rewrite E1, E2, E3, E4, E5, E6, E7.
  rewrite (upsample_some y B 3 H' W' Hy HH' HW'), E9, E10.
  rewrite add_incompatible; [reflexivity|].
  rewrite Sc. cbn [build shape].
  now apply doubled_sizes_incompatible.
Qed.

Lemma accumulator_size_mismatch_rejected_witness :
  Up.call BlockSamples.up_block BlockSamples.zero_noise BlockSamples.zero_noise
    (Samples.full [1; 1; 1; 1] 1) (Samples.full [1; 3; 2; 2] 0) (Samples.full [1; 1] 1)
  = None.
Proof.
  apply (accumulator_size_mismatch_rejected 1 1 1
           BlockSamples.params (fun _ => 0%R) (1 / 5)
           BlockSamples.params (fun _ => 0%R) (1 / 5) BlockSamples.params
           BlockSamples.zero_noise BlockSamples.zero_noise
           (Samples.full [1; 1; 1; 1] 1) (Samples.full [1; 3; 2; 2] 0)
           (Samples.full [1; 1] 1) 1 1 1 2 2);
    try reflexivity; try lia.
Defined.

End BlockEdgeFacts.

(* ================================================================== *)
(** * Silent styles, silent noise and the sum of accumulators *)
(* ================================================================== *)

Section SilenceFacts.

Import Tensor Common PerSampleLayers.

(** A modulation vector that is entirely zero silences the layer: with or
    without demodulation the output is the bias of the channel at every
    pixel of every sample. *)
Theorem zero_modulation_gives_bias (self : WDC.t) (x y : tensor)
  (B Cin Cout H W : nat) :
  PerSample.layer_shapes self Cin Cout ->
  shape x = [B; Cin; H; W] -> shape y = [B; Cin] ->
  0 < B -> 0 < H -> 0 < W ->
  (forall b ci, b < B -> ci < Cin -> get y [b; ci] = 0%R) ->
  exists out,
    WDC.call self x y = Some out /\
    forall b o i j, b < B -> o < Cout -> i < H -> j < W ->
      get out [b; o; i; j] = get (WDC.b self) [o].
Proof.
  intros HL Hx Hy HB HH HW Hzero.
  eexists. split; [apply (call_per_sample self x y B Cin Cout H W); auto|].
  intros b o i j Hb Ho Hi Hj. rewrite get_build by inb.
  unfold PerSample.conv, PerSample.conv_with.
  rewrite sum_n_zero; [lra|].
  intros ci Hci. apply sum_n_zero; intros u _. apply sum_n_zero; intros v _.
  assert (Hm : PerSample.modulated self (fun ci' => get y [b; ci']) o ci u v = 0%R).
  { unfold PerSample.modulated. rewrite (Hzero b ci Hb Hci). ring. }
  unfold PerSample.weight, PerSample.demodulated.
  destruct (WDC.demod self); rewrite Hm; unfold Rdiv; ring.
Qed.

Lemma zero_modulation_gives_bias_witness :
  exists out,
    WDC.call Samples.layer (Samples.full [1; 2; 2; 2] 9) (Samples.full [1; 2] 0)
      = Some out /\
    get out [0; 0; 1; 1] = get (WDC.b Samples.layer) [0].
Proof.
  destruct (zero_modulation_gives_bias Samples.layer
              (Samples.full [1; 2; 2; 2] 9) (Samples.full [1; 2] 0) 1 2 1 2 2)
    as (out & Hc & Hg); try reflexivity; try lia.
  - apply init_layer_shapes.
  - intros b ci Hb Hci. unfold Samples.full. now rewrite get_of_fun by inb.
  - exists out. split; [exact Hc|]. apply Hg; lia.
Defined.

(** The upsampler is additive on arrays with no empty axis: upsampling a
    sum of two arrays of the same shape is adding their upsamplings, so the
    contributions summed in an accumulator can be upsampled one by one. *)
Theorem upsampler_is_additive (a b : tensor) (B C H W : nat) :
  shape a = [B; C; H; W] -> shape b = [B; C; H; W] ->
  0 < B -> 0 < C -> 0 < H -> 0 < W ->
  exists s ua ub us,
    add a b = Some s /\
    Upsampler.call a = Some ua /\ Upsampler.call b = Some ub /\
    Upsampler.call s = Some us /\
    add ua ub = Some us.
Proof.
  intros Ha Hb HB HC HH HW.
  pose proof (add_same_shape a b [B; C; H; W] Ha Hb) as Es.
  set (s := build [B; C; H; W] _) in Es.
  pose proof (upsample_some a B C H W Ha HH HW) as Ea.
  set (ua := build _ _) in Ea.
  pose proof (upsample_some b B C H W Hb HH HW) as Eb.
  set (ub := build _ _) in Eb.
  pose proof (upsample_some s B C H W eq_refl HH HW) as Eu.
  set (us := build _ _) in Eu.
  exists s, ua, ub, us. repeat (split; [assumption|]).
  rewrite (add_same_shape ua ub [B; C; H * 2; W * 2] eq_refl eq_refl).
  f_equal. apply build_ext. intros idx Hidx. inb_inv Hidx.
  unfold ua, ub. rewrite !get_build by inb. unfold upsample.
  destruct (source_position_in_range H i1 HH Hi1) as [Hv0 Hv1].
  destruct (source_position_in_range W i2 HW Hi2) as [Hu0 Hu1].
  destruct (F.source_position H (H * 2) i1) as [[v0 v1] vw].
  destruct (F.source_position W (W * 2) i2) as [[u0 u1] uw].
  cbn [fst snd] in *.
  unfold s. rewrite !get_build by inb. ring.
Qed.

Lemma upsampler_is_additive_witness :
  exists s ua ub us,
    add (of_fun [2; 2; 2; 3] INR)
        (of_fun [2; 2; 2; 3] (fun q => (INR q * INR q)%R)) = Some s /\
    Upsampler.call (of_fun [2; 2; 2; 3] INR) = Some ua /\
    Upsampler.call (of_fun [2; 2; 2; 3] (fun q => (INR q * INR q)%R)) = Some ub /\
    Upsampler.call s = Some us /\
    add ua ub = Some us.
Proof.
  apply (upsampler_is_additive (of_fun [2; 2; 2; 3] INR)
           (of_fun [2; 2; 2; 3] (fun q => (INR q * INR q)%R)) 2 2 2 3);
    try reflexivity; lia.
Defined.

(** The output of the layer is a well-formed array. *)
Lemma call_well_formed (self : WDC.t) (x y out : tensor) :
  WDC.call self x y = Some out -> well_formed out.
Proof.
  unfold WDC.call.
  destruct (shape (WDC.b self)) as [| oc rest]; [discriminate|].
  destruct (shape x) as [| b [| c [| h [| w [|]]]]]; try discriminate.
  destruct (reshape y [b; 1; c; 1; 1]) as [y5|]; [|discriminate].
  destruct (mul (WDC.w self) y5) as [mod_w|]; [|discriminate].
  destruct (if WDC.demod self then WDC.demodulate WDC.epsilon mod_w else Some mod_w)
    as [w'|]; [|discriminate].
  destruct (reshape w' _) as [gw|]; [|discriminate].
  destruct (reshape x _) as [gx|]; [|discriminate].
  destruct (F.pad gx _) as [pgx|]; [|discriminate].
  destruct (F.convolution_2d pgx gw b) as [hh|]; [|discriminate].
  destruct (reshape hh _) as [h4|]; [|discriminate].
  destruct (reshape (WDC.b self) _) as [b4|]; [|discriminate].
  unfold add, broadcast2.
  destruct (broadcast_shapes (shape h4) (shape b4)); [|discriminate].
  intros E. injection E as <-. apply build_well_formed.
Qed.

(** With all magnitudes zero a noise layer does the same for every draw. *)
Lemma silent_noise (channels : nat) (z z' : nat -> R) (x : tensor) :
  well_formed x ->
  NoiseAdder.call (NoiseAdder.init channels (fun _ => 0%R)) z x
  = NoiseAdder.call (NoiseAdder.init channels (fun _ => 0%R)) z' x.
Proof.
  intros Hwf.
  destruct (shape x) as [| b [| c [| h [| w [|]]]]] eqn:Hx;
    try (unfold NoiseAdder.call; rewrite Hx; reflexivity).
  destruct (Nat.eq_dec c channels) as [-> | Hne].
  - assert (Hid : forall d,
              NoiseAdder.call (NoiseAdder.init channels (fun _ => 0%R)) d x = Some x).
    { intros d.
      rewrite (noise_some _ d x b channels h w) by (reflexivity || exact Hx).
      f_equal. apply tensor_ext.
      - apply build_well_formed.
      - exact Hwf.
      - now rewrite Hx.
      - intros idx Hidx. rewrite build_shape in Hidx. rewrite get_build by exact Hidx.
        inb_inv Hidx. cbn [NoiseAdder.init NoiseAdder.s].
        rewrite get_of_fun by inb. lra. }
    now rewrite !Hid.
  - assert (Hnone : forall d,
              NoiseAdder.call (NoiseAdder.init channels (fun _ => 0%R)) d x = None).
    { intros d. unfold NoiseAdder.call. rewrite Hx.
      unfold F.broadcast_to, GaussianDistribution_call.
      replace (broadcast_shapes (shape (of_fun [b; 1; h; w] d)) [b; c; h; w])
        with (Some [b; c; h; w]).
      2:{ unfold broadcast_shapes. cbn [of_fun shape rev app bshape_rev].
          rewrite !bdim_same, !bdim_one_l. reflexivity. }
      rewrite shape_eqb_refl.
      unfold F.scale. cbn [build shape NoiseAdder.init NoiseAdder.s of_fun].
      replace (c =? channels) with false by (symmetry; now apply Nat.eqb_neq).
      reflexivity. }
    now rewrite !Hnone.
Qed.

(** A block whose noise magnitudes are all zero, as [__init__] leaves
    them, returns the same outputs whatever the noise draws are; this holds
    for the upsampling block and for the initial block. *)
Theorem untrained_block_ignores_noise (size Cin Cout : nat)
  (c1f : nat -> R) (p1 : conv_params) (slope1 : R) (p2 : conv_params) (slope2 : R)
  (prgb : conv_params) (z1 z2 z1' z2' : nat -> R) (x y w : tensor) :
  Up.call (Up.init size Cin Cout p1 (fun _ => 0%R) slope1
             p2 (fun _ => 0%R) slope2 prgb) z1 z2 x y w
  = Up.call (Up.init size Cin Cout p1 (fun _ => 0%R) slope1
               p2 (fun _ => 0%R) slope2 prgb) z1' z2' x y w /\
  Init.call (Init.init size Cin Cout c1f p1 (fun _ => 0%R) slope1 prgb) z1 w
  = Init.call (Init.init size Cin Cout c1f p1 (fun _ => 0%R) slope1 prgb) z1' w.
Proof.
  split.
  - set (self := Up.init size Cin Cout p1 (fun _ => 0%R) slope1
                   p2 (fun _ => 0%R) slope2 prgb).
    unfold Up.call.
    destruct (Upsampler.call x) as [h1|]; [|reflexivity].
    destruct (SAT.call (Up.s1 self) w) as [m1|]; [|reflexivity].
    destruct (WDC.call (Up.w1 self) h1 m1) as [h2|] eqn:E2; [|reflexivity].
    change (Up.n1 self) with (NoiseAdder.init Cout (fun _ => 0%R)).
    rewrite (silent_noise Cout z1 z1' h2 (call_well_formed _ _ _ _ E2)).
    destruct (NoiseAdder.call (NoiseAdder.init Cout (fun _ => 0%R)) z1' h2) as [h3|];
      [|reflexivity].
    destruct (SAT.call (Up.s2 self) w) as [m2|]; [|reflexivity].
    destruct (WDC.call (Up.w2 self) (LeakyRelu_call (Up.a1 self) h3) m2)
      as [h5|] eqn:E5; [|reflexivity].
    change (Up.n2 self) with (NoiseAdder.init Cout (fun _ => 0%R)).
    now rewrite (silent_noise Cout z2 z2' h5 (call_well_formed _ _ _ _ E5)).
  - set (self := Init.init size Cin Cout c1f p1 (fun _ => 0%R) slope1 prgb).
    unfold Init.call.
    destruct (shape w) as [| batch rest]; [reflexivity|].
    destruct (reshape (Init.c1 self) (1 :: shape (Init.c1 self))) as [h1|];
      [|reflexivity].
    destruct (F.broadcast_to h1 (batch :: shape (Init.c1 self))) as [h2|];
      [|reflexivity].
    destruct (SAT.call (Init.s1 self) w) as [m1|]; [|reflexivity].
    destruct (WDC.call (Init.w1 self) h2 m1) as [h3|] eqn:E3; [|reflexivity].
    change (Init.n1 self) with (NoiseAdder.init Cout (fun _ => 0%R)).
    now rewrite (silent_noise Cout z1 z1' h3 (call_well_formed _ _ _ _ E3)).
Qed.

End SilenceFacts.
